(** * Cutting-stock optimizer (ST.py): shallow embedding and verification

    The development embeds the two core functions of [ST.py],
    [greedy_cutting_optimization] and [find_optimal_stock_length], together
    with the fragment of the Python runtime they rely on: unbounded integers
    ([Z]), insertion-ordered dictionaries (association lists with unique
    keys), binary64 floats with correctly rounded true division, the
    [:.2f] formatter, [float(str)], [range] and the stable [list.sort].
    It also embeds their two callers: the Excel reader
    [read_demands_from_excel], over the data frame that the library
    returns, and the interface [main], over the values of the widgets. *)

From Stdlib Require Import ZArith QArith List String Ascii Bool Lia.
From Stdlib Require Import Permutation Sorted DecimalString DecimalPos.
Import ListNotations.
Local Open Scope Z_scope.

(** ** Control outcomes of a Python call *)

(** Exceptions that the modelled code can raise. *)
Inductive exn : Type :=
| ZeroDivisionError
| OverflowError
| ValueError
| AttributeError
| TypeError.

(** A call either returns [(value, None)], returns [(None, message)], or
    raises.  [E] is the type of reported errors. *)
Inductive outcome (E A : Type) : Type :=
| Ok (a : A)
| Err (e : E)
| Raise (x : exn).
Arguments Ok {E A} a.
Arguments Err {E A} e.
Arguments Raise {E A} x.

Definition bind {E A B} (m : outcome E A) (k : A -> outcome E B) : outcome E B :=
  match m with
  | Ok a => k a
  | Err e => Err e
  | Raise x => Raise x
  end.

Notation "x <- m ;; k" := (bind m (fun x => k))
  (at level 61, m at next level, right associativity).
Notation "' p <- m ;; k" := (bind m (fun x => let p := x in k))
  (at level 61, p pattern, m at next level, right associativity).

(** ** Binary64 floats *)

Module PyFloat.

(** A float is [(-1)^neg * m * 2^e] with [0 <= m], or a signed infinity.
    NaN is never produced by the operations the program uses. *)
Inductive float : Type :=
| Fin (neg : bool) (m : Z) (e : Z)
| Inf (neg : bool).

(** Nearest integer to [n / d], ties to even ([0 <= n], [0 < d]). *)
Definition rne_div (n d : Z) : Z :=
  let q := n / d in
  let r := n mod d in
  if 2 * r <? d then q
  else if d <? 2 * r then q + 1
  else if Z.even q then q else q + 1.

(** The fraction [(n / d) / 2^k] as a numerator and a denominator. *)
Definition scaled (n d k : Z) : Z * Z :=
  if 0 <=? k then (n, d * 2 ^ k) else (n * 2 ^ (- k), d).

(** [floor (log2 (n / d))] for [0 < n], [0 < d]. *)
Definition ilog2 (n d : Z) : Z :=
  let e0 := Z.log2 n - Z.log2 d in
  let '(n', d') := scaled n d e0 in
  if d' <=? n' then e0 else e0 - 1.

(** Round the non-negative rational [n / d] to binary64, round-half-even,
    53 bits of precision, subnormals below [2^-1022].  [None] when the
    rounded value reaches [2^1024]. *)
Definition round64 (neg : bool) (n d : Z) : option float :=
  if n =? 0 then Some (Fin neg 0 0)
  else
    let e := ilog2 n d in
    let k := Z.max (e - 52) (-1074) in
    let '(n', d') := scaled n d k in
    let m := rne_div n' d' in
    if (0 <=? k) && (2 ^ 1024 <=? m * 2 ^ k) then None
    else Some (Fin neg m k).

(** [a / b] on two ints: the correctly rounded quotient. *)
Definition true_div {E} (a b : Z) : outcome E float :=
  if b =? 0 then Raise ZeroDivisionError
  else
    match round64 (xorb (a <? 0) (b <? 0)) (Z.abs a) (Z.abs b) with
    | Some f => Ok f
    | None => Raise OverflowError
    end.

(** [math.floor(x)]. *)
Definition math_floor {E} (x : float) : outcome E Z :=
  match x with
  | Fin neg m e =>
      let s := if neg then - m else m in
      Ok (if 0 <=? e then s * 2 ^ e else s / 2 ^ (- e))
  | Inf _ => Raise OverflowError
  end.

(** [x * n] for a float [x] and a positive int [n] that is exactly
    representable; an overflowing product is an infinity. *)
Definition mul_int (x : float) (n : Z) : float :=
  match x with
  | Fin neg m e =>
      let '(num, den) := scaled (m * n) 1 (- e) in
      match round64 neg num den with
      | Some f => f
      | None => Inf neg
      end
  | Inf neg => Inf neg
  end.

(** [-x]. *)
Definition neg (x : float) : float :=
  match x with
  | Fin s m e => Fin (negb s) m e
  | Inf s => Inf (negb s)
  end.

(** The exact value of a finite float. *)
Definition fval (s : bool) (m e : Z) : Q :=
  let v := if 0 <=? e then inject_Z (m * 2 ^ e) else (m # Z.to_pos (2 ^ (- e))) in
  if s then Qopp v else v.

(** [x <= y] on floats ([-0.0] and [0.0] compare equal). *)
Definition leb (x y : float) : bool :=
  match x, y with
  | Inf true, _ => true
  | _, Inf false => true
  | Inf false, _ => false
  | _, Inf true => false
  | Fin s1 m1 e1, Fin s2 m2 e2 => Qle_bool (fval s1 m1 e1) (fval s2 m2 e2)
  end.

Definition ltb (x y : float) : bool := negb (leb y x).
Definition eqb (x y : float) : bool := leb x y && leb y x.

End PyFloat.

Import PyFloat.

(** ** Strings: [str(int)], [:.2f], [str.strip], [float(str)] *)

Local Open Scope string_scope.

(** [str(n)] for an int. *)
Definition str_int (n : Z) : string := NilZero.string_of_int (Z.to_int n).

Definition digit (n : Z) : ascii := ascii_of_nat (48 + Z.to_nat n).

Definition two_digits (n : Z) : string :=
  String (digit (n / 10)) (String (digit (n mod 10)) EmptyString).

(** The exact value [m * 2^e] in hundredths, rounded half-even. *)
Definition hundredths (m e : Z) : Z :=
  let '(num, den) := scaled (m * 100) 1 (- e) in rne_div num den.

(** [f"{x:.2f}"]. *)
Definition format_2f (x : float) : string :=
  match x with
  | Fin s m e =>
      let h := hundredths m e in
      (if s then "-" else EmptyString) ++ str_int (h / 100) ++ "." ++ two_digits (h mod 100)
  | Inf s => if s then "-inf" else "inf"
  end.

Fixpoint lstrip (c : ascii) (s : string) : string :=
  match s with
  | String a s' => if Ascii.eqb a c then lstrip c s' else s
  | EmptyString => EmptyString
  end.

Fixpoint rstrip (c : ascii) (s : string) : string :=
  match s with
  | String a s' =>
      match rstrip c s' with
      | EmptyString => if Ascii.eqb a c then EmptyString else String a EmptyString
      | t => String a t
      end
  | EmptyString => EmptyString
  end.

(** [s.strip(c)] for a one-character argument. *)
Definition strip (c : ascii) (s : string) : string := rstrip c (lstrip c s).

(** Split at the first ["."]. *)
Fixpoint split_dot (s : string) : string * option string :=
  match s with
  | String a s' =>
      if Ascii.eqb a "." then (EmptyString, Some s')
      else let '(i, f) := split_dot s' in (String a i, f)
  | EmptyString => (EmptyString, None)
  end.

Definition digits_value (s : string) : option Z :=
  option_map Z.of_uint (NilEmpty.uint_of_string s).

(** [float(s)] on the syntax that [:.2f] emits: an optional sign, then
    [inf] or decimal digits with an optional fraction.  The decimal is
    rounded correctly; a value too large for a float parses to infinity.
    Every other string is rejected with [ValueError]. *)
Definition py_float {E} (s : string) : outcome E float :=
  let '(sg, body) :=
    match s with
    | String a t => if Ascii.eqb a "-" then (true, t) else (false, s)
    | EmptyString => (false, s)
    end in
  if String.eqb body "inf" then Ok (Inf sg)
  else
    let '(ip, fp) := split_dot body in
    let fp' := match fp with Some f => f | None => EmptyString end in
    if (String.length ip + String.length fp' =? 0)%nat then Raise ValueError
    else
      match digits_value ip, digits_value fp' with
      | Some i, Some f =>
          let den := 10 ^ Z.of_nat (String.length fp') in
          match round64 sg (i * den + f) den with
          | Some x => Ok x
          | None => Ok (Inf sg)
          end
      | _, _ => Raise ValueError
      end.

Local Close Scope string_scope.

(** ** Dictionaries with int keys and int values

    Insertion-ordered, keys unique: an association list. *)

Definition dict := list (Z * Z).

Fixpoint dict_get (d : dict) (k : Z) : option Z :=
  match d with
  | [] => None
  | (k', v) :: d' => if k' =? k then Some v else dict_get d' k
  end.

(** [d[k] = v]: overwrite in place, or append a new key. *)
Fixpoint dict_set (d : dict) (k v : Z) : dict :=
  match d with
  | [] => [(k, v)]
  | (k', v') :: d' => if k' =? k then (k', v) :: d' else (k', v') :: dict_set d' k v
  end.

(** [a == b] on dicts: same size and the same value under every key,
    whatever the insertion order. *)
Definition dict_eqb (a b : dict) : bool :=
  (List.length a =? List.length b)%nat &&
  forallb (fun kv => match dict_get b (fst kv) with
                     | Some v => v =? snd kv
                     | None => false
                     end) a.

(** The invariant of a dict: no key occurs twice. *)
Definition dict_wf (d : dict) : Prop := NoDup (map fst d).

(** ** [list.sort(key=...)]

    Python's sort is stable and compares keys with [<] only.  A stable
    sort has exactly one result, so stable insertion stands for it. *)

Section StableSort.
Context {A K : Type} (lt : K -> K -> bool) (key : A -> K).

Fixpoint insert_by (x : A) (l : list A) : list A :=
  match l with
  | [] => [x]
  | y :: l' => if lt (key y) (key x) then y :: insert_by x l' else x :: l
  end.

Definition sort_by (l : list A) : list A := fold_right insert_by [] l.
End StableSort.

(** ** The optimizer: [greedy_cutting_optimization] *)

(** Reported errors; [error_message] is the text returned next to [None]. *)
Inductive error : Type :=
| OversizedDemand (length stock_length : Z)
| InfeasibleDemand
| NoFeasibleLength.

Definition error_message (e : error) : string :=
  (match e with
   | OversizedDemand l s =>
       "需求长度 " ++ str_int l ++ "mm 超过原始材料长度 " ++ str_int s ++ "mm"
   | InfeasibleDemand => "无法满足所有需求（可能尺寸不合理）"
   | NoFeasibleLength => "指定范围内无可行方案"
   end)%string.

(** A working record [{'length': ..., 'quantity': ...}]. *)
Record demand : Type := mkDemand { d_length : Z; d_quantity : Z }.

(** An entry of the internal list [cutting_plans]. *)
Record plan : Type := mkPlan {
  p_pattern : dict;
  p_count : Z;
  p_utilization : float;
  p_waste : Z
}.

(** Values of the two utilization fields, which Python types dynamically. *)
Inductive pyval : Type :=
| PyNum (x : float)
| PyStr (s : string).

(** An entry of [formatted_plans]. *)
Record formatted_plan : Type := mkFormatted {
  pattern_desc : string;
  count : Z;
  utilization : pyval;
  waste : Z
}.

(** The dict returned on success. *)
Record result : Type := mkResult {
  cutting_plans : list formatted_plan;
  total_stock_used : Z;
  total_utilization : pyval;
  total_waste : Z
}.

(** The local variables that live across iterations of the [while] loop. *)
Record state : Type := mkState {
  st_demand_list : list demand;
  st_cutting_plans : list plan;
  st_total_stock_used : Z;
  st_total_used_length : Z
}.

(** Lines 51-53: the first key, in iteration order, that exceeds the stock. *)
Definition first_oversized (stock_length : Z) (demands : dict) : option Z :=
  option_map fst (find (fun kv => stock_length <? fst kv) demands).

(** Lines 55-57: the working list, sorted by [-length]. *)
Definition make_demand_list (demands : dict) : list demand :=
  sort_by Z.ltb (fun d => - d_length d)
          (map (fun kv => mkDemand (fst kv) (snd kv)) demands).

(** Line 63: [any(d['quantity'] > 0 for d in demand_list)]. *)
Definition any_remaining (ds : list demand) : bool :=
  existsb (fun d => 0 <? d_quantity d) ds.

(** Lines 68-77: the body of the [for] loop for one working record. *)
Definition cut_demand (d : demand) (remaining_length : Z) (current_pattern : dict)
  : outcome error (demand * Z * dict) :=
  if (d_quantity d <=? 0) || (remaining_length <? d_length d)
  then Ok (d, remaining_length, current_pattern)
  else
    q <- true_div remaining_length (d_length d) ;;
    max_possible <- math_floor q ;;
    let actual_count := Z.min max_possible (d_quantity d) in
    if 0 <? actual_count then
      Ok (mkDemand (d_length d) (d_quantity d - actual_count),
          remaining_length - actual_count * d_length d,
          dict_set current_pattern (d_length d) actual_count)
    else Ok (d, remaining_length, current_pattern).

(** Lines 67-77: the [for] loop over the working list. *)
Fixpoint fill_unit (ds : list demand) (remaining_length : Z) (current_pattern : dict)
  : outcome error (list demand * Z * dict) :=
  match ds with
  | [] => Ok ([], remaining_length, current_pattern)
  | d :: ds' =>
      '(d', rl, pat) <- cut_demand d remaining_length current_pattern ;;
      '(ds'', rl', pat') <- fill_unit ds' rl pat ;;
      Ok (d' :: ds'', rl', pat')
  end.

(** Lines 85-90: increment the first entry whose pattern equals the
    current one; [None] when there is none. *)
Fixpoint bump_existing (plans : list plan) (current_pattern : dict) : option (list plan) :=
  match plans with
  | [] => None
  | p :: ps =>
      if dict_eqb (p_pattern p) current_pattern
      then Some (mkPlan (p_pattern p) (p_count p + 1) (p_utilization p) (p_waste p) :: ps)
      else option_map (cons p) (bump_existing ps current_pattern)
  end.

(** Lines 85-97. *)
Definition record_pattern (plans : list plan) (current_pattern : dict)
           (utilization : float) (remaining_length : Z) : list plan :=
  match bump_existing plans current_pattern with
  | Some plans' => plans'
  | None => plans ++ [mkPlan current_pattern 1 utilization remaining_length]
  end.

(** Lines 64-100: one iteration of the [while] loop. *)
Definition cut_one_stock (stock_length : Z) (st : state) : outcome error state :=
  '(ds, remaining_length, current_pattern) <- fill_unit (st_demand_list st) stock_length [] ;;
  match current_pattern with
  | [] => Err InfeasibleDemand
  | _ :: _ =>
      let pattern_used_length := stock_length - remaining_length in
      q <- true_div pattern_used_length stock_length ;;
      let utilization := mul_int q 100 in
      Ok (mkState ds
            (record_pattern (st_cutting_plans st) current_pattern utilization remaining_length)
            (st_total_stock_used st + 1)
            (st_total_used_length st + pattern_used_length))
  end.

(** Lines 63-100: the [while] loop, at most [fuel] iterations.  [None]
    means that the fuel ran out with demand still open. *)
Fixpoint greedy_loop (fuel : nat) (stock_length : Z) (st : state)
  : option (outcome error state) :=
  if any_remaining (st_demand_list st) then
    match fuel with
    | O => None
    | S fuel' =>
        match cut_one_stock stock_length st with
        | Ok st' => greedy_loop fuel' stock_length st'
        | Err e => Some (Err e)
        | Raise x => Some (Raise x)
        end
    end
  else Some (Ok st).

(** The sum of the open quantities: the loop's variant. *)
Definition open_quantity (ds : list demand) : Z :=
  fold_right (fun d acc => Z.max 0 (d_quantity d) + acc) 0 ds.

Fixpoint join (sep : string) (l : list string) : string :=
  match l with
  | [] => EmptyString
  | [x] => x
  | x :: l' => (x ++ sep ++ join sep l')%string
  end.

(** Lines 106-114. *)
Definition format_plan (p : plan) : formatted_plan :=
  mkFormatted
    (join " + " (map (fun kv => (str_int (snd kv) ++ "×" ++ str_int (fst kv) ++ "mm")%string)
                     (p_pattern p)))
    (p_count p)
    (PyStr (format_2f (p_utilization p) ++ "%")%string)
    (p_waste p).

(** Lines 102-121. *)
Definition format_totals (stock_length : Z) (cutting_plans : list plan)
           (total_stock_used total_used_length : Z) : outcome error result :=
  q <- true_div total_used_length (total_stock_used * stock_length) ;;
  let total_utilization := mul_int q 100 in
  let total_waste := total_stock_used * stock_length - total_used_length in
  Ok (mkResult (map format_plan cutting_plans)
               total_stock_used
               (PyStr (format_2f total_utilization ++ "%")%string)
               total_waste).

Definition format_result (stock_length : Z) (st : state) : outcome error result :=
  format_totals stock_length (st_cutting_plans st) (st_total_stock_used st)
                (st_total_used_length st).

(** Lines 49-103: validation and the loop, before formatting. *)
Definition greedy_plan (stock_length : Z) (demands : dict) : option (outcome error state) :=
  match first_oversized stock_length demands with
  | Some l => Some (Err (OversizedDemand l stock_length))
  | None =>
      let ds := make_demand_list demands in
      greedy_loop (Z.to_nat (open_quantity ds)) stock_length (mkState ds [] 0 0)
  end.

(** Lines 49-121. *)
Definition greedy_cutting_optimization (stock_length : Z) (demands : dict)
  : option (outcome error result) :=
  option_map (fun o => st <- o ;; format_result stock_length st)
             (greedy_plan stock_length demands).

(** ** The search: [find_optimal_stock_length] *)

(** An element of [results]: [{'stock_length': length, **result}]. *)
Record search_result : Type := mkSearch {
  stock_length : Z;
  sr_result : result
}.

(** [range(start, stop, step)]. *)
Definition py_range (start stop step : Z) : outcome error (list Z) :=
  if step =? 0 then Raise ValueError
  else
    let n := if 0 <? step then (stop - start + step - 1) / step
             else (start - stop - step - 1) / (- step) in
    Ok (map (fun i => start + Z.of_nat i * step) (seq 0 (Z.to_nat n))).

(** Lines 128-132.  [demands.copy()] is the same mapping; the optimizer's
    third outcome, an exception, is not caught. *)
Fixpoint collect_results (demands : dict) (lengths : list Z)
  : option (outcome error (list search_result)) :=
  match lengths with
  | [] => Some (Ok [])
  | length :: lengths' =>
      match greedy_cutting_optimization length demands with
      | None => None
      | Some (Raise x) => Some (Raise x)
      | Some (Err _) => collect_results demands lengths'
      | Some (Ok r) =>
          match collect_results demands lengths' with
          | Some (Ok rs) => Some (Ok (mkSearch length r :: rs))
          | o => o
          end
      end
  end.

(** Line 137: [float(x['total_utilization'].strip('%'))]; a float has no
    [strip]. *)
Definition rendered_utilization (r : result) : outcome error float :=
  match total_utilization r with
  | PyStr s => py_float (strip "%" s)
  | PyNum _ => Raise AttributeError
  end.

(** Line 137: the key
    [(-float(x['total_utilization'].strip('%')), x['total_stock_used'])]. *)
Definition sort_key (x : search_result) : outcome error (float * Z) :=
  u <- rendered_utilization (sr_result x) ;;
  Ok (PyFloat.neg u, total_stock_used (sr_result x)).

(** [<] on the key tuples: the first components that differ decide. *)
Definition key_ltb (a b : float * Z) : bool :=
  if PyFloat.eqb (fst a) (fst b) then snd a <? snd b
  else PyFloat.ltb (fst a) (fst b).

(** The keys are computed once per element, before any comparison. *)
Fixpoint decorate (l : list search_result)
  : outcome error (list ((float * Z) * search_result)) :=
  match l with
  | [] => Ok []
  | x :: l' =>
      k <- sort_key x ;;
      kl <- decorate l' ;;
      Ok ((k, x) :: kl)
  end.

(** Line 137. *)
Definition sort_results (l : list search_result) : outcome error (list search_result) :=
  kl <- decorate l ;;
  Ok (map snd (sort_by key_ltb fst kl)).

(** Lines 124-138. *)
Definition find_optimal_stock_length (demands : dict) (min_length max_length step_length : Z)
  : option (outcome error (list search_result)) :=
  match py_range min_length (max_length + 1) step_length with
  | Ok lengths =>
      match collect_results demands lengths with
      | Some (Ok []) => Some (Err NoFeasibleLength)
      | Some (Ok results) => Some (sort_results results)
      | o => o
      end
  | Err e => Some (Err e)
  | Raise x => Some (Raise x)
  end.

(** ** The same two functions over a store of objects

    Python passes the demand dict by reference and the optimizer mutates
    its working records in place.  Here the heap is explicit: a location
    is an index into a list of objects, [alloc] appends, and the functions
    below thread the heap through every read, write and allocation that
    the source performs on dicts.  Integers, floats, strings and the
    local lists are values, as they are immutable or never shared. *)

Module Store.

Inductive obj : Type :=
| ODict (d : dict)
| ORecord (r : demand).

Definition heap := list obj.
Definition loc := nat.

Definition read (h : heap) (l : loc) : option obj := nth_error h l.

Fixpoint write (h : heap) (l : loc) (o : obj) : heap :=
  match h, l with
  | [], _ => []
  | _ :: h', O => o :: h'
  | x :: h', S l' => x :: write h' l' o
  end.

Definition alloc (h : heap) (o : obj) : heap * loc := (h ++ [o], List.length h).

(** Lines 55-56: one fresh record per item of the dict. *)
Fixpoint new_records (items : dict) (h : heap) : heap * list loc :=
  match items with
  | [] => (h, [])
  | kv :: items' =>
      let '(h1, r) := alloc h (ORecord (mkDemand (fst kv) (snd kv))) in
      let '(h2, rs) := new_records items' h1 in
      (h2, r :: rs)
  end.

(** The key [-x['length']] of line 57. *)
Definition length_key (h : heap) (l : loc) : Z :=
  match read h l with
  | Some (ORecord d) => - d_length d
  | _ => 0
  end.

(** Line 63. *)
Definition any_remaining (h : heap) (locs : list loc) : bool :=
  existsb (fun l => match read h l with
                    | Some (ORecord d) => 0 <? d_quantity d
                    | _ => false
                    end) locs.

(** Lines 67-77: [demand['quantity'] -= actual_count] writes the record
    (a record that is skipped is written back as it was). *)
Fixpoint fill_unit (locs : list loc) (remaining_length : Z) (current_pattern : dict)
         (h : heap) : heap * outcome error (Z * dict) :=
  match locs with
  | [] => (h, Ok (remaining_length, current_pattern))
  | l :: locs' =>
      match read h l with
      | Some (ORecord d) =>
          match cut_demand d remaining_length current_pattern with
          | Ok (d', rl, pat) => fill_unit locs' rl pat (write h l (ORecord d'))
          | Err e => (h, Err e)
          | Raise x => (h, Raise x)
          end
      | _ => (h, Raise TypeError)
      end
  end.

(** The locals of the loop other than the working list. *)
Record locals : Type := mkLocals {
  lc_cutting_plans : list plan;
  lc_total_stock_used : Z;
  lc_total_used_length : Z
}.

(** Lines 64-100. *)
Definition cut_one_stock (stock_length : Z) (locs : list loc) (lc : locals) (h : heap)
  : heap * outcome error locals :=
  let '(h', r) := fill_unit locs stock_length [] h in
  (h',
   '(remaining_length, current_pattern) <- r ;;
   match current_pattern with
   | [] => Err InfeasibleDemand
   | _ :: _ =>
       let pattern_used_length := stock_length - remaining_length in
       q <- true_div pattern_used_length stock_length ;;
       let utilization := mul_int q 100 in
       Ok (mkLocals
             (record_pattern (lc_cutting_plans lc) current_pattern utilization
                             remaining_length)
             (lc_total_stock_used lc + 1)
             (lc_total_used_length lc + pattern_used_length))
   end).

(** Lines 63-100. *)
Fixpoint greedy_loop (fuel : nat) (stock_length : Z) (locs : list loc) (lc : locals)
         (h : heap) : heap * option (outcome error locals) :=
  if any_remaining h locs then
    match fuel with
    | O => (h, None)
    | S fuel' =>
        match cut_one_stock stock_length locs lc h with
        | (h', Ok lc') => greedy_loop fuel' stock_length locs lc' h'
        | (h', Err e) => (h', Some (Err e))
        | (h', Raise x) => (h', Some (Raise x))
        end
    end
  else (h, Some (Ok lc)).

(** The variant, read from the heap. *)
Definition open_quantity (h : heap) (locs : list loc) : Z :=
  fold_right (fun l acc => match read h l with
                           | Some (ORecord d) => Z.max 0 (d_quantity d)
                           | _ => 0
                           end + acc) 0 locs.

(** Lines 49-121, called with a reference to the demand dict. *)
Definition greedy_cutting_optimization (stock_length : Z) (demands : loc) (h : heap)
  : heap * option (outcome error result) :=
  match read h demands with
  | Some (ODict d) =>
      match first_oversized stock_length d with
      | Some l => (h, Some (Err (OversizedDemand l stock_length)))
      | None =>
          let '(h1, locs) := new_records d h in
          let demand_list := sort_by Z.ltb (length_key h1) locs in
          let '(h2, o) := greedy_loop (Z.to_nat (open_quantity h1 demand_list))
                                      stock_length demand_list (mkLocals [] 0 0) h1 in
          (h2, option_map
                 (fun o => lc <- o ;;
                           format_totals stock_length (lc_cutting_plans lc)
                                         (lc_total_stock_used lc)
                                         (lc_total_used_length lc)) o)
      end
  | _ => (h, Some (Raise TypeError))
  end.

(** Lines 128-132: every candidate gets [demands.copy()], a new dict. *)
Fixpoint collect_results (demands : loc) (lengths : list Z) (h : heap)
  : heap * option (outcome error (list search_result)) :=
  match lengths with
  | [] => (h, Some (Ok []))
  | length :: lengths' =>
      match read h demands with
      | Some (ODict d) =>
          let '(h1, demand_copy) := alloc h (ODict d) in
          let '(h2, o) := greedy_cutting_optimization length demand_copy h1 in
          match o with
          | None => (h2, None)
          | Some (Raise x) => (h2, Some (Raise x))
          | Some (Err _) => collect_results demands lengths' h2
          | Some (Ok r) =>
              let '(h3, o') := collect_results demands lengths' h2 in
              (h3, match o' with
                   | Some (Ok rs) => Some (Ok (mkSearch length r :: rs))
                   | _ => o'
                   end)
          end
      | _ => (h, Some (Raise AttributeError))
      end
  end.

(** Lines 124-138. *)
Definition find_optimal_stock_length (demands : loc)
           (min_length max_length step_length : Z) (h : heap)
  : heap * option (outcome error (list search_result)) :=
  match py_range min_length (max_length + 1) step_length with
  | Ok lengths =>
      let '(h', o) := collect_results demands lengths h in
      (h', match o with
           | Some (Ok []) => Some (Err NoFeasibleLength)
           | Some (Ok results) => Some (sort_results results)
           | _ => o
           end)
  | Err e => (h, Some (Err e))
  | Raise x => (h, Some (Raise x))
  end.

(** The records behind a list of locations. *)
Fixpoint snapshot (h : heap) (locs : list loc) : option (list demand) :=
  match locs with
  | [] => Some []
  | l :: locs' =>
      match read h l, snapshot h locs' with
      | Some (ORecord d), Some ds => Some (d :: ds)
      | _, _ => None
      end
  end.

End Store.

(** ** Text as code points

    A Python [str] is a sequence of code points; column labels are
    stripped and compared per code point. *)

Definition text := list N.

(** The code points of a UTF-8 literal. *)
Fixpoint code_points (s : string) : text :=
  match s with
  | EmptyString => []
  | String a s1 =>
      let b := N_of_ascii a in
      if (b <? 128)%N then b :: code_points s1
      else
        match s1 with
        | EmptyString => []
        | String a2 s2 =>
            let c2 := (N_of_ascii a2 mod 64)%N in
            if (b <? 224)%N then ((b mod 32) * 64 + c2)%N :: code_points s2
            else
              match s2 with
              | EmptyString => []
              | String a3 s3 =>
                  let c3 := (N_of_ascii a3 mod 64)%N in
                  if (b <? 240)%N
                  then ((b mod 16) * 4096 + c2 * 64 + c3)%N :: code_points s3
                  else
                    match s3 with
                    | EmptyString => []
                    | String a4 s4 =>
                        ((b mod 8) * 262144 + c2 * 4096 + c3 * 64
                         + N_of_ascii a4 mod 64)%N :: code_points s4
                    end
              end
        end
  end.

Fixpoint text_eqb (s t : text) : bool :=
  match s, t with
  | [], [] => true
  | a :: s', b :: t' => (a =? b)%N && text_eqb s' t'
  | _, _ => false
  end.

(** The code points that [str.strip()] removes: [str.isspace]. *)
Definition is_space (c : N) : bool :=
  (((9 <=? c) && (c <=? 13)) || ((28 <=? c) && (c <=? 32)) ||
   (c =? 133) || (c =? 160) || (c =? 5760) ||
   ((8192 <=? c) && (c <=? 8202)) ||
   (c =? 8232) || (c =? 8233) || (c =? 8239) || (c =? 8287) || (c =? 12288))%N.

Fixpoint text_lstrip (s : text) : text :=
  match s with
  | c :: s' => if is_space c then text_lstrip s' else s
  | [] => []
  end.

(** [s.strip()] without an argument. *)
Definition text_strip (s : text) : text := rev (text_lstrip (rev (text_lstrip s))).

(** ** Exceptions outside the core

    The reader and the interface meet exceptions that the two core
    functions never raise. *)
Inductive raised : Type :=
| Builtin (x : exn)
| KeyError (key : text)
| IndexError
| LibraryError.

(** ** The Excel reader: [read_demands_from_excel]

    [pd.read_excel] is a library call: its result, a data frame or an
    exception, is a parameter of the model.  A frame is what the code
    observes of it: the column labels and, row by row, the cells.  The
    index is the default one, [0, 1, 2, ...]. *)

(** A column label: text, or an object without a [strip] method (a number,
    a date). *)
Inductive label : Type :=
| Text (s : text)
| NotText.

(** A cell as [int(...)] sees it: the integer it converts to (a float is
    truncated), or the exception that the conversion raises ([ValueError]
    for a blank cell or unparsable text, [TypeError] for a date,
    [OverflowError] for an infinite float). *)
Inductive cell : Type :=
| IntLike (z : Z)
| NotIntLike (x : exn).

Record data_frame : Type := mkFrame {
  df_columns : list label;
  df_rows : list (list cell)
}.

(** The messages returned next to [None]:
    - [MissingColumns]: "Excel文件必须包含'长度(mm)'和'数量(根)'两列";
    - [RowNotInteger n]: "第n行：长度/数量必须是整数";
    - [RowNotPositive n]: "第n行：长度和数量必须为正数";
    - [NoValidData]: "没有有效数据（至少需要1行）";
    - [ReadFailed e]: "读取失败：" followed by [str(e)]. *)
Inductive read_error : Type :=
| MissingColumns
| RowNotInteger (row_number : Z)
| RowNotPositive (row_number : Z)
| NoValidData
| ReadFailed (e : raised).

(** Inside the [try] block a step completes, returns [(None, message)],
    or raises. *)
Inductive attempt (A : Type) : Type :=
| Done (a : A)
| Return (e : read_error)
| Throw (x : raised).
Arguments Done {A} a.
Arguments Return {A} e.
Arguments Throw {A} x.

Definition length_column : text := code_points "长度(mm)".
Definition quantity_column : text := code_points "数量(根)".

(** Line 19. *)
Definition required_columns : list text := [length_column; quantity_column].

(** Line 20: [[col.strip() for col in df.columns]]. *)
Fixpoint stripped_columns (cols : list label) : attempt (list text) :=
  match cols with
  | [] => Done []
  | Text s :: cols' =>
      match stripped_columns cols' with
      | Done l => Done (text_strip s :: l)
      | Return e => Return e
      | Throw x => Throw x
      end
  | NotText :: _ => Throw (Builtin AttributeError)
  end.

(** Line 21: [all(req_col in actual_columns for req_col in required_columns)]. *)
Definition has_required_columns (actual_columns : list text) : bool :=
  forallb (fun req_col => existsb (text_eqb req_col) actual_columns) required_columns.

(** [row[key]]: the cell under the label equal to [key]; [None] stands
    for [KeyError].  The library makes the labels of a sheet distinct, so
    the first match is the only one. *)
Fixpoint series_get (cols : list label) (row : list cell) (key : text) : option cell :=
  match cols, row with
  | Text s :: cols', v :: row' =>
      if text_eqb s key then Some v else series_get cols' row' key
  | NotText :: cols', _ :: row' => series_get cols' row' key
  | _, _ => None
  end.

(** [int(row[key])]. *)
Definition int_cell (cols : list label) (row : list cell) (key : text) : attempt Z :=
  match series_get cols row key with
  | None => Throw (KeyError key)
  | Some (IntLike z) => Done z
  | Some (NotIntLike x) => Throw (Builtin x)
  end.

(** Lines 27-28. *)
Definition row_ints (cols : list label) (row : list cell) : attempt (Z * Z) :=
  match int_cell cols row length_column with
  | Done length =>
      match int_cell cols row quantity_column with
      | Done quantity => Done (length, quantity)
      | Return e => Return e
      | Throw x => Throw x
      end
  | Return e => Return e
  | Throw x => Throw x
  end.

(** Line 29: [except (ValueError, TypeError)]. *)
Definition is_conversion_error (x : raised) : bool :=
  match x with
  | Builtin ValueError | Builtin TypeError => true
  | _ => false
  end.

(** Lines 35-38, and lines 209-212 of [main]: merge equal lengths. *)
Definition add_demand (demands : dict) (length quantity : Z) : dict :=
  match dict_get demands length with
  | Some q => dict_set demands length (q + quantity)
  | None => dict_set demands length quantity
  end.

(** Lines 25-38: the loop over the rows; [index] is the label of the
    first row of [rows]. *)
Fixpoint read_rows (cols : list label) (rows : list (list cell)) (index : Z)
         (demands : dict) : attempt dict :=
  match rows with
  | [] => Done demands
  | row :: rows' =>
      match row_ints cols row with
      | Done (length, quantity) =>
          if (length <=? 0) || (quantity <=? 0)
          then Return (RowNotPositive (index + 2))
          else read_rows cols rows' (index + 1) (add_demand demands length quantity)
      | Return e => Return e
      | Throw x =>
          if is_conversion_error x then Return (RowNotInteger (index + 2))
          else Throw x
      end
  end.

(** Lines 19-43, on the frame that [pd.read_excel] returned. *)
Definition read_frame (df : data_frame) : attempt dict :=
  match stripped_columns (df_columns df) with
  | Done actual_columns =>
      if negb (has_required_columns actual_columns) then Return MissingColumns
      else
        match read_rows (df_columns df) (df_rows df) 0 [] with
        | Done [] => Return NoValidData
        | other => other
        end
  | Return e => Return e
  | Throw x => Throw x
  end.

Section Application.

(** [pd.read_excel(BytesIO(file_content))]: a frame, or [None] when the
    library raises. *)
Variable read_excel : string -> option data_frame.

(** Lines 14-46: [(demands, None)] is [inl demands] and [(None, message)]
    is [inr error].  The outer [except Exception] turns every exception
    into a message, so nothing is raised. *)
Definition read_demands_from_excel (file_content : string) : dict + read_error :=
  match read_excel file_content with
  | None => inr (ReadFailed LibraryError)
  | Some df =>
      match read_frame df with
      | Done demands => inl demands
      | Return e => inr e
      | Throw x => inr (ReadFailed x)
      end
  end.

(** ** The interface: [main]

    Streamlit runs [main] from top to bottom on every interaction; each
    widget call returns the widget's current value.  The values of one
    run are the input of the model, and what the run displays is its
    output.  Titles, captions, dividers and spinners carry no data and
    are left out. *)

Inductive input_method : Type := ManualInput | ExcelImport.

Inductive mode : Type := GivenLength | BestLength.

Record inputs : Type := mkInputs {
  in_stock_length : Z;           (* line 148, [min_value=100] *)
  in_method : input_method;      (* line 157 *)
  in_file : option string;       (* line 166 *)
  in_demand_count : Z;           (* line 182, [min_value=1] *)
  in_length : nat -> Z;          (* line 194, [min_value=1] *)
  in_quantity : nat -> Z;        (* line 201, [min_value=1] *)
  in_mode : mode;                (* line 217 *)
  in_start : bool;               (* line 224 *)
  in_min_length : Z;             (* line 232, [min_value=100] *)
  in_max_length : Z;             (* line 234, [min_value=100] *)
  in_step_length : Z;            (* line 236, [min_value=10] *)
  in_restart : bool              (* line 323 *)
}.

(** What a run displays. *)
Inductive element : Type :=
| ExcelError (e : read_error)                            (* line 171 *)
| ImportSuccess (kinds : nat)                            (* line 173 *)
| DemandPreview (items : list (Z * Z))                   (* lines 175-179 *)
| NeedDemands                                            (* line 226 *)
| MinNotBelowMax                                         (* line 239 *)
| StepTooLarge                                           (* line 242 *)
| ComputeError (e : error)                               (* lines 249, 296 *)
| Recommended (length : Z)                               (* line 256 *)
| BestIndicators (total_utilization : pyval) (total_stock_used total_waste : Z)
                 (average : string)                      (* lines 257-266 *)
| Candidates (table : list (Z * Z * pyval * Z * Z))      (* lines 270-281 *)
| GivenIndicators (stock_length total_stock_used : Z) (total_utilization : pyval)
                  (total_waste : Z) (kinds : nat)        (* lines 302-312 *)
| PlanTable (plans : list formatted_plan)                (* lines 285-289, 316-320 *)
| Rerun.                                                 (* line 324 *)

(** How a part of the run ends: it goes on, it returns from [main], or
    an exception escapes. *)
Inductive flow : Type :=
| Continue
| Returned
| Escaped (x : raised).

Record run : Type := mkRun {
  shown : list element;
  ending : flow
}.

(** Lines 191-212: the manual entries, merged. *)
Definition manual_demands (ui : inputs) : dict :=
  fold_left (fun demands i => add_demand demands (in_length ui i) (in_quantity ui i))
            (seq 0 (Z.to_nat (in_demand_count ui))) [].


(** Lines 271-275: the rows of the comparison table. *)
Definition candidate_rows (top_results : list search_result)
  : list (Z * Z * pyval * Z * Z) :=
  map (fun ir : nat * search_result =>
         let '(i, res) := ir in
         (Z.of_nat i + 1, stock_length res, total_utilization (sr_result res),
          total_stock_used (sr_result res), total_waste (sr_result res)))
      (combine (seq 0 (List.length top_results)) top_results).

(** Lines 251-289: the report on the search.  Line 262 renders the
    utilization that it reads back from the text (the conversion has no
    error value, only exceptions). *)
Definition show_best (results : list search_result) : run :=
  match results with
  | [] => mkRun [] (Escaped IndexError)
  | best_result :: _ =>
      let r := sr_result best_result in
      match rendered_utilization r with
      | Ok u =>
          mkRun [Recommended (stock_length best_result);
                 BestIndicators (total_utilization r) (total_stock_used r) (total_waste r)
                                (format_2f u ++ "%");
                 Candidates (candidate_rows (firstn 5 results));
                 PlanTable (cutting_plans r)]
                Continue
      | Err _ => mkRun [Recommended (stock_length best_result)] Continue
      | Raise x => mkRun [Recommended (stock_length best_result)] (Escaped (Builtin x))
      end
  end.

(** Lines 229-289. *)
Definition search_mode (ui : inputs) (demands : dict) : option run :=
  if in_max_length ui <=? in_min_length ui then Some (mkRun [MinNotBelowMax] Returned)
  else if in_max_length ui - in_min_length ui <=? in_step_length ui
  then Some (mkRun [StepTooLarge] Returned)
  else
    match find_optimal_stock_length demands (in_min_length ui) (in_max_length ui)
                                    (in_step_length ui) with
    | None => None
    | Some (Ok results) => Some (show_best results)
    | Some (Err e) => Some (mkRun [ComputeError e] Continue)
    | Some (Raise x) => Some (mkRun [] (Escaped (Builtin x)))
    end.




End Application.

(** ** Vocabulary of the specification *)

(** The quantity of length [l] still open in a working list. *)
Definition open_of (ds : list demand) (l : Z) : Z :=
  fold_right (fun d acc => (if d_length d =? l then d_quantity d else 0) + acc) 0 ds.

(** The pieces of length [l] that the plan cuts: [repeat_count * count]
    summed over the entries whose pattern contains [l]. *)
Definition pieces_cut (plans : list plan) (l : Z) : Z :=
  fold_right (fun p acc =>
                match dict_get (p_pattern p) l with
                | Some c => p_count p * c
                | None => 0
                end + acc) 0 plans.

(** The stock length that a pattern occupies: the sum of [length * count]. *)
Definition pattern_length (pat : dict) : Z :=
  fold_right (fun kv acc => fst kv * snd kv + acc) 0 pat.

(** The sum of the [remaining_quantity] fields. *)
Definition total_remaining (ds : list demand) : Z :=
  fold_right (fun d acc => d_quantity d + acc) 0 ds.

(** The states that the [while] loop goes through, from the working list
    [ds0] on. *)
Inductive reachable (stock : Z) (ds0 : list demand) : state -> Prop :=
| reach_init : reachable stock ds0 (mkState ds0 [] 0 0)
| reach_step st st' :
    reachable stock ds0 st ->
    any_remaining (st_demand_list st) = true ->
    cut_one_stock stock st = Ok st' ->
    reachable stock ds0 st'.

(** Loop invariant: the lengths of the working list are fixed, its
    quantities stay non-negative, what has left them is in the plan, every
    entry's waste is what its pattern leaves of the stock, and only the
    initial state has used no stock. *)
Record run_inv (stock : Z) (ds0 : list demand) (st : state) : Prop := mkRunInv {
  inv_lengths : map d_length (st_demand_list st) = map d_length ds0;
  inv_nonneg : Forall (fun d => 0 <= d_quantity d) (st_demand_list st);
  inv_plans_wf : Forall (fun p => dict_wf (p_pattern p)) (st_cutting_plans st);
  inv_conserve :
    forall l, open_of (st_demand_list st) l + pieces_cut (st_cutting_plans st) l
              = open_of ds0 l;
  inv_waste :
    Forall (fun p => p_waste p = stock - pattern_length (p_pattern p))
           (st_cutting_plans st);
  inv_used :
    0 <= st_total_stock_used st /\
    (st_total_stock_used st = 0 -> st_demand_list st = ds0)
}.

(** Loop invariant below [2^53]: no entry wastes a negative length and
    the used length is within the stock consumed. *)
Record fit_inv (stock : Z) (st : state) : Prop := mkFitInv {
  fit_waste : Forall (fun p => 0 <= p_waste p) (st_cutting_plans st);
  fit_used : 0 <= st_total_used_length st <= st_total_stock_used st * stock
}.

(** Loop invariant: every entry's utilization is [100 *] the fraction of
    the stock that its waste leaves. *)
Definition util_inv (stock : Z) (st : state) : Prop :=
  Forall (fun p => exists q, true_div (E:=error) (stock - p_waste p) stock = Ok q /\
                             p_utilization p = mul_int q 100)
         (st_cutting_plans st).

(** Whether a field holds a number rather than text. *)
Definition is_number (v : pyval) : bool :=
  match v with
  | PyNum _ => true
  | PyStr _ => false
  end.

(** A float as the operations build it: a non-negative mantissa. *)
Definition float_wf (x : float) : Prop :=
  match x with
  | Fin _ m _ => 0 <= m
  | Inf _ => True
  end.

Fixpoint all_chars (P : ascii -> bool) (s : string) : bool :=
  match s with
  | EmptyString => true
  | String a s' => P a && all_chars P s'
  end.

Definition is_digit (c : ascii) : bool :=
  (48 <=? nat_of_ascii c)%nat && (nat_of_ascii c <=? 57)%nat.

(** The characters that [:.2f] can emit. *)
Definition is_float_char (c : ascii) : bool :=
  is_digit c || Ascii.eqb c "-" || Ascii.eqb c "." ||
  Ascii.eqb c "i" || Ascii.eqb c "n" || Ascii.eqb c "f".

(** The float that [float(...)] reads from a rendered float: the
    hundredths, rounded to a float again. *)
Definition reread (x : float) : float :=
  match x with
  | Fin s m e =>
      match round64 s (hundredths m e) 100 with
      | Some y => y
      | None => Inf s
      end
  | Inf s => Inf s
  end.

(** The percentage of a result before it is rendered: [100 *] the used
    fraction of the stock consumed, as line 102 computes it. *)
Definition numeric_utilization (x : search_result) : outcome error float :=
  let total := total_stock_used (sr_result x) * stock_length x in
  q <- true_div (total - total_waste (sr_result x)) total ;;
  Ok (mul_int q 100).

(** The order of line 137 on two results: [a] may stand before [b] when
    its rendered utilization is at least that of [b] and, should the two
    be equal, it uses at most as many stock units. *)
Definition ranked_before (a b : search_result) : Prop :=
  exists ua ub,
    rendered_utilization (sr_result a) = Ok ua /\
    rendered_utilization (sr_result b) = Ok ub /\
    PyFloat.leb ub ua = true /\
    (PyFloat.leb ua ub = true ->
     total_stock_used (sr_result a) <= total_stock_used (sr_result b)).

(** The order that the claim describes, on the numeric percentage. *)
Definition ranked_before_numeric (a b : search_result) : Prop :=
  exists ua ub,
    numeric_utilization a = Ok ua /\
    numeric_utilization b = Ok ub /\
    PyFloat.leb ub ua = true /\
    (PyFloat.leb ua ub = true ->
     total_stock_used (sr_result a) <= total_stock_used (sr_result b)).

(** What [cut_demand] can do: leave everything as it is, or cut
    [c = min (floor (rl / length)) quantity > 0] pieces. *)
Inductive cut_spec (d : demand) (rl : Z) (pat : dict) : demand * Z * dict -> Prop :=
| cut_skip :
    d_quantity d <= 0 \/ rl < d_length d \/
    (exists f mp, true_div (E:=error) rl (d_length d) = Ok f /\
                  math_floor (E:=error) f = Ok mp /\
                  Z.min mp (d_quantity d) <= 0) ->
    cut_spec d rl pat (d, rl, pat)
| cut_take f mp :
    0 < d_quantity d -> d_length d <= rl ->
    true_div (E:=error) rl (d_length d) = Ok f ->
    math_floor (E:=error) f = Ok mp ->
    0 < Z.min mp (d_quantity d) ->
    cut_spec d rl pat
      (mkDemand (d_length d) (d_quantity d - Z.min mp (d_quantity d)),
       rl - Z.min mp (d_quantity d) * d_length d,
       dict_set pat (d_length d) (Z.min mp (d_quantity d))).

(** [a] is not after [b]: [b < a] fails on the key tuples. *)
Definition key_le (a b : float * Z) : Prop := key_ltb b a = false.

(** [frame n h h']: the heap may have grown and the objects at the
    locations below [n] are what they were. *)
Definition frame (n : nat) (h h' : Store.heap) : Prop :=
  (List.length h <= List.length h')%nat /\
  forall l, (l < n)%nat -> Store.read h' l = Store.read h l.

(** The locals of a loop state, and outcomes mapped through a function. *)
Definition locals_of (st : state) : Store.locals :=
  Store.mkLocals (st_cutting_plans st) (st_total_stock_used st) (st_total_used_length st).

Definition map_outcome {E A B} (f : A -> B) (o : outcome E A) : outcome E B :=
  match o with
  | Ok a => Ok (f a)
  | Err e => Err e
  | Raise x => Raise x
  end.

(** ** Vocabulary of the further properties *)

(** The sum of [f] over a list. *)
Definition sum_of {A} (f : A -> Z) (l : list A) : Z :=
  fold_right (fun x acc => f x + acc) 0 l.

(** The length still to be cut for a working list, and the length that a
    demand set asks for: the sum of [length * quantity]. *)
Definition open_length (ds : list demand) : Z :=
  sum_of (fun d => d_length d * d_quantity d) ds.

Definition demanded_length (demands : dict) : Z :=
  sum_of (fun kv => fst kv * snd kv) demands.

(** The pieces that a demand set asks for. *)
Definition demanded_pieces (demands : dict) : Z :=
  sum_of (fun kv => Z.max 0 (snd kv)) demands.

(** Invariant of the plan under construction: every pattern is a
    non-empty dict of positive piece counts whose keys descend, every
    entry stands for at least one unit, no two entries have equal
    patterns, and the counters are the sums over the entries. *)
Record plan_inv (stock : Z) (st : state) : Prop := mkPlanInv {
  pi_sorted :
    Forall (fun p => StronglySorted Z.gt (map fst (p_pattern p))) (st_cutting_plans st);
  pi_nonempty : Forall (fun p => p_pattern p <> []) (st_cutting_plans st);
  pi_pieces :
    Forall (fun p => Forall (fun kv => 0 < snd kv) (p_pattern p)) (st_cutting_plans st);
  pi_counts : Forall (fun p => 1 <= p_count p) (st_cutting_plans st);
  pi_distinct :
    ForallOrdPairs (fun a b => dict_eqb a b = false) (map p_pattern (st_cutting_plans st));
  pi_waste :
    Forall (fun p => p_waste p = stock - pattern_length (p_pattern p))
           (st_cutting_plans st);
  pi_units : st_total_stock_used st = sum_of p_count (st_cutting_plans st);
  pi_wasted :
    st_total_stock_used st * stock - st_total_used_length st
    = sum_of (fun p => p_count p * p_waste p) (st_cutting_plans st)
}.

(** The order in which the range visits two results. *)
Definition visited_before (a b : search_result) : Prop :=
  stock_length a < stock_length b.

(** The quantity that a list of [(length, quantity)] entries asks for
    under one length, and whether the list mentions the length. *)
Definition quantity_of (entries : list (Z * Z)) (l : Z) : Z :=
  sum_of (fun p => if fst p =? l then snd p else 0) entries.

Definition mentions (entries : list (Z * Z)) (l : Z) : bool :=
  existsb (fun p => fst p =? l) entries.

(** Entries merged into a dict, one after the other. *)
Definition merge_entries (demands : dict) (entries : list (Z * Z)) : dict :=
  fold_left (fun d p => add_demand d (fst p) (snd p)) entries demands.

(** The entries of the manual input, in the order of the widgets. *)
Definition manual_entries (ui : inputs) : list (Z * Z) :=
  map (fun i => (in_length ui i, in_quantity ui i))
      (seq 0 (Z.to_nat (in_demand_count ui))).

(** A row that the reader accepts: both cells convert and are positive. *)
Definition row_reads (cols : list label) (row : list cell) (p : Z * Z) : Prop :=
  row_ints cols row = Done p /\ 0 < fst p /\ 0 < snd p.

(** The header passes line 21. *)
Definition header_accepted (df : data_frame) : Prop :=
  exists actual_columns,
    stripped_columns (df_columns df) = Done actual_columns /\
    has_required_columns actual_columns = true.

(** What the widgets guarantee: every value is at least its [min_value]
    (the entry widgets are those below the number of entries). *)
Record widgets_valid (ui : inputs) : Prop := mkWidgetsValid {
  wv_stock_length : 100 <= in_stock_length ui;
  wv_demand_count : 1 <= in_demand_count ui;
  wv_length : forall i, Z.of_nat i < in_demand_count ui -> 1 <= in_length ui i;
  wv_quantity : forall i, Z.of_nat i < in_demand_count ui -> 1 <= in_quantity ui i;
  wv_min_length : 100 <= in_min_length ui;
  wv_max_length : 100 <= in_max_length ui;
  wv_step_length : 10 <= in_step_length ui
}.

(** A demand set as both input paths produce it. *)
Definition demands_valid (demands : dict) : Prop :=
  demands <> [] /\ dict_wf demands /\
  forall l q, In (l, q) demands -> 0 < l /\ 0 < q.

(** The widgets at their [value=] defaults, for a chosen number of
    manual entries, calculation mode and state of the start button. *)
Definition default_inputs (demand_count : Z) (m : mode) (start : bool) : inputs :=
  mkInputs 3800 ManualInput None demand_count
           (fun i => if (i =? 0)%nat then 355 else 200)
           (fun i => if (i =? 0)%nat then 10 else 5)
           m start 1000 5000 100 false.

(** [at_most x c]: the finite float [x] has a non-negative mantissa and a
    magnitude of at most the integer [c]. *)
Definition at_most (x : float) (c : Z) : Prop :=
  match x with
  | Fin _ m e => 0 <= m /\ if 0 <=? e then m * 2 ^ e <= c else m <= c * 2 ^ (- e)
  | Inf _ => False
  end.

(** * Supporting lemmas for the optimizer *)

(** ** Facts about the float model *)

Section FloatFacts.

Lemma rne_div_floor_le n d : 0 < d -> n / d <= rne_div n d.
Proof.
  intros Hd. unfold rne_div.
  destruct (2 * (n mod d) <? d); [lia|].
  destruct (d <? 2 * (n mod d)); [lia|].
  destruct (Z.even (n / d)); lia.
Qed.

Lemma rne_div_le_succ n d : 0 < d -> rne_div n d <= n / d + 1.
Proof.
  intros Hd. unfold rne_div.
  destruct (2 * (n mod d) <? d); [lia|].
  destruct (d <? 2 * (n mod d)); [lia|].
  destruct (Z.even (n / d)); lia.
Qed.

Lemma rne_div_up n d : 0 < d -> rne_div n d <> n / d -> d <= 2 * (n mod d).
Proof.
  intros Hd. unfold rne_div.
  destruct (2 * (n mod d) <? d) eqn:E; [lia|].
  apply Z.ltb_ge in E. intros _. exact E.
Qed.

Lemma rne_div_exact n : rne_div n 1 = n.
Proof.
  unfold rne_div. rewrite Z.mod_1_r, Z.div_1_r. reflexivity.
Qed.

(** [ilog2] brackets a quotient that is at least one. *)
Lemma ilog2_spec n d :
  0 < d <= n ->
  0 <= ilog2 n d /\ d * 2 ^ ilog2 n d <= n < d * 2 ^ (ilog2 n d + 1).
Proof.
  intros [Hd Hn]. unfold ilog2.
  assert (Hmono : Z.log2 d <= Z.log2 n) by (apply Z.log2_le_mono; lia).
  destruct (Z.log2_spec n) as [Hn1 Hn2]; [lia|].
  destruct (Z.log2_spec d) as [Hd1 Hd2]; [lia|].
  set (e0 := Z.log2 n - Z.log2 d) in *.
  assert (He0 : 0 <= e0) by (unfold e0; lia).
  assert (Hld : 0 <= Z.log2 d) by apply Z.log2_nonneg.
  assert (Hsplit : 2 ^ Z.log2 n = 2 ^ Z.log2 d * 2 ^ e0).
  { rewrite <- Z.pow_add_r by lia. f_equal. unfold e0. lia. }
  assert (Hsucc : 2 ^ Z.succ (Z.log2 n) = 2 * 2 ^ Z.log2 n) by (apply Z.pow_succ_r; lia).
  assert (Hsuccd : 2 ^ Z.succ (Z.log2 d) = 2 * 2 ^ Z.log2 d) by (apply Z.pow_succ_r; lia).
  assert (Hp0 : 0 < 2 ^ e0) by (apply Z.pow_pos_nonneg; lia).
  unfold scaled. replace (0 <=? e0) with true by (symmetry; apply Z.leb_le; lia).
  destruct (d * 2 ^ e0 <=? n) eqn:E.
  - apply Z.leb_le in E. split; [lia|]. split; [lia|].
    replace (e0 + 1) with (Z.succ e0) by lia. rewrite Z.pow_succ_r by lia. nia.
  - apply Z.leb_gt in E.
    assert (e0 <> 0) by (intros ->; simpl in E; lia).
    split; [lia|]. replace (e0 - 1 + 1) with e0 by lia. split; [|lia].
    assert (H2 : 2 ^ e0 = 2 * 2 ^ (e0 - 1)).
    { replace e0 with (Z.succ (e0 - 1)) at 1 by lia. apply Z.pow_succ_r. lia. }
    nia.
Qed.

End FloatFacts.

Section FloorDivision.

(** The shape of a rounded quotient that is at least one. *)
Lemma round64_ge_one s n d f :
  0 < d <= n -> round64 s n d = Some f ->
  let k := ilog2 n d - 52 in
  f = Fin s (if 0 <=? k then rne_div n (d * 2 ^ k) else rne_div (n * 2 ^ (- k)) d) k.
Proof.
  intros Hnd H k. unfold round64 in H.
  destruct (ilog2_spec n d Hnd) as [He _].
  replace (n =? 0) with false in H by (symmetry; apply Z.eqb_neq; lia).
  replace (Z.max (ilog2 n d - 52) (-1074)) with k in H by (unfold k; lia).
  unfold scaled in H. destruct (0 <=? k) eqn:Ek; cbv beta iota zeta in H.
  - rewrite Bool.andb_true_l in H.
    match type of H with (if ?c then _ else _) = _ => destruct c end;
      [discriminate | now inversion H].
  - rewrite Bool.andb_false_l in H. now inversion H.
Qed.

Lemma true_div_pos (E : Type) a b f :
  0 < b -> 0 <= a -> true_div (E:=E) a b = Ok f -> round64 false a b = Some f.
Proof.
  intros Hb Ha H. unfold true_div in H.
  replace (b =? 0) with false in H by (symmetry; apply Z.eqb_neq; lia).
  replace (a <? 0) with false in H by (symmetry; apply Z.ltb_ge; lia).
  replace (b <? 0) with false in H by (symmetry; apply Z.ltb_ge; lia).
  cbn [xorb] in H. rewrite !Z.abs_eq in H by lia.
  destruct (round64 false a b); [now inversion H | discriminate].
Qed.

(** A piece that fits is cut at least once: the floor of the rounded
    quotient of [a] by [b] is at least one when [0 < b <= a]. *)
Lemma floor_div_ge_one (E : Type) a b f v :
  0 < b <= a -> true_div (E:=E) a b = Ok f -> math_floor (E:=E) f = Ok v -> 1 <= v.
Proof.
  intros Hab Hdiv Hfl.
  apply true_div_pos in Hdiv; [|lia|lia].
  pose proof (round64_ge_one _ _ _ _ Hab Hdiv) as Hf. cbv zeta in Hf.
  destruct (ilog2_spec a b Hab) as [He [Hlo _]].
  set (k := ilog2 a b - 52) in *.
  subst f. cbn [math_floor] in Hfl. inversion Hfl as [Hv]. clear Hfl.
  destruct (0 <=? k) eqn:Ek.
  - apply Z.leb_le in Ek.
    assert (Hp : 0 < 2 ^ k) by (apply Z.pow_pos_nonneg; lia).
    assert (Hle : b * 2 ^ k <= a).
    { assert (2 ^ k <= 2 ^ ilog2 a b) by (apply Z.pow_le_mono_r; lia). nia. }
    assert (1 <= a / (b * 2 ^ k)).
    { apply Z.div_le_lower_bound; nia. }
    pose proof (rne_div_floor_le a (b * 2 ^ k)). nia.
  - apply Z.leb_gt in Ek.
    assert (Hp : 0 < 2 ^ (- k)) by (apply Z.pow_pos_nonneg; lia).
    apply Z.div_le_lower_bound; [lia|].
    pose proof (rne_div_floor_le (a * 2 ^ (- k)) b).
    assert (2 ^ (- k) <= a * 2 ^ (- k) / b).
    { apply Z.div_le_lower_bound; nia. }
    lia.
Qed.

(** Below [2^53] the float detour is exact: [math.floor(a / b) = a // b]. *)
Lemma floor_div_exact (E : Type) a b :
  0 < b <= a -> a < 2 ^ 53 ->
  exists f, true_div (E:=E) a b = Ok f /\ math_floor (E:=E) f = Ok (a / b).
Proof.
  intros Hab Ha.
  destruct (ilog2_spec a b Hab) as [He [Hlo Hhi]].
  assert (He52 : ilog2 a b <= 52).
  { destruct (Z_le_gt_dec (ilog2 a b) 52) as [|Hgt]; [assumption|].
    assert (2 ^ 53 <= 2 ^ ilog2 a b) by (apply Z.pow_le_mono_r; lia).
    nia. }
  assert (Hr : exists f, round64 false a b = Some f).
  { unfold round64.
    replace (a =? 0) with false by (symmetry; apply Z.eqb_neq; lia).
    replace (Z.max (ilog2 a b - 52) (-1074)) with (ilog2 a b - 52) by lia.
    unfold scaled. destruct (0 <=? ilog2 a b - 52) eqn:Ek; cbv beta iota zeta.
    - apply Z.leb_le in Ek. assert (Hk : ilog2 a b - 52 = 0) by lia.
      rewrite Hk. rewrite Z.pow_0_r, !Z.mul_1_r, Bool.andb_true_l.
      assert (b = 1).
      { assert (ilog2 a b = 52) by lia.
        assert (Hx : b * 2 ^ 52 <= a) by congruence. lia. }
      subst b. rewrite rne_div_exact.
      replace (2 ^ 1024 <=? a) with false; [eauto|].
      symmetry. apply Z.leb_gt.
      assert (2 ^ 53 <= 2 ^ 1024) by (apply Z.pow_le_mono_r; lia). lia.
    - rewrite Bool.andb_false_l. eauto. }
  destruct Hr as [f Hf]. exists f. split.
  - unfold true_div.
    replace (b =? 0) with false by (symmetry; apply Z.eqb_neq; lia).
    replace (a <? 0) with false by (symmetry; apply Z.ltb_ge; lia).
    replace (b <? 0) with false by (symmetry; apply Z.ltb_ge; lia).
    cbn [xorb]. rewrite !Z.abs_eq by lia. now rewrite Hf.
  - pose proof (round64_ge_one _ _ _ _ Hab Hf) as Hs. cbv zeta in Hs.
    subst f. cbn [math_floor]. f_equal.
    destruct (0 <=? ilog2 a b - 52) eqn:Ek.
    + apply Z.leb_le in Ek. assert (Hk : ilog2 a b - 52 = 0) by lia.
      rewrite Hk. rewrite Z.pow_0_r, !Z.mul_1_r.
      assert (b = 1).
      { assert (ilog2 a b = 52) by lia.
        assert (Hx : b * 2 ^ 52 <= a) by congruence. lia. }
      subst b. now rewrite rne_div_exact, Z.div_1_r.
    + apply Z.leb_gt in Ek.
      set (K := - (ilog2 a b - 52)) in *.
      assert (HK : 0 < K) by (unfold K; lia).
      assert (Hp : 0 < 2 ^ K) by (apply Z.pow_pos_nonneg; lia).
      assert (Hb : b < 2 * 2 ^ K).
      { assert (Hs : 2 ^ 53 = 2 * 2 ^ K * 2 ^ ilog2 a b).
        { rewrite <- Z.pow_succ_r by lia. rewrite <- Z.pow_add_r by lia.
          f_equal. unfold K. lia. }
        assert (0 < 2 ^ ilog2 a b) by (apply Z.pow_pos_nonneg; lia).
        nia. }
      set (m := rne_div (a * 2 ^ K) b).
      pose proof (rne_div_floor_le (a * 2 ^ K) b ltac:(lia)) as Hm1.
      pose proof (rne_div_le_succ (a * 2 ^ K) b ltac:(lia)) as Hm2.
      pose proof (rne_div_up (a * 2 ^ K) b ltac:(lia)) as Hm3.
      fold m in Hm1, Hm2, Hm3.
      pose proof (Z.div_mod a b ltac:(lia)) as Hab'.
      pose proof (Z.mod_pos_bound a b ltac:(lia)) as Hr.
      pose proof (Z.div_mod (a * 2 ^ K) b ltac:(lia)) as HN.
      pose proof (Z.mod_pos_bound (a * 2 ^ K) b ltac:(lia)) as HNr.
      set (Q := a / b) in *. set (r := a mod b) in *.
      set (F := a * 2 ^ K / b) in *. set (R := (a * 2 ^ K) mod b) in *.
      assert (HQ : 0 <= Q) by (apply Z.div_pos; lia).
      assert (HFlo : Q * 2 ^ K <= F).
      { apply Z.div_le_lower_bound; [lia|]. nia. }
      assert (HFhi : F < (Q + 1) * 2 ^ K).
      { apply Z.div_lt_upper_bound; [lia|]. nia. }
      assert (Hmhi : m < (Q + 1) * 2 ^ K).
      { destruct (Z.eq_dec m F) as [->|Hne]; [assumption|].
        specialize (Hm3 Hne). assert (m = F + 1) by lia.
        destruct (Z_lt_ge_dec (F + 1) ((Q + 1) * 2 ^ K)) as [|Hge]; [lia|].
        assert (HF : F = (Q + 1) * 2 ^ K - 1) by lia.
        assert (HR : R = b - (b - r) * 2 ^ K) by nia.
        assert ((b - r) * (2 * 2 ^ K) <= b) by nia.
        assert (1 * (2 * 2 ^ K) <= (b - r) * (2 * 2 ^ K)).
        { apply Z.mul_le_mono_nonneg_r; lia. }
        lia. }
      symmetry. apply Z.div_unique with (r := m - Q * 2 ^ K); [lia|].
      fold m. nia.
Qed.

End FloorDivision.

Arguments true_div : simpl never.
Arguments math_floor : simpl never.
Arguments mul_int : simpl never.
Arguments round64 : simpl never.
Arguments format_2f : simpl never.
Arguments str_int : simpl never.
Arguments digit : simpl never.
Arguments two_digits : simpl never.
Arguments hundredths : simpl never.

(** ** One working record (lines 68-77) *)

Lemma cut_demand_spec d rl pat r :
  cut_demand d rl pat = Ok r -> cut_spec d rl pat r.
Proof.
  unfold cut_demand. intros H.
  destruct (d_quantity d <=? 0) eqn:Eq.
  { simpl in H. inversion H. apply cut_skip. left. now apply Z.leb_le. }
  destruct (rl <? d_length d) eqn:El.
  { simpl in H. inversion H. apply cut_skip. right; left. now apply Z.ltb_lt. }
  simpl in H. apply Z.leb_gt in Eq. apply Z.ltb_ge in El.
  destruct (true_div rl (d_length d)) as [f| |] eqn:Ed; simpl in H; try discriminate.
  destruct (math_floor f) as [mp| |] eqn:Ef; simpl in H; try discriminate.
  destruct (0 <? Z.min mp (d_quantity d)) eqn:Ec; inversion H.
  - apply Z.ltb_lt in Ec. now apply cut_take with (f := f).
  - apply Z.ltb_ge in Ec. apply cut_skip. right; right. eauto.
Qed.

Lemma fill_unit_cons d ds rl pat ds' rl' pat' :
  fill_unit (d :: ds) rl pat = Ok (ds', rl', pat') ->
  exists d1 rl1 pat1 ds1,
    cut_demand d rl pat = Ok (d1, rl1, pat1) /\
    fill_unit ds rl1 pat1 = Ok (ds1, rl', pat') /\
    ds' = d1 :: ds1.
Proof.
  simpl. intros H.
  destruct (cut_demand d rl pat) as [[[d1 rl1] pat1]| |]; simpl in H; try discriminate.
  destruct (fill_unit ds rl1 pat1) as [[[ds1 rl2] pat2]| |] eqn:E; simpl in H; try discriminate.
  inversion H; subst. exists d1, rl1, pat1, ds1. auto.
Qed.

Ltac fill_cons H :=
  let d1 := fresh "d1" in let rl1 := fresh "rl1" in
  let pat1 := fresh "pat1" in let ds1 := fresh "ds1" in
  let Hc := fresh "Hcut" in let Hf := fresh "Hfill" in
  apply fill_unit_cons in H;
  destruct H as (d1 & rl1 & pat1 & ds1 & Hc & Hf & ->);
  apply cut_demand_spec in Hc.

(** ** Dictionary facts *)

Lemma dict_set_nonempty pat k v : dict_set pat k v <> [].
Proof.
  destruct pat as [|[k' v'] pat]; simpl; [discriminate|].
  destruct (k' =? k); discriminate.
Qed.

Lemma dict_get_None_keys d k : dict_get d k = None <-> ~ In k (map fst d).
Proof.
  induction d as [|[k' v] d IH]; simpl.
  - tauto.
  - destruct (k' =? k) eqn:E.
    + apply Z.eqb_eq in E. split; [discriminate|]. intros H. exfalso. apply H. now left.
    + apply Z.eqb_neq in E. rewrite IH. tauto.
Qed.

Lemma dict_get_In d k v : dict_get d k = Some v -> In (k, v) d.
Proof.
  induction d as [|[k' v'] d IH]; simpl; [discriminate|].
  destruct (k' =? k) eqn:E.
  - apply Z.eqb_eq in E. intros H. inversion H. subst. now left.
  - intros H. right. auto.
Qed.

Lemma dict_set_fresh pat k v :
  dict_get pat k = None -> dict_set pat k v = pat ++ [(k, v)].
Proof.
  induction pat as [|[k' v'] pat IH]; simpl; [reflexivity|].
  destruct (k' =? k); [discriminate|]. intros H. now rewrite IH.
Qed.

Lemma dict_get_set pat k v k' :
  dict_get (dict_set pat k v) k' = if k =? k' then Some v else dict_get pat k'.
Proof.
  induction pat as [|[k0 v0] pat IH]; simpl.
  - reflexivity.
  - destruct (k0 =? k) eqn:E0; simpl.
    + apply Z.eqb_eq in E0. subst. destruct (k =? k'); reflexivity.
    + destruct (k0 =? k') eqn:E1.
      * apply Z.eqb_eq in E1. apply Z.eqb_neq in E0. subst.
        replace (k =? k') with false by (symmetry; apply Z.eqb_neq; congruence).
        reflexivity.
      * apply IH.
Qed.

Lemma dict_set_keys pat k v :
  map fst (dict_set pat k v) =
  if existsb (Z.eqb k) (map fst pat) then map fst pat else map fst pat ++ [k].
Proof.
  induction pat as [|[k0 v0] pat IH]; simpl; [reflexivity|].
  destruct (k0 =? k) eqn:E; simpl.
  - rewrite Z.eqb_sym, E. reflexivity.
  - rewrite Z.eqb_sym, E. simpl. rewrite IH.
    destruct (existsb (Z.eqb k) (map fst pat)); reflexivity.
Qed.

Lemma dict_set_wf pat k v : dict_wf pat -> dict_wf (dict_set pat k v).
Proof.
  unfold dict_wf. intros H. rewrite dict_set_keys.
  destruct (existsb (Z.eqb k) (map fst pat)) eqn:E; [assumption|].
  apply NoDup_app; [assumption | constructor; [simpl; tauto | constructor] |].
  intros x Hx [Hk|[]]. subst x.
  assert (existsb (Z.eqb k) (map fst pat) = true); [|congruence].
  apply existsb_exists. exists k. split; [assumption | apply Z.eqb_refl].
Qed.

(** Dict equality decides equality of all lookups. *)
Lemma dict_eqb_get a b :
  dict_wf a -> dict_wf b -> dict_eqb a b = true -> forall k, dict_get a k = dict_get b k.
Proof.
  intros Ha Hb H k. unfold dict_eqb in H.
  apply andb_true_iff in H. destruct H as [Hlen Hall].
  apply Nat.eqb_eq in Hlen. rewrite forallb_forall in Hall.
  assert (Hsub : forall k v, In (k, v) a -> dict_get b k = Some v).
  { intros k0 v0 Hin. specialize (Hall _ Hin). simpl in Hall.
    destruct (dict_get b k0) as [v1|]; [|discriminate].
    apply Z.eqb_eq in Hall. now subst. }
  destruct (dict_get a k) as [v|] eqn:Eg.
  - symmetry. apply Hsub. now apply dict_get_In.
  - destruct (dict_get b k) as [v'|] eqn:Eb; [|reflexivity].
    exfalso. apply dict_get_None_keys in Eg. apply Eg.
    assert (Hincl : incl (map fst a) (map fst b)).
    { intros x Hx. apply in_map_iff in Hx. destruct Hx as [[k0 v0] [<- Hin]].
      simpl. apply Hsub in Hin. apply dict_get_In in Hin.
      change k0 with (fst (k0, v0)). now apply in_map. }
    apply (NoDup_length_incl Ha) in Hincl.
    + apply Hincl. apply dict_get_In in Eb.
      change k with (fst (k, v')). now apply in_map.
    + rewrite !length_map. lia.
Qed.

(** ** The [for] loop over the working list (lines 67-77) *)

Lemma fill_unit_lengths ds : forall rl pat ds' rl' pat',
  fill_unit ds rl pat = Ok (ds', rl', pat') ->
  map d_length ds' = map d_length ds.
Proof.
  induction ds as [|d ds IH]; intros rl pat ds' rl' pat' H.
  - simpl in H. now inversion H.
  - fill_cons H. simpl. f_equal.
    + inversion Hcut; subst d1 rl1 pat1; reflexivity.
    + eapply IH; eassumption.
Qed.

Lemma open_quantity_nonneg ds : 0 <= open_quantity ds.
Proof. induction ds; simpl; lia. Qed.

(** The variant never grows, and it shrinks as soon as the pattern changes. *)
Lemma fill_unit_progress ds : forall rl pat ds' rl' pat',
  fill_unit ds rl pat = Ok (ds', rl', pat') ->
  open_quantity ds' <= open_quantity ds /\
  (pat' = pat \/ (open_quantity ds' < open_quantity ds /\ pat' <> [])).
Proof.
  induction ds as [|d ds IH]; intros rl pat ds' rl' pat' H.
  - simpl in H. inversion H. subst. simpl. split; [lia | now left].
  - fill_cons H. destruct (IH _ _ _ _ _ Hfill) as [Hle Hor].
    inversion Hcut; subst d1 rl1 pat1; simpl.
    + split; [lia|]. destruct Hor as [->|[Hlt Hne]]; [now left | right; split; [lia|assumption]].
    + split; [lia|]. right. split; [lia|].
      destruct Hor as [->|[_ Hne]]; [apply dict_set_nonempty | assumption].
Qed.

Lemma fill_unit_nonneg ds : forall rl pat ds' rl' pat',
  fill_unit ds rl pat = Ok (ds', rl', pat') ->
  Forall (fun d => 0 <= d_quantity d) ds ->
  Forall (fun d => 0 <= d_quantity d) ds'.
Proof.
  induction ds as [|d ds IH]; intros rl pat ds' rl' pat' H Hall.
  - simpl in H. now inversion H.
  - fill_cons H. inversion Hall; subst. constructor.
    + inversion Hcut; subst d1 rl1 pat1; simpl; lia.
    + eapply IH; eassumption.
Qed.

(** Under the claims' preconditions a unit always receives a piece. *)
Lemma fill_unit_nonempty ds : forall rl pat ds' rl' pat',
  fill_unit ds rl pat = Ok (ds', rl', pat') ->
  Forall (fun d => 0 < d_length d <= rl) ds ->
  any_remaining ds = true ->
  pat' <> [].
Proof.
  induction ds as [|d ds IH]; intros rl pat ds' rl' pat' H Hall Hany.
  - discriminate.
  - fill_cons H. inversion Hall as [|? ? Hd Hds]; subst.
    inversion Hcut as [Hskip|f mp Hq Hl Hdiv Hfl Hc]; subst d1 rl1 pat1.
    + destruct Hskip as [Hq|[Hl|(f & mp & Hdiv & Hfl & Hc)]].
      * eapply IH; [eassumption | assumption |].
        simpl in Hany. apply orb_true_iff in Hany. destruct Hany as [Hany|Hany]; [|assumption].
        apply Z.ltb_lt in Hany. lia.
      * lia.
      * pose proof (floor_div_ge_one _ _ _ _ _ Hd Hdiv Hfl).
        destruct (Z_le_gt_dec (d_quantity d) 0) as [Hq|Hq]; [|lia].
        eapply IH; [eassumption | assumption |].
        simpl in Hany. apply orb_true_iff in Hany. destruct Hany as [Hany|Hany]; [|assumption].
        apply Z.ltb_lt in Hany. lia.
    + destruct (fill_unit_progress _ _ _ _ _ _ Hfill) as [_ [->|[_ Hne]]];
        [apply dict_set_nonempty | assumption].
Qed.

Lemma pattern_length_app a b : pattern_length (a ++ b) = pattern_length a + pattern_length b.
Proof. induction a as [|kv a IH]; simpl; [reflexivity | rewrite IH; lia]. Qed.

(** Bookkeeping of one unit, for a working list with distinct lengths
    none of which is in the pattern yet: what leaves the open quantities
    enters the pattern, and the pattern's length leaves the stock. *)
Lemma fill_unit_conserve ds : forall rl pat ds' rl' pat',
  fill_unit ds rl pat = Ok (ds', rl', pat') ->
  NoDup (map d_length ds) ->
  (forall d, In d ds -> dict_get pat (d_length d) = None) ->
  dict_wf pat ->
  dict_wf pat' /\
  rl' + pattern_length pat' = rl + pattern_length pat /\
  (forall l, ~ In l (map d_length ds) -> dict_get pat' l = dict_get pat l) /\
  (forall l, open_of ds' l + match dict_get pat' l with Some c => c | None => 0 end =
             open_of ds l + match dict_get pat l with Some c => c | None => 0 end).
Proof.
  induction ds as [|d ds IH]; intros rl pat ds' rl' pat' H Hnd Hfresh Hwf.
  - simpl in H. inversion H. subst. auto.
  - fill_cons H. inversion Hnd as [|? ? Hnot Hnd']; subst. 
    assert (Hget : dict_get pat (d_length d) = None) by (apply Hfresh; now left).
    assert (Hfresh1 : forall d0, In d0 ds -> dict_get pat1 (d_length d0) = None).
    { intros d0 Hin. inversion Hcut; subst d1 rl1 pat1.
      - apply Hfresh. now right.
      - rewrite dict_get_set.
        destruct (d_length d =? d_length d0) eqn:E.
        + apply Z.eqb_eq in E. exfalso. apply Hnot. rewrite E. now apply in_map.
        + apply Hfresh. now right. }
    assert (Hwf1 : dict_wf pat1).
    { inversion Hcut; subst d1 rl1 pat1; [assumption | now apply dict_set_wf]. }
    destruct (IH _ _ _ _ _ Hfill Hnd' Hfresh1 Hwf1) as (Hwf' & Hlen & Hout & Hsum).
    split; [assumption|].
    assert (Hhead : dict_get pat' (d_length d) = dict_get pat1 (d_length d))
      by (apply Hout; assumption).
    inversion Hcut; subst d1 rl1 pat1.
    + split; [lia|]. split.
      * intros l Hl. apply Hout. simpl in Hl. tauto.
      * intros l. simpl. specialize (Hsum l). lia.
    + split.
      * rewrite Hlen. rewrite dict_set_fresh by assumption.
        rewrite pattern_length_app. simpl. lia.
      * split.
        -- intros l Hl. simpl in Hl. rewrite Hout by tauto.
           rewrite dict_get_set.
           destruct (d_length d =? l) eqn:E; [|reflexivity].
           apply Z.eqb_eq in E. tauto.
        -- intros l. simpl. specialize (Hsum l).
           rewrite dict_get_set in Hsum.
           destruct (d_length d =? l) eqn:E.
           ++ apply Z.eqb_eq in E. subst l. rewrite Hget. lia.
           ++ lia.
Qed.

(** Below [2^53] no division fails and no cut exceeds what is left. *)
Lemma cut_demand_bounded d rl pat :
  0 < d_length d -> 0 <= rl < 2 ^ 53 ->
  exists d1 rl1 pat1, cut_demand d rl pat = Ok (d1, rl1, pat1) /\ 0 <= rl1 <= rl.
Proof.
  intros Hl Hrl. unfold cut_demand.
  destruct (d_quantity d <=? 0) eqn:Eq; [simpl; eexists _, _, _; split; [reflexivity|lia]|].
  destruct (rl <? d_length d) eqn:El; [simpl; eexists _, _, _; split; [reflexivity|lia]|].
  simpl. apply Z.ltb_ge in El.
  destruct (floor_div_exact error rl (d_length d)) as (f & Hdiv & Hfl); [lia|lia|].
  rewrite Hdiv. simpl. rewrite Hfl. simpl.
  destruct (0 <? Z.min (rl / d_length d) (d_quantity d)) eqn:Ec;
    eexists _, _, _; (split; [reflexivity|]); [|lia].
  apply Z.ltb_lt in Ec.
  pose proof (Z.mul_div_le rl (d_length d) Hl).
  assert (Z.min (rl / d_length d) (d_quantity d) * d_length d <= rl / d_length d * d_length d).
  { apply Z.mul_le_mono_nonneg_r; lia. }
  nia.
Qed.

Lemma fill_unit_bounded ds : forall rl pat,
  Forall (fun d => 0 < d_length d) ds -> 0 <= rl < 2 ^ 53 ->
  exists ds' rl' pat', fill_unit ds rl pat = Ok (ds', rl', pat') /\ 0 <= rl' <= rl.
Proof.
  induction ds as [|d ds IH]; intros rl pat Hall Hrl.
  - simpl. eexists _, _, _. split; [reflexivity | lia].
  - inversion Hall as [|? ? Hd Hds]; subst.
    destruct (cut_demand_bounded d rl pat Hd Hrl) as (d1 & rl1 & pat1 & Hc & Hb).
    destruct (IH rl1 pat1 Hds ltac:(lia)) as (ds' & rl' & pat' & Hf & Hb').
    simpl. rewrite Hc. simpl. rewrite Hf. simpl.
    eexists _, _, _. split; [reflexivity | lia].
Qed.

(** ** One stock unit (lines 64-100) *)

Lemma cut_one_stock_inv stock st st' :
  cut_one_stock stock st = Ok st' ->
  exists ds rl pat q,
    fill_unit (st_demand_list st) stock [] = Ok (ds, rl, pat) /\
    pat <> [] /\
    true_div (E:=error) (stock - rl) stock = Ok q /\
    st' = mkState ds (record_pattern (st_cutting_plans st) pat (mul_int q 100) rl)
                  (st_total_stock_used st + 1)
                  (st_total_used_length st + (stock - rl)).
Proof.
  unfold cut_one_stock. intros H.
  destruct (fill_unit (st_demand_list st) stock []) as [[[ds rl] pat]| |] eqn:Ef;
    simpl in H; try discriminate.
  destruct pat as [|kv pat]; [discriminate|].
  destruct (true_div (stock - rl) stock) as [q| |] eqn:Ed; simpl in H; try discriminate.
  inversion H. exists ds, rl, (kv :: pat), q. repeat split; try assumption. discriminate.
Qed.

(** Every completed iteration lowers the variant by at least one. *)
Lemma cut_one_stock_decreases stock st st' :
  cut_one_stock stock st = Ok st' ->
  open_quantity (st_demand_list st') + 1 <= open_quantity (st_demand_list st).
Proof.
  intros H. apply cut_one_stock_inv in H.
  destruct H as (ds & rl & pat & q & Hf & Hne & _ & ->). simpl.
  destruct (fill_unit_progress _ _ _ _ _ _ Hf) as [_ [->|[Hlt _]]]; [congruence | lia].
Qed.

(** ** The [while] loop (lines 63-100) *)

(** The loop never runs out of fuel when given the variant as fuel. *)
Lemma greedy_loop_total stock : forall fuel st,
  open_quantity (st_demand_list st) <= Z.of_nat fuel ->
  exists o, greedy_loop fuel stock st = Some o.
Proof.
  induction fuel as [|fuel IH]; intros st Hfuel.
  - simpl. destruct (any_remaining (st_demand_list st)) eqn:Ea; [|eauto].
    exfalso. unfold any_remaining in Ea. apply existsb_exists in Ea.
    destruct Ea as (d & Hin & Hq). apply Z.ltb_lt in Hq.
    assert (Hpos : 0 < open_quantity (st_demand_list st)); [|simpl in Hfuel; lia].
    clear Hfuel. induction (st_demand_list st) as [|d0 l IHl]; [contradiction|].
    simpl. pose proof (open_quantity_nonneg l).
    destruct Hin as [->|Hin]; [lia | specialize (IHl Hin); lia].
  - simpl. destruct (any_remaining (st_demand_list st)); [|eauto].
    destruct (cut_one_stock stock st) as [st'| |] eqn:Ec; [|eauto|eauto].
    apply IH. apply cut_one_stock_decreases in Ec. lia.
Qed.

(** Invariant rule for the loop. *)
Lemma greedy_loop_invariant (P : state -> Prop) stock :
  (forall st st', P st -> any_remaining (st_demand_list st) = true ->
                  cut_one_stock stock st = Ok st' -> P st') ->
  forall fuel st st',
    P st -> greedy_loop fuel stock st = Some (Ok st') ->
    P st' /\ any_remaining (st_demand_list st') = false.
Proof.
  intros Hstep. induction fuel as [|fuel IH]; intros st st' HP H; simpl in H.
  - destruct (any_remaining (st_demand_list st)) eqn:Ea; [discriminate|].
    inversion H. subst. auto.
  - destruct (any_remaining (st_demand_list st)) eqn:Ea.
    + destruct (cut_one_stock stock st) as [st1| |] eqn:Ec; try discriminate.
      apply (IH st1); [|assumption]. eapply Hstep; eassumption.
    + inversion H. subst. auto.
Qed.

(** When no iteration can fail from a state satisfying [P], the loop
    returns normally. *)
Lemma greedy_loop_succeeds (P : state -> Prop) stock :
  (forall st, P st -> any_remaining (st_demand_list st) = true ->
              exists st', cut_one_stock stock st = Ok st' /\ P st') ->
  forall fuel st,
    P st -> open_quantity (st_demand_list st) <= Z.of_nat fuel ->
    exists st', greedy_loop fuel stock st = Some (Ok st').
Proof.
  intros Hstep. induction fuel as [|fuel IH]; intros st HP Hfuel.
  - destruct (greedy_loop_total stock 0 st Hfuel) as [o Ho].
    simpl in *. destruct (any_remaining (st_demand_list st)); [discriminate|eauto].
  - simpl. destruct (any_remaining (st_demand_list st)) eqn:Ea; [|eauto].
    destruct (Hstep st HP Ea) as (st1 & Hc & HP1). rewrite Hc.
    apply IH; [assumption|]. apply cut_one_stock_decreases in Hc. lia.
Qed.

(** ** The stable sort *)

Section SortFacts.
Context {A K : Type} (lt : K -> K -> bool) (key : A -> K).

Lemma insert_by_perm x l : Permutation (insert_by lt key x l) (x :: l).
Proof.
  induction l as [|y l IH]; simpl; [reflexivity|].
  destruct (lt (key y) (key x)); [|reflexivity].
  rewrite IH. apply perm_swap.
Qed.

Lemma sort_by_perm l : Permutation (sort_by lt key l) l.
Proof.
  induction l as [|x l IH]; simpl; [reflexivity|].
  rewrite insert_by_perm. now constructor.
Qed.
End SortFacts.

Lemma open_of_perm l ds ds' : Permutation ds ds' -> open_of ds l = open_of ds' l.
Proof. induction 1; simpl; lia. Qed.

(** ** The working list (lines 55-57) *)

Lemma make_demand_list_perm demands :
  Permutation (make_demand_list demands)
              (map (fun kv => mkDemand (fst kv) (snd kv)) demands).
Proof. apply sort_by_perm. Qed.

Lemma make_demand_list_lengths demands :
  Permutation (map d_length (make_demand_list demands)) (map fst demands).
Proof.
  rewrite (Permutation_map d_length (make_demand_list_perm demands)).
  rewrite map_map. simpl. reflexivity.
Qed.

Lemma make_demand_list_nodup demands :
  dict_wf demands -> NoDup (map d_length (make_demand_list demands)).
Proof.
  intros H. eapply Permutation_NoDup; [|exact H].
  symmetry. apply make_demand_list_lengths.
Qed.

Lemma make_demand_list_Forall (P : Z -> Z -> Prop) demands :
  (forall l q, In (l, q) demands -> P l q) ->
  Forall (fun d => P (d_length d) (d_quantity d)) (make_demand_list demands).
Proof.
  intros H. eapply Permutation_Forall; [symmetry; apply make_demand_list_perm|].
  apply Forall_forall. intros d Hd. apply in_map_iff in Hd.
  destruct Hd as [[l q] [<- Hin]]. simpl. auto.
Qed.

Lemma open_of_requested demands l q :
  dict_wf demands -> In (l, q) demands -> open_of (make_demand_list demands) l = q.
Proof.
  intros Hwf Hin. rewrite (open_of_perm l _ _ (make_demand_list_perm demands)).
  unfold dict_wf in Hwf. induction demands as [|[k v] demands IH]; [contradiction|].
  simpl in *. inversion Hwf as [|? ? Hnot Hnd]; subst.
  assert (Hzero : forall ds, ~ In l (map fst ds) ->
            open_of (map (fun kv => mkDemand (fst kv) (snd kv)) ds) l = 0).
  { induction ds as [|[k0 v0] ds IHds]; simpl; [reflexivity|]. intros Hn.
    destruct (k0 =? l) eqn:E; [apply Z.eqb_eq in E; tauto|].
    rewrite IHds; tauto. }
  destruct Hin as [Heq|Hin].
  - inversion Heq; subst. rewrite Z.eqb_refl, Hzero by assumption. lia.
  - destruct (k =? l) eqn:E.
    + apply Z.eqb_eq in E. subst. exfalso. apply Hnot.
      change l with (fst (l, q)). now apply in_map.
    + rewrite IH by assumption. lia.
Qed.

(** ** Recording a pattern (lines 85-97) *)

Lemma record_pattern_Forall (Q : plan -> Prop) plans pat u w :
  (forall p, Q p -> Q (mkPlan (p_pattern p) (p_count p + 1) (p_utilization p) (p_waste p))) ->
  Forall Q plans -> Q (mkPlan pat 1 u w) ->
  Forall Q (record_pattern plans pat u w).
Proof.
  intros Hinc Hall Hnew. unfold record_pattern.
  destruct (bump_existing plans pat) as [plans'|] eqn:Eb.
  - revert plans' Eb. induction Hall as [|p ps Hp Hps IH]; intros plans' Eb; simpl in Eb.
    + discriminate.
    + destruct (dict_eqb (p_pattern p) pat).
      * inversion Eb. constructor; auto.
      * destruct (bump_existing ps pat) as [ps'|]; [|discriminate].
        inversion Eb. constructor; auto.
  - apply Forall_app. split; [assumption | constructor; [assumption | constructor]].
Qed.

Lemma pieces_cut_app a b l : pieces_cut (a ++ b) l = pieces_cut a l + pieces_cut b l.
Proof. induction a as [|p a IH]; simpl; [reflexivity | rewrite IH; lia]. Qed.

(** Recording a pattern adds exactly its counts to the plan. *)
Lemma record_pattern_pieces plans pat u w l :
  Forall (fun p => dict_wf (p_pattern p)) plans -> dict_wf pat ->
  pieces_cut (record_pattern plans pat u w) l =
  pieces_cut plans l + match dict_get pat l with Some c => c | None => 0 end.
Proof.
  intros Hall Hwf. unfold record_pattern.
  destruct (bump_existing plans pat) as [plans'|] eqn:Eb.
  - revert plans' Eb. induction Hall as [|p ps Hp Hps IH]; intros plans' Eb; simpl in Eb.
    + discriminate.
    + destruct (dict_eqb (p_pattern p) pat) eqn:Ee.
      * inversion Eb. simpl.
        rewrite (dict_eqb_get _ _ Hp Hwf Ee l).
        destruct (dict_get pat l); lia.
      * destruct (bump_existing ps pat) as [ps'|]; [|discriminate].
        inversion Eb. simpl. rewrite (IH ps' eq_refl). lia.
  - rewrite pieces_cut_app. unfold pieces_cut at 2.
    cbn [fold_right p_pattern p_count]. destruct (dict_get pat l); lia.
Qed.

(** ** Invariants of the loop *)

Lemma total_remaining_open ds :
  Forall (fun d => 0 <= d_quantity d) ds -> open_quantity ds = total_remaining ds.
Proof. induction 1; simpl; lia. Qed.

Lemma none_remaining_zero ds :
  Forall (fun d => 0 <= d_quantity d) ds -> any_remaining ds = false ->
  Forall (fun d => d_quantity d = 0) ds.
Proof.
  induction 1 as [|d ds Hd Hds IH]; intros Hany; [constructor|].
  simpl in Hany. apply orb_false_iff in Hany. destruct Hany as [Hq Hany].
  apply Z.ltb_ge in Hq. constructor; [lia | auto].
Qed.

Lemma open_of_zero ds l : Forall (fun d => d_quantity d = 0) ds -> open_of ds l = 0.
Proof.
  induction 1 as [|d ds Hd Hds IH]; simpl; [reflexivity|].
  destruct (d_length d =? l); lia.
Qed.

Lemma run_inv_init stock ds0 :
  Forall (fun d => 0 <= d_quantity d) ds0 -> run_inv stock ds0 (mkState ds0 [] 0 0).
Proof.
  intros H. constructor; simpl; auto; try (intros; lia).
  split; [lia | reflexivity].
Qed.

Lemma run_inv_step stock ds0 st st' :
  NoDup (map d_length ds0) ->
  run_inv stock ds0 st -> cut_one_stock stock st = Ok st' -> run_inv stock ds0 st'.
Proof.
  intros Hnd [Hlen Hnn Hwf Hcons Hwaste Hused] Hc.
  apply cut_one_stock_inv in Hc. destruct Hc as (ds & rl & pat & q & Hf & Hne & Hq & ->).
  assert (Hnd' : NoDup (map d_length (st_demand_list st))) by now rewrite Hlen.
  destruct (fill_unit_conserve _ _ _ _ _ _ Hf Hnd' (fun _ _ => eq_refl) (NoDup_nil _))
    as (Hpw & Hrl & _ & Hsum).
  simpl in Hrl. constructor; simpl.
  - rewrite (fill_unit_lengths _ _ _ _ _ _ Hf). assumption.
  - eapply fill_unit_nonneg; eassumption.
  - apply record_pattern_Forall; auto.
  - intros l. rewrite record_pattern_pieces by assumption.
    specialize (Hsum l). specialize (Hcons l). simpl in Hsum. lia.
  - apply record_pattern_Forall; auto. simpl. lia.
  - split; [lia|]. lia.
Qed.

Lemma util_inv_step stock st st' :
  util_inv stock st -> cut_one_stock stock st = Ok st' -> util_inv stock st'.
Proof.
  unfold util_inv. intros Hu Hc.
  apply cut_one_stock_inv in Hc. destruct Hc as (ds & rl & pat & q & Hf & Hne & Hq & ->).
  simpl. apply record_pattern_Forall; auto. simpl. eauto.
Qed.

Lemma fit_inv_step stock st st' :
  0 < stock < 2 ^ 53 ->
  Forall (fun d => 0 < d_length d) (st_demand_list st) ->
  fit_inv stock st -> cut_one_stock stock st = Ok st' -> fit_inv stock st'.
Proof.
  intros Hs Hpos [Hw Hu] Hc.
  apply cut_one_stock_inv in Hc. destruct Hc as (ds & rl & pat & q & Hf & Hne & Hq & ->).
  destruct (fill_unit_bounded _ stock [] Hpos ltac:(lia)) as (ds1 & rl1 & pat1 & Hf1 & Hb).
  rewrite Hf in Hf1. inversion Hf1; subst ds1 rl1 pat1.
  constructor; simpl.
  - apply record_pattern_Forall; auto. simpl. lia.
  - nia.
Qed.

Lemma reachable_inv (P : state -> Prop) stock ds0 :
  P (mkState ds0 [] 0 0) ->
  (forall st st', P st -> any_remaining (st_demand_list st) = true ->
                  cut_one_stock stock st = Ok st' -> P st') ->
  forall st, reachable stock ds0 st -> P st.
Proof. intros H0 Hstep st Hr. induction Hr; eauto. Qed.

(** A quotient of at most one never overflows. *)
Lemma true_div_fraction a b :
  0 <= a <= b -> 0 < b -> exists q, true_div (E:=error) a b = Ok q.
Proof.
  intros Ha Hb. unfold true_div.
  replace (b =? 0) with false by (symmetry; apply Z.eqb_neq; lia).
  rewrite !Z.abs_eq by lia. unfold round64.
  destruct (a =? 0) eqn:Ea; [eauto|]. apply Z.eqb_neq in Ea.
  assert (He : ilog2 a b <= 0).
  { unfold ilog2.
    assert (Z.log2 a <= Z.log2 b) by (apply Z.log2_le_mono; lia).
    destruct (scaled a b (Z.log2 a - Z.log2 b)) as [n' d'].
    destruct (d' <=? n'); lia. }
  assert (Hk : (0 <=? Z.max (ilog2 a b - 52) (-1074)) = false) by (apply Z.leb_gt; lia).
  destruct (scaled a b (Z.max (ilog2 a b - 52) (-1074))) as [n' d'].
  rewrite Hk, Bool.andb_false_l. eauto.
Qed.

(** ** Outcomes that cannot occur *)

Lemma true_div_not_err a b (e : error) : true_div a b <> Err e.
Proof.
  unfold true_div. destruct (b =? 0); [discriminate|].
  destruct (round64 _ _ _); discriminate.
Qed.

Lemma math_floor_not_err x (e : error) : math_floor x <> Err e.
Proof. destruct x; discriminate. Qed.

Lemma cut_demand_not_err d rl pat e : cut_demand d rl pat <> Err e.
Proof.
  unfold cut_demand.
  destruct (_ || _); [discriminate|].
  destruct (true_div rl (d_length d)) as [f| |] eqn:Ed; simpl; try discriminate.
  - destruct (math_floor f) as [mp| |] eqn:Ef; simpl; try discriminate.
    + destruct (0 <? _); discriminate.
    + intros H. inversion H. subst. now apply math_floor_not_err in Ef.
  - intros H. inversion H. subst. now apply true_div_not_err in Ed.
Qed.

Lemma fill_unit_not_err ds : forall rl pat e, fill_unit ds rl pat <> Err e.
Proof.
  induction ds as [|d ds IH]; intros rl pat e; simpl; [discriminate|].
  destruct (cut_demand d rl pat) as [[[d1 rl1] pat1]| |] eqn:Ec; simpl; try discriminate.
  - destruct (fill_unit ds rl1 pat1) as [[[ds1 rl2] pat2]| |] eqn:Ef; simpl; try discriminate.
    intros H. inversion H. subst. now apply IH in Ef.
  - intros H. inversion H. subst. now apply cut_demand_not_err in Ec.
Qed.

(** The only error of an iteration is the empty pattern. *)
Lemma cut_one_stock_err stock st e :
  cut_one_stock stock st = Err e ->
  exists ds rl, fill_unit (st_demand_list st) stock [] = Ok (ds, rl, []).
Proof.
  unfold cut_one_stock. intros H.
  destruct (fill_unit (st_demand_list st) stock []) as [[[ds rl] pat]| |] eqn:Ef;
    simpl in H; try discriminate.
  - destruct pat as [|kv pat]; [eauto|].
    destruct (true_div (stock - rl) stock) as [q| |] eqn:Ed; simpl in H; try discriminate.
    inversion H. subst. now apply true_div_not_err in Ed.
  - inversion H. subst. now apply fill_unit_not_err in Ef.
Qed.

Lemma format_result_not_err stock st e : format_result stock st <> Err e.
Proof.
  unfold format_result, format_totals.
  destruct (true_div _ _) as [q| |] eqn:Ed; simpl; try discriminate.
  intros H. inversion H. subst. now apply true_div_not_err in Ed.
Qed.

(** An error of the loop is the error of an iteration from a reachable state. *)
Lemma greedy_loop_err stock ds0 : forall fuel st e,
  reachable stock ds0 st ->
  greedy_loop fuel stock st = Some (Err e) ->
  exists st1, reachable stock ds0 st1 /\
              any_remaining (st_demand_list st1) = true /\
              cut_one_stock stock st1 = Err e.
Proof.
  induction fuel as [|fuel IH]; intros st e Hr H; simpl in H.
  - destruct (any_remaining (st_demand_list st)); discriminate.
  - destruct (any_remaining (st_demand_list st)) eqn:Ea; [|discriminate].
    destruct (cut_one_stock stock st) as [st'| |] eqn:Ec; try discriminate.
    + apply (IH st'); [|assumption]. eapply reach_step; eassumption.
    + inversion H. subst. eauto.
Qed.

Lemma greedy_loop_reachable stock ds0 : forall fuel st st',
  reachable stock ds0 st ->
  greedy_loop fuel stock st = Some (Ok st') ->
  reachable stock ds0 st' /\ any_remaining (st_demand_list st') = false.
Proof.
  intros fuel st st' Hr H.
  apply (greedy_loop_invariant (reachable stock ds0) stock) with (fuel := fuel) (st := st);
    [|assumption|assumption].
  intros. eapply reach_step; eassumption.
Qed.

Lemma reachable_lengths stock ds0 st :
  reachable stock ds0 st -> map d_length (st_demand_list st) = map d_length ds0.
Proof.
  revert st.
  apply (reachable_inv (fun st => map d_length (st_demand_list st) = map d_length ds0));
    [reflexivity|].
  intros s s' Hs _ Hc. apply cut_one_stock_inv in Hc.
  destruct Hc as (ds & rl & pat & q & Hf & _ & _ & ->). simpl.
  rewrite (fill_unit_lengths _ _ _ _ _ _ Hf). assumption.
Qed.

Lemma reachable_nonneg stock ds0 st :
  Forall (fun d => 0 <= d_quantity d) ds0 ->
  reachable stock ds0 st -> Forall (fun d => 0 <= d_quantity d) (st_demand_list st).
Proof.
  intros H0. revert st.
  apply (reachable_inv (fun st => Forall (fun d => 0 <= d_quantity d) (st_demand_list st)));
    [assumption|].
  intros s s' Hs _ Hc. apply cut_one_stock_inv in Hc.
  destruct Hc as (ds & rl & pat & q & Hf & _ & _ & ->). simpl.
  eapply fill_unit_nonneg; eassumption.
Qed.

Lemma round64_finite s n d f : round64 s n d = Some f -> exists m e, f = Fin s m e.
Proof.
  unfold round64. destruct (n =? 0); [intros H; inversion H; eauto|].
  destruct (scaled n d _) as [n' d'].
  destruct (_ && _); [discriminate|]. intros H; inversion H; eauto.
Qed.

(** The quotient of two ints is finite, so its floor exists. *)
Lemma math_floor_true_div a b f :
  true_div (E:=error) a b = Ok f -> exists v, math_floor (E:=error) f = Ok v.
Proof.
  unfold true_div. destruct (b =? 0); [discriminate|].
  destruct (round64 _ _ _) as [f'|] eqn:Er; [|discriminate].
  intros H. inversion H. subst f'.
  apply round64_finite in Er. destruct Er as (m & e & ->).
  unfold math_floor. eauto.
Qed.

(** A division by a non-zero int raises nothing but [OverflowError]. *)
Lemma true_div_raise a b x :
  b <> 0 -> true_div (E:=error) a b = Raise x -> x = OverflowError.
Proof.
  intros Hb. unfold true_div.
  replace (b =? 0) with false by (symmetry; apply Z.eqb_neq; lia).
  destruct (round64 _ _ _); [discriminate|]. intros H. now inversion H.
Qed.

Lemma cut_demand_raise d rl pat x :
  0 < d_length d -> cut_demand d rl pat = Raise x -> x = OverflowError.
Proof.
  intros Hl. unfold cut_demand.
  destruct (_ || _); [discriminate|].
  destruct (true_div rl (d_length d)) as [f| |] eqn:Ed; simpl; try discriminate.
  - destruct (math_floor_true_div _ _ _ Ed) as [v ->]. simpl.
    destruct (0 <? _); discriminate.
  - intros H. inversion H. subst. eapply true_div_raise; [|eassumption]. lia.
Qed.

Lemma fill_unit_raise ds : forall rl pat x,
  Forall (fun d => 0 < d_length d) ds ->
  fill_unit ds rl pat = Raise x -> x = OverflowError.
Proof.
  induction ds as [|d ds IH]; intros rl pat x Hall; simpl; [discriminate|].
  inversion Hall as [|? ? Hd Hds]; subst.
  destruct (cut_demand d rl pat) as [[[d1 rl1] pat1]| |] eqn:Ec; simpl; try discriminate.
  - destruct (fill_unit ds rl1 pat1) as [[[ds1 rl2] pat2]| |] eqn:Ef; simpl; try discriminate.
    intros H. inversion H. subst. eapply IH; eassumption.
  - intros H. inversion H. subst. eapply cut_demand_raise; eassumption.
Qed.

Lemma cut_one_stock_raise stock st x :
  0 < stock -> Forall (fun d => 0 < d_length d) (st_demand_list st) ->
  cut_one_stock stock st = Raise x -> x = OverflowError.
Proof.
  intros Hs Hall. unfold cut_one_stock.
  destruct (fill_unit (st_demand_list st) stock []) as [[[ds rl] pat]| |] eqn:Ef;
    simpl; try discriminate.
  - destruct pat; [discriminate|].
    destruct (true_div (stock - rl) stock) as [q| |] eqn:Ed; simpl; try discriminate.
    intros H. inversion H. subst. eapply true_div_raise; [|eassumption]. lia.
  - intros H. inversion H. subst. eapply fill_unit_raise; eassumption.
Qed.

Lemma first_oversized_none stock demands :
  (forall l q, In (l, q) demands -> l <= stock) -> first_oversized stock demands = None.
Proof.
  intros H. unfold first_oversized.
  destruct (find _ demands) as [[l q]|] eqn:Ef; [|reflexivity].
  apply find_some in Ef. destruct Ef as [Hin Hlt]. simpl in Hlt.
  apply Z.ltb_lt in Hlt. specialize (H _ _ Hin). lia.
Qed.

Lemma lengths_Forall (P : Z -> Prop) ds ds0 :
  map d_length ds = map d_length ds0 ->
  Forall (fun d => P (d_length d)) ds0 -> Forall (fun d => P (d_length d)) ds.
Proof.
  intros Hlen H. apply Forall_map. rewrite Hlen. now apply Forall_map.
Qed.

(** * Properties of the optimizer *)

(** ** Validation (lines 51-53) *)

(** C2. Whenever some demanded length is strictly greater than the stock
    length, the optimizer returns the oversized-demand error, carrying the
    first offending length (in the dict's iteration order) and the stock
    length, and it returns no plan. *)
Theorem oversized_demand_rejected stock demands :
  (exists l, In l (map fst demands) /\ stock < l) ->
  exists l,
    first_oversized stock demands = Some l /\
    In l (map fst demands) /\ stock < l /\
    greedy_cutting_optimization stock demands = Some (Err (OversizedDemand l stock)) /\
    forall r, greedy_cutting_optimization stock demands <> Some (Ok r).
Proof.
  intros (l0 & Hin0 & Hlt0).
  unfold greedy_cutting_optimization, greedy_plan, first_oversized.
  destruct (find (fun kv => stock <? fst kv) demands) as [[l q]|] eqn:Ef.
  - apply find_some in Ef. destruct Ef as [Hin Hlt]. simpl in Hlt. apply Z.ltb_lt in Hlt.
    exists l. simpl. repeat split; try assumption; try discriminate.
    change l with (fst (l, q)). now apply in_map.
  - exfalso. apply in_map_iff in Hin0. destruct Hin0 as [[l q] [Hl Hin]].
    simpl in Hl. subst l0.
    pose proof (find_none _ _ Ef _ Hin) as Hn. simpl in Hn. apply Z.ltb_ge in Hn. lia.
Qed.

Lemma oversized_demand_rejected_witness :
  exists l,
    first_oversized 500 [(600, 1)] = Some l /\
    In l (map fst [(600, 1)]) /\ 500 < l /\
    greedy_cutting_optimization 500 [(600, 1)] = Some (Err (OversizedDemand l 500)) /\
    forall r, greedy_cutting_optimization 500 [(600, 1)] <> Some (Ok r).
Proof.
  apply (oversized_demand_rejected 500 [(600, 1)]).
  exists 600. split; [simpl; auto | lia].
Defined.

(** ** The empty demand set *)

(** C3. The code has no empty-demand error.  With no demand entries the
    loop body never runs, [total_stock_used] stays [0], and line 102
    divides by [0 * stock_length]: the optimizer raises
    [ZeroDivisionError] for every stock length, and so does the search
    as soon as its range has a candidate. *)
Theorem empty_demand_set_raises :
  (forall stock, greedy_cutting_optimization stock [] = Some (Raise ZeroDivisionError)) /\
  find_optimal_stock_length [] 1000 1200 100 = Some (Raise ZeroDivisionError).
Proof.
  split; [intros stock|]; reflexivity.
Qed.

(** ** The search on an inverted range *)

(** C10. With [max_length < min_length] (and a step of at least one, as
    the contract requires) the range is empty: no candidate is evaluated
    and the search returns the no-feasible-length error, whatever the
    demand set. *)
Theorem inverted_range_no_candidates demands min_length max_length step_length :
  max_length < min_length -> 1 <= step_length ->
  py_range min_length (max_length + 1) step_length = Ok [] /\
  find_optimal_stock_length demands min_length max_length step_length
  = Some (Err NoFeasibleLength).
Proof.
  intros Hlt Hstep.
  assert (Hr : py_range min_length (max_length + 1) step_length = Ok []).
  { unfold py_range.
    replace (step_length =? 0) with false by (symmetry; apply Z.eqb_neq; lia).
    replace (0 <? step_length) with true by (symmetry; apply Z.ltb_lt; lia).
    assert (Hq : (max_length + 1 - min_length + step_length - 1) / step_length <= 0).
    { apply Z.lt_succ_r. apply Z.div_lt_upper_bound; lia. }
    replace (Z.to_nat _) with 0%nat by lia. reflexivity. }
  split; [assumption|].
  unfold find_optimal_stock_length. rewrite Hr. reflexivity.
Qed.

Lemma inverted_range_no_candidates_witness :
  py_range 1200 (1000 + 1) 100 = Ok [] /\
  find_optimal_stock_length [(355, 10)] 1200 1000 100 = Some (Err NoFeasibleLength).
Proof.
  apply (inverted_range_no_candidates [(355, 10)] 1200 1000 100); lia.
Defined.

(** ** Termination (lines 63-80) *)

(** The optimizer is total: the fuel it gives the loop always suffices. *)
Lemma greedy_plan_total stock demands : exists o, greedy_plan stock demands = Some o.
Proof.
  unfold greedy_plan. destruct (first_oversized stock demands); [eauto|].
  apply greedy_loop_total. simpl. pose proof (open_quantity_nonneg (make_demand_list demands)).
  lia.
Qed.

Lemma greedy_cutting_optimization_total stock demands :
  exists o, greedy_cutting_optimization stock demands = Some o.
Proof.
  unfold greedy_cutting_optimization.
  destruct (greedy_plan_total stock demands) as [o ->]. simpl. eauto.
Qed.

(** C7. For a positive stock length and a demand set with positive lengths
    and quantities the loop terminates: the run has an outcome (the fuel
    never runs out); an iteration that completes lowers the sum of the
    remaining quantities by at least one, and otherwise the call fails
    (with an error, or with the [OverflowError] of the float division);
    when the loop runs to its end, every remaining quantity is zero. *)
Theorem greedy_loop_terminates stock demands :
  0 < stock ->
  (forall l q, In (l, q) demands -> 0 < l /\ 0 < q) ->
  (exists o, greedy_plan stock demands = Some o /\
             forall st, o = Ok st ->
                        Forall (fun d => d_quantity d = 0) (st_demand_list st)) /\
  (forall st, reachable stock (make_demand_list demands) st ->
     any_remaining (st_demand_list st) = true ->
     match cut_one_stock stock st with
     | Ok st' => total_remaining (st_demand_list st') + 1
                 <= total_remaining (st_demand_list st)
     | Err e => e = InfeasibleDemand
     | Raise x => x = OverflowError
     end).
Proof.
  intros Hstock Hpos.
  assert (Hnn : Forall (fun d => 0 <= d_quantity d) (make_demand_list demands)).
  { apply (make_demand_list_Forall (fun _ q => 0 <= q)).
    intros l q Hin. apply Hpos in Hin. lia. }
  assert (Hlp : Forall (fun d => 0 < d_length d) (make_demand_list demands)).
  { apply (make_demand_list_Forall (fun l _ => 0 < l)).
    intros l q Hin. apply Hpos in Hin. lia. }
  split.
  - destruct (greedy_plan_total stock demands) as [o Ho]. exists o. split; [assumption|].
    intros st ->. unfold greedy_plan in Ho.
    destruct (first_oversized stock demands); [discriminate|].
    apply (greedy_loop_reachable stock (make_demand_list demands)) in Ho; [|constructor].
    destruct Ho as [Hr Hany].
    apply none_remaining_zero; [|assumption].
    eapply reachable_nonneg; eassumption.
  - intros st Hr Hany.
    destruct (cut_one_stock stock st) as [st'|e|x] eqn:Ec.
    + pose proof (cut_one_stock_decreases _ _ _ Ec) as Hdec.
      rewrite <- !total_remaining_open; [assumption| |].
      * eapply reachable_nonneg; eassumption.
      * eapply reachable_nonneg; [eassumption|]. eapply reach_step; eassumption.
    + unfold cut_one_stock in Ec.
      destruct (fill_unit (st_demand_list st) stock []) as [[[ds rl] pat]| |] eqn:Ef;
        simpl in Ec.
      * destruct pat; [now inversion Ec|].
        destruct (true_div (stock - rl) stock) as [q| |] eqn:Ed; simpl in Ec; try discriminate.
        now apply true_div_not_err in Ed.
      * now apply fill_unit_not_err in Ef.
      * discriminate.
    + eapply cut_one_stock_raise; [eassumption| |eassumption].
      eapply (lengths_Forall (fun l => 0 < l)); [|eassumption].
      eapply reachable_lengths; eassumption.
Qed.

Lemma greedy_loop_terminates_witness :
  (exists o, greedy_plan 1000 [(400, 1); (600, 1)] = Some o /\
             forall st, o = Ok st ->
                        Forall (fun d => d_quantity d = 0) (st_demand_list st)) /\
  (forall st, reachable 1000 (make_demand_list [(400, 1); (600, 1)]) st ->
     any_remaining (st_demand_list st) = true ->
     match cut_one_stock 1000 st with
     | Ok st' => total_remaining (st_demand_list st') + 1
                 <= total_remaining (st_demand_list st)
     | Err e => e = InfeasibleDemand
     | Raise x => x = OverflowError
     end).
Proof.
  apply (greedy_loop_terminates 1000 [(400, 1); (600, 1)]); [lia|].
  intros l q [H|[H|[]]]; inversion H; lia.
Defined.

(** ** The infeasible-demand branch (lines 79-80) *)

Lemma reachable_unit_nonempty stock demands st ds rl pat :
  (forall l q, In (l, q) demands -> 0 < l <= stock) ->
  reachable stock (make_demand_list demands) st ->
  any_remaining (st_demand_list st) = true ->
  fill_unit (st_demand_list st) stock [] = Ok (ds, rl, pat) -> pat <> [].
Proof.
  intros Hfit Hr Hany Hf.
  eapply fill_unit_nonempty; [eassumption| |assumption].
  apply (lengths_Forall (fun l => 0 < l <= stock) _ (make_demand_list demands)).
  - eapply reachable_lengths; eassumption.
  - apply (make_demand_list_Forall (fun l _ => 0 < l <= stock)). assumption.
Qed.

(** C9. When every demanded length is positive and at most the stock
    length, the empty-pattern branch is never taken: the optimizer has an
    outcome and it is not the infeasible-demand error, no iteration of
    the loop ends in that error, and every unit that the inner loop
    completes has received at least one piece.  (This holds for the
    empty demand set as well, whose loop has no iteration.) *)
Theorem infeasible_branch_unreachable stock demands :
  (forall l q, In (l, q) demands -> 0 < l <= stock) ->
  (exists o, greedy_cutting_optimization stock demands = Some o /\
             o <> Err InfeasibleDemand) /\
  (forall st, reachable stock (make_demand_list demands) st ->
     any_remaining (st_demand_list st) = true ->
     cut_one_stock stock st <> Err InfeasibleDemand /\
     forall ds rl pat,
       fill_unit (st_demand_list st) stock [] = Ok (ds, rl, pat) -> pat <> []).
Proof.
  intros Hfit.
  assert (Hstep : forall st, reachable stock (make_demand_list demands) st ->
            any_remaining (st_demand_list st) = true ->
            forall e, cut_one_stock stock st <> Err e).
  { intros st Hr Hany e Hc. apply cut_one_stock_err in Hc. destruct Hc as (ds & rl & Hf).
    now apply (reachable_unit_nonempty _ _ _ _ _ _ Hfit Hr Hany) in Hf. }
  split.
  - destruct (greedy_cutting_optimization_total stock demands) as [o Ho].
    exists o. split; [assumption|]. intros ->.
    unfold greedy_cutting_optimization in Ho.
    destruct (greedy_plan stock demands) as [[st|e|x]|] eqn:Ep; simpl in Ho; try discriminate.
    + inversion Ho as [Hfmt]. now apply format_result_not_err in Hfmt.
    + unfold greedy_plan in Ep. rewrite first_oversized_none in Ep.
      * apply (greedy_loop_err stock (make_demand_list demands)) in Ep; [|constructor].
        destruct Ep as (st1 & Hr & Hany & Hc). now apply (Hstep st1 Hr Hany) in Hc.
      * intros l q Hin. apply Hfit in Hin. lia.
  - intros st Hr Hany. split; [now apply Hstep|].
    intros ds rl pat. now apply reachable_unit_nonempty with (demands := demands).
Qed.

Lemma infeasible_branch_unreachable_witness :
  (exists o, greedy_cutting_optimization 1000 [(400, 1); (600, 1)] = Some o /\
             o <> Err InfeasibleDemand) /\
  (forall st, reachable 1000 (make_demand_list [(400, 1); (600, 1)]) st ->
     any_remaining (st_demand_list st) = true ->
     cut_one_stock 1000 st <> Err InfeasibleDemand /\
     forall ds rl pat,
       fill_unit (st_demand_list st) 1000 [] = Ok (ds, rl, pat) -> pat <> []).
Proof.
  apply (infeasible_branch_unreachable 1000 [(400, 1); (600, 1)]).
  intros l q [H|[H|[]]]; inversion H; lia.
Defined.

(** ** Runs below [2^53] *)

Lemma demand_list_fits stock demands :
  (forall l q, In (l, q) demands -> 0 < l <= stock /\ 0 < q) ->
  Forall (fun d => 0 < d_length d <= stock) (make_demand_list demands).
Proof.
  intros Hfit. apply (make_demand_list_Forall (fun l _ => 0 < l <= stock)).
  intros l q Hin. now apply Hfit in Hin.
Qed.

Lemma demand_list_positive stock demands :
  (forall l q, In (l, q) demands -> 0 < l <= stock /\ 0 < q) ->
  Forall (fun d => 0 < d_quantity d) (make_demand_list demands).
Proof.
  intros Hfit. apply (make_demand_list_Forall (fun _ q => 0 < q)).
  intros l q Hin. now apply Hfit in Hin.
Qed.

Lemma demand_list_remaining stock demands :
  demands <> [] ->
  (forall l q, In (l, q) demands -> 0 < l <= stock /\ 0 < q) ->
  any_remaining (make_demand_list demands) = true.
Proof.
  intros Hne Hfit. pose proof (demand_list_positive stock demands Hfit) as Hq.
  pose proof (make_demand_list_perm demands) as Hp.
  destruct (make_demand_list demands) as [|d l].
  - apply Permutation_nil in Hp. destruct demands; [congruence | discriminate].
  - inversion Hq; subst. simpl.
    replace (0 <? d_quantity d) with true by (symmetry; apply Z.ltb_lt; lia).
    reflexivity.
Qed.

Section BoundedRun.
Variable stock : Z.
Variable demands : dict.
Hypothesis stock_bound : 0 < stock < 2 ^ 53.
Hypothesis demands_nonempty : demands <> [].
Hypothesis demands_wf : dict_wf demands.
Hypothesis demands_fit : forall l q, In (l, q) demands -> 0 < l <= stock /\ 0 < q.

Let ds0 := make_demand_list demands.

Let good (st : state) : Prop := run_inv stock ds0 st /\ fit_inv stock st.

Lemma good_step st :
  good st -> any_remaining (st_demand_list st) = true ->
  exists st', cut_one_stock stock st = Ok st' /\ good st'.
Proof.
  intros [Hrun Hfit] Hany.
  assert (Hl : Forall (fun d => 0 < d_length d <= stock) (st_demand_list st)).
  { apply (lengths_Forall (fun l => 0 < l <= stock) _ ds0);
      [apply Hrun | apply demand_list_fits; exact demands_fit]. }
  assert (Hl' : Forall (fun d => 0 < d_length d) (st_demand_list st)).
  { eapply Forall_impl; [|exact Hl]. simpl. intros; lia. }
  destruct (fill_unit_bounded _ stock [] Hl' ltac:(lia)) as (ds & rl & pat & Hf & Hb).
  pose proof (fill_unit_nonempty _ _ _ _ _ _ Hf Hl Hany) as Hne.
  destruct (true_div_fraction (stock - rl) stock ltac:(lia) ltac:(lia)) as [q Hq].
  assert (Hc : exists st', cut_one_stock stock st = Ok st').
  { unfold cut_one_stock. rewrite Hf. simpl.
    destruct pat; [congruence|]. rewrite Hq. simpl. eauto. }
  destruct Hc as [st' Hc]. exists st'. split; [assumption|]. split.
  - eapply run_inv_step; [|eassumption|eassumption].
    apply make_demand_list_nodup. exact demands_wf.
  - eapply fit_inv_step; eassumption.
Qed.

(** Below [2^53] the run succeeds and ends in a state that satisfies
    both invariants with nothing left open. *)
Lemma bounded_run :
  exists st r,
    greedy_plan stock demands = Some (Ok st) /\
    format_result stock st = Ok r /\
    greedy_cutting_optimization stock demands = Some (Ok r) /\
    run_inv stock ds0 st /\ fit_inv stock st /\
    any_remaining (st_demand_list st) = false.
Proof.
  assert (Hnn : Forall (fun d => 0 <= d_quantity d) ds0).
  { eapply Forall_impl; [|apply (demand_list_positive stock); exact demands_fit].
    simpl. intros; lia. }
  assert (Hinit : good (mkState ds0 [] 0 0)).
  { split; [now apply run_inv_init|]. constructor; simpl; [constructor | lia]. }
  destruct (greedy_loop_succeeds good stock good_step
              (Z.to_nat (open_quantity ds0)) (mkState ds0 [] 0 0) Hinit) as [st Hloop].
  { simpl. pose proof (open_quantity_nonneg ds0). lia. }
  assert (Hpres : forall s s', good s -> any_remaining (st_demand_list s) = true ->
                    cut_one_stock stock s = Ok s' -> good s').
  { intros s s' Hs Ha Hc. destruct (good_step s Hs Ha) as (s1 & Hc1 & Hg).
    rewrite Hc in Hc1. inversion Hc1. now subst. }
  destruct (greedy_loop_invariant good stock Hpres _ _ _ Hinit Hloop)
    as [[Hrun Hfit] Hany].
  assert (Hplan : greedy_plan stock demands = Some (Ok st)).
  { unfold greedy_plan. rewrite first_oversized_none; [exact Hloop|].
    intros l q Hin. apply demands_fit in Hin. lia. }
  assert (Hused : 1 <= st_total_stock_used st).
  { destruct (inv_used _ _ _ Hrun) as [H0 Hz].
    destruct (Z.eq_dec (st_total_stock_used st) 0) as [He|]; [|lia].
    rewrite (Hz He) in Hany. unfold ds0 in Hany.
    rewrite (demand_list_remaining stock demands demands_nonempty demands_fit) in Hany.
    discriminate. }
  destruct (fit_used _ _ Hfit) as [Hu0 Hu1].
  destruct (true_div_fraction (st_total_used_length st)
              (st_total_stock_used st * stock) ltac:(lia) ltac:(nia)) as [q Hq].
  assert (Hfmt : exists r, format_result stock st = Ok r).
  { unfold format_result, format_totals. rewrite Hq. simpl. eauto. }
  destruct Hfmt as [r Hfmt]. exists st, r.
  split; [assumption|]. split; [assumption|]. split; [|auto].
  unfold greedy_cutting_optimization. rewrite Hplan. simpl. now rewrite Hfmt.
Qed.

End BoundedRun.

(** ** Demand conservation *)

(** Whenever the loop returns, for a dict with non-negative quantities,
    the plan accounts for every unit of every demand; no bound on the
    stock length is needed for this. *)
Theorem conservation_when_returned stock demands st :
  dict_wf demands ->
  (forall l q, In (l, q) demands -> 0 <= q) ->
  greedy_plan stock demands = Some (Ok st) ->
  forall l q, In (l, q) demands -> pieces_cut (st_cutting_plans st) l = q.
Proof.
  intros Hwf Hnn Hp l q Hin. unfold greedy_plan in Hp.
  destruct (first_oversized stock demands); [discriminate|].
  set (ds0 := make_demand_list demands) in *.
  assert (H0 : Forall (fun d => 0 <= d_quantity d) ds0)
    by (apply (make_demand_list_Forall (fun _ q => 0 <= q)); assumption).
  destruct (greedy_loop_invariant (run_inv stock ds0) stock) with (3 := Hp)
    as [Hrun Hany].
  - intros s s' Hs _ Hc. eapply run_inv_step; [|eassumption|eassumption].
    now apply make_demand_list_nodup.
  - now apply run_inv_init.
  - pose proof (inv_conserve _ _ _ Hrun l) as Hc.
    rewrite open_of_zero in Hc.
    + unfold ds0 in Hc. rewrite (open_of_requested demands l q Hwf Hin) in Hc. lia.
    + apply none_remaining_zero; [apply Hrun | assumption].
Qed.

(** ** Runs below the overflow threshold *)

(** The largest quotient that still rounds to a finite float is just
    below [2^1024 - 2^970]. *)
Definition overflow_threshold : Z := 2 ^ 1024 - 2 ^ 970.

Lemma overflow_threshold_eq : overflow_threshold = (2 ^ 54 - 1) * 2 ^ 970.
Proof.
  unfold overflow_threshold.
  replace (2 ^ 1024) with (2 ^ 54 * 2 ^ 970) by (rewrite <- Z.pow_add_r by lia; reflexivity).
  lia.
Qed.

Lemma round64_small s n d :
  0 < n -> 0 < d -> n < d -> exists f, round64 s n d = Some f.
Proof.
  intros Hn Hd Hlt. unfold round64.
  replace (n =? 0) with false by (symmetry; apply Z.eqb_neq; lia).
  assert (He : ilog2 n d <= 0).
  { unfold ilog2.
    assert (Z.log2 n <= Z.log2 d) by (apply Z.log2_le_mono; lia).
    destruct (scaled n d (Z.log2 n - Z.log2 d)) as [n' d'].
    destruct (d' <=? n'); lia. }
  assert (Hk : (0 <=? Z.max (ilog2 n d - 52) (-1074)) = false) by (apply Z.leb_gt; lia).
  destruct (scaled n d (Z.max (ilog2 n d - 52) (-1074))) as [n' d'].
  rewrite Hk, Bool.andb_false_l. eauto.
Qed.

(** A quotient below the threshold rounds to a finite float. *)
Lemma round64_below_threshold s n d :
  0 <= n -> 0 < d -> n < d * overflow_threshold -> exists f, round64 s n d = Some f.
Proof.
  intros Hn Hd Hlt.
  destruct (Z.eq_dec n 0) as [->|Hn0]; [unfold round64; simpl; eauto|].
  destruct (Z_lt_ge_dec n d) as [Hsmall|Hge]; [apply round64_small; lia|].
  destruct (ilog2_spec n d ltac:(lia)) as [He [Hlo Hhi]].
  set (e := ilog2 n d) in *.
  assert (Hp970 : 0 < 2 ^ 970) by (apply Z.pow_pos_nonneg; lia).
  assert (He1023 : e <= 1023).
  { destruct (Z_le_gt_dec e 1023) as [|Hgt]; [assumption|].
    assert (2 ^ 1024 <= 2 ^ e) by (apply Z.pow_le_mono_r; lia).
    unfold overflow_threshold in Hlt. nia. }
  unfold round64.
  replace (n =? 0) with false by (symmetry; apply Z.eqb_neq; lia).
  fold e. replace (Z.max (e - 52) (-1074)) with (e - 52) by lia.
  unfold scaled. destruct (0 <=? e - 52) eqn:Ek; cbv beta iota zeta;
    [|rewrite Bool.andb_false_l; eauto].
  apply Z.leb_le in Ek. rewrite Bool.andb_true_l.
  set (k := e - 52) in *.
  assert (Hpk : 0 < 2 ^ k) by (apply Z.pow_pos_nonneg; lia).
  set (D := d * 2 ^ k) in *.
  assert (HD : 0 < D) by (unfold D; nia).
  assert (Hsplit : 2 ^ (e + 1) = 2 ^ 53 * 2 ^ k).
  { rewrite <- Z.pow_add_r by lia. f_equal. unfold k. lia. }
  assert (HF : n / D < 2 ^ 53).
  { apply Z.div_lt_upper_bound; [assumption|]. unfold D. nia. }
  pose proof (rne_div_le_succ n D HD) as Hm.
  pose proof (rne_div_floor_le n D HD) as Hm0.
  assert (HF0 : 0 <= n / D) by (apply Z.div_pos; lia).
  assert (Hgoal : rne_div n D * 2 ^ k < 2 ^ 1024);
    [|replace (2 ^ 1024 <=? rne_div n D * 2 ^ k) with false
        by (symmetry; apply Z.leb_gt; exact Hgoal); eauto].
  destruct (Z_le_gt_dec k 970) as [Hk970|Hk971].
  - assert (2 ^ k <= 2 ^ 970) by (apply Z.pow_le_mono_r; lia).
    assert (H1023 : 2 ^ 1024 = 2 * (2 ^ 53 * 2 ^ 970)).
    { rewrite <- Z.pow_add_r by lia. rewrite <- Z.pow_succ_r by lia. reflexivity. }
    assert (0 < 2 ^ 53) by (apply Z.pow_pos_nonneg; lia).
    assert (0 <= n / D) by (apply Z.div_pos; lia).
    rewrite H1023.
    assert (rne_div n D * 2 ^ k <= 2 ^ 53 * 2 ^ 970).
    { apply Z.mul_le_mono_nonneg; lia. }
    nia.
  - assert (Hk' : k = 971) by lia.
    assert (H971 : 2 ^ k = 2 * 2 ^ 970).
    { rewrite Hk'. rewrite <- Z.pow_succ_r by lia. reflexivity. }
    assert (H1024 : 2 ^ 1024 = 2 ^ 53 * 2 ^ k).
    { rewrite Hk'. rewrite <- Z.pow_add_r by lia. reflexivity. }
    assert (H54 : 2 ^ 54 = 2 * 2 ^ 53) by (rewrite <- Z.pow_succ_r by lia; reflexivity).
    assert (Hm' : rne_div n D <= 2 ^ 53 - 1).
    { destruct (Z.eq_dec (rne_div n D) (n / D)) as [->|Hne]; [lia|].
      pose proof (rne_div_up n D HD Hne) as Hup.
      pose proof (Z.div_mod n D ltac:(lia)) as Hdm.
      pose proof (Z.mod_pos_bound n D HD) as Hr.
      destruct (Z_le_gt_dec (n / D) (2 ^ 53 - 2)) as [|Hbig]; [lia|].
      assert (HFeq : n / D = 2 ^ 53 - 1) by lia.
      exfalso.
      rewrite overflow_threshold_eq in Hlt.
      assert (Hlt' : 2 * n < D * (2 ^ 54 - 1)).
      { unfold D. rewrite H971. nia. }
      rewrite HFeq in Hdm. nia. }
    rewrite H1024. nia.
Qed.

Lemma true_div_below_threshold a b :
  0 <= a -> 0 < b -> a < b * overflow_threshold ->
  exists f, true_div (E:=error) a b = Ok f.
Proof.
  intros Ha Hb Hlt. unfold true_div.
  replace (b =? 0) with false by (symmetry; apply Z.eqb_neq; lia).
  rewrite !Z.abs_eq by lia.
  destruct (round64_below_threshold (xorb (a <? 0) (b <? 0)) a b Ha Hb Hlt) as [f ->].
  eauto.
Qed.

(** However the quotient is rounded, the pieces cut take at most twice
    what is left. *)
Lemma floor_div_at_most_twice a b f v :
  0 < b <= a -> true_div (E:=error) a b = Ok f -> math_floor (E:=error) f = Ok v ->
  v * b <= 2 * a.
Proof.
  intros Hab Hdiv Hfl.
  apply true_div_pos in Hdiv; [|lia|lia].
  pose proof (round64_ge_one _ _ _ _ Hab Hdiv) as Hf. cbv zeta in Hf.
  destruct (ilog2_spec a b Hab) as [He [Hlo _]].
  set (k := ilog2 a b - 52) in *.
  subst f. cbn [math_floor] in Hfl. inversion Hfl as [Hv]. clear Hfl.
  destruct (0 <=? k) eqn:Ek.
  - apply Z.leb_le in Ek.
    assert (Hp : 0 < 2 ^ k) by (apply Z.pow_pos_nonneg; lia).
    assert (Hle : b * 2 ^ k <= a).
    { assert (2 ^ k <= 2 ^ ilog2 a b) by (apply Z.pow_le_mono_r; lia). nia. }
    pose proof (rne_div_le_succ a (b * 2 ^ k) ltac:(nia)) as Hm.
    pose proof (Z.mul_div_le a (b * 2 ^ k) ltac:(nia)) as Hq.
    nia.
  - apply Z.leb_gt in Ek.
    set (K := - k) in *.
    assert (Hp : 0 < 2 ^ K) by (apply Z.pow_pos_nonneg; unfold K; lia).
    pose proof (rne_div_le_succ (a * 2 ^ K) b ltac:(lia)) as Hm.
    pose proof (Z.mul_div_le (a * 2 ^ K) b ltac:(lia)) as Hq.
    set (m := rne_div (a * 2 ^ K) b) in *.
    pose proof (Z.mul_div_le m (2 ^ K) Hp) as Hv'.
    assert (Hmb : m * b <= a * 2 ^ K + b) by nia.
    assert (Hb : b <= a * 2 ^ K) by nia.
    assert (Hall : (m / 2 ^ K * b) * 2 ^ K <= (2 * a) * 2 ^ K) by nia.
    apply Z.mul_le_mono_pos_r in Hall; assumption.
Qed.

Lemma overflow_threshold_large : 2 < overflow_threshold.
Proof.
  rewrite overflow_threshold_eq.
  assert (0 < 2 ^ 970) by (apply Z.pow_pos_nonneg; lia).
  assert (2 ^ 54 = 18014398509481984) by reflexivity.
  nia.
Qed.

(** Below the threshold no division fails; a cut may overshoot what is
    left, but by no more than what was left. *)
Lemma cut_demand_safe stock d rl pat :
  0 < d_length d -> stock < overflow_threshold -> - stock <= rl <= stock ->
  exists d1 rl1 pat1,
    cut_demand d rl pat = Ok (d1, rl1, pat1) /\ - stock <= rl1 <= rl.
Proof.
  intros Hl Hs Hrl. unfold cut_demand.
  destruct (d_quantity d <=? 0) eqn:Eq; [simpl; eexists _, _, _; split; [reflexivity|lia]|].
  destruct (rl <? d_length d) eqn:El; [simpl; eexists _, _, _; split; [reflexivity|lia]|].
  simpl. apply Z.ltb_ge in El.
  destruct (true_div_below_threshold rl (d_length d)) as [f Hdiv]; [lia|lia|nia|].
  destruct (math_floor_true_div _ _ _ Hdiv) as [v Hfl].
  rewrite Hdiv. simpl. rewrite Hfl. simpl.
  destruct (0 <? Z.min v (d_quantity d)) eqn:Ec;
    eexists _, _, _; (split; [reflexivity|]); [|lia].
  apply Z.ltb_lt in Ec.
  pose proof (floor_div_at_most_twice rl (d_length d) f v ltac:(lia) Hdiv Hfl) as Htw.
  assert (Z.min v (d_quantity d) * d_length d <= v * d_length d).
  { apply Z.mul_le_mono_nonneg_r; lia. }
  nia.
Qed.

Lemma fill_unit_safe stock ds : forall rl pat,
  Forall (fun d => 0 < d_length d) ds ->
  stock < overflow_threshold -> - stock <= rl <= stock ->
  exists ds' rl' pat', fill_unit ds rl pat = Ok (ds', rl', pat') /\ - stock <= rl' <= rl.
Proof.
  induction ds as [|d ds IH]; intros rl pat Hall Hs Hrl.
  - simpl. eexists _, _, _. split; [reflexivity | lia].
  - inversion Hall as [|? ? Hd Hds]; subst.
    destruct (cut_demand_safe stock d rl pat Hd Hs Hrl) as (d1 & rl1 & pat1 & Hc & Hb).
    destruct (IH rl1 pat1 Hds Hs ltac:(lia)) as (ds' & rl' & pat' & Hf & Hb').
    simpl. rewrite Hc. simpl. rewrite Hf. simpl.
    eexists _, _, _. split; [reflexivity | lia].
Qed.

Section SafeRun.
Variable stock : Z.
Variable demands : dict.
Hypothesis stock_safe : 0 < stock < overflow_threshold.
Hypothesis demands_nonempty : demands <> [].
Hypothesis demands_wf : dict_wf demands.
Hypothesis demands_fit : forall l q, In (l, q) demands -> 0 < l <= stock /\ 0 < q.

Let ds0 := make_demand_list demands.

Let safe (st : state) : Prop :=
  run_inv stock ds0 st /\
  0 <= st_total_used_length st <= 2 * (st_total_stock_used st * stock).

Lemma safe_step st :
  safe st -> any_remaining (st_demand_list st) = true ->
  exists st', cut_one_stock stock st = Ok st' /\ safe st'.
Proof.
  intros [Hrun Hused] Hany.
  pose proof overflow_threshold_large as HT.
  assert (Hl : Forall (fun d => 0 < d_length d <= stock) (st_demand_list st)).
  { apply (lengths_Forall (fun l => 0 < l <= stock) _ ds0);
      [apply Hrun | apply demand_list_fits; exact demands_fit]. }
  assert (Hl' : Forall (fun d => 0 < d_length d) (st_demand_list st)).
  { eapply Forall_impl; [|exact Hl]. simpl. intros; lia. }
  destruct (fill_unit_safe stock _ stock [] Hl' ltac:(lia) ltac:(lia))
    as (ds & rl & pat & Hf & Hb).
  pose proof (fill_unit_nonempty _ _ _ _ _ _ Hf Hl Hany) as Hne.
  destruct (true_div_below_threshold (stock - rl) stock ltac:(lia) ltac:(lia) ltac:(nia))
    as [q Hq].
  assert (Hc : exists st', cut_one_stock stock st = Ok st').
  { unfold cut_one_stock. rewrite Hf. simpl.
    destruct pat; [congruence|]. rewrite Hq. simpl. eauto. }
  destruct Hc as [st' Hc]. exists st'. split; [assumption|]. split.
  - eapply run_inv_step; [|eassumption|eassumption].
    apply make_demand_list_nodup. exact demands_wf.
  - apply cut_one_stock_inv in Hc.
    destruct Hc as (ds1 & rl1 & pat1 & q1 & Hf1 & _ & _ & ->).
    rewrite Hf in Hf1. inversion Hf1; subst ds1 rl1 pat1.
    cbn [st_total_used_length st_total_stock_used]. lia.
Qed.

(** X11. Below the overflow threshold the optimizer succeeds, and its
    plan cuts exactly the requested quantity of every length. *)
Theorem demand_conservation_below_overflow :
  exists st r,
    greedy_plan stock demands = Some (Ok st) /\
    greedy_cutting_optimization stock demands = Some (Ok r) /\
    map count (cutting_plans r) = map p_count (st_cutting_plans st) /\
    forall l q, In (l, q) demands -> pieces_cut (st_cutting_plans st) l = q.
Proof.
  pose proof overflow_threshold_large as HT.
  assert (Hnn : Forall (fun d => 0 <= d_quantity d) ds0).
  { eapply Forall_impl; [|apply (demand_list_positive stock); exact demands_fit].
    simpl. intros; lia. }
  assert (Hinit : safe (mkState ds0 [] 0 0)).
  { split; [now apply run_inv_init|]. simpl. lia. }
  destruct (greedy_loop_succeeds safe stock safe_step
              (Z.to_nat (open_quantity ds0)) (mkState ds0 [] 0 0) Hinit) as [st Hloop].
  { simpl. pose proof (open_quantity_nonneg ds0). lia. }
  assert (Hpres : forall s s', safe s -> any_remaining (st_demand_list s) = true ->
                    cut_one_stock stock s = Ok s' -> safe s').
  { intros s s' Hs Ha Hc. destruct (safe_step s Hs Ha) as (s1 & Hc1 & Hg).
    rewrite Hc in Hc1. inversion Hc1. now subst. }
  destruct (greedy_loop_invariant safe stock Hpres _ _ _ Hinit Hloop)
    as [[Hrun Hused] Hany].
  assert (Hplan : greedy_plan stock demands = Some (Ok st)).
  { unfold greedy_plan. rewrite first_oversized_none; [exact Hloop|].
    intros l q Hin. apply demands_fit in Hin. lia. }
  assert (Hn : 1 <= st_total_stock_used st).
  { destruct (inv_used _ _ _ Hrun) as [H0 Hz].
    destruct (Z.eq_dec (st_total_stock_used st) 0) as [He|]; [|lia].
    rewrite (Hz He) in Hany. unfold ds0 in Hany.
    rewrite (demand_list_remaining stock demands demands_nonempty demands_fit) in Hany.
    discriminate. }
  destruct (true_div_below_threshold (st_total_used_length st)
              (st_total_stock_used st * stock) ltac:(lia) ltac:(nia) ltac:(nia)) as [q Hq].
  exists st. eexists. split; [assumption|]. split; [|split].
  - unfold greedy_cutting_optimization. rewrite Hplan. simpl.
    unfold format_result, format_totals. rewrite Hq. simpl. reflexivity.
  - simpl. rewrite map_map. reflexivity.
  - apply conservation_when_returned with (stock := stock); try assumption.
    intros l q0 Hin. apply demands_fit in Hin. lia.
Qed.

End SafeRun.

(** C1. The code breaks the claim at astronomically large stock lengths:
    line 71 takes the floor of a float quotient, and the quotient of
    [2^1024] by [1] is too large for a float, so the call raises
    [OverflowError] instead of returning a plan. *)
Theorem conservation_overflow :
  greedy_cutting_optimization (2 ^ 1024) [(1, 1)] = Some (Raise OverflowError).
Proof. vm_compute. reflexivity. Qed.

(** The threshold is sharp: the same happens at [2^1024 - 2^970]. *)
Lemma overflow_at_threshold :
  greedy_cutting_optimization overflow_threshold [(1, 1)] = Some (Raise OverflowError).
Proof. vm_compute. reflexivity. Qed.

(** ** Waste arithmetic *)

(** Whenever the loop returns, every entry's waste is the stock length
    minus the length of its pattern. *)
Theorem waste_equation_when_returned stock demands st :
  dict_wf demands ->
  (forall l q, In (l, q) demands -> 0 <= q) ->
  greedy_plan stock demands = Some (Ok st) ->
  Forall (fun p => p_waste p = stock - pattern_length (p_pattern p)) (st_cutting_plans st).
Proof.
  intros Hwf Hnn Hp. unfold greedy_plan in Hp.
  destruct (first_oversized stock demands); [discriminate|].
  set (ds0 := make_demand_list demands) in *.
  assert (H0 : Forall (fun d => 0 <= d_quantity d) ds0)
    by (apply (make_demand_list_Forall (fun _ q => 0 <= q)); assumption).
  destruct (greedy_loop_invariant (run_inv stock ds0) stock) with (3 := Hp)
    as [Hrun Hany].
  - intros s s' Hs _ Hc. eapply run_inv_step; [|eassumption|eassumption].
    now apply make_demand_list_nodup.
  - now apply run_inv_init.
  - apply Hrun.
Qed.

(** X12. Below [2^53] the waste arithmetic holds: every entry's waste is
    the stock length minus the length of its pattern, it is not negative,
    and the pattern fits into the stock. *)
Theorem waste_arithmetic_below_2_53 stock demands :
  0 < stock < 2 ^ 53 ->
  demands <> [] ->
  dict_wf demands ->
  (forall l q, In (l, q) demands -> 0 < l <= stock /\ 0 < q) ->
  exists st r,
    greedy_plan stock demands = Some (Ok st) /\
    greedy_cutting_optimization stock demands = Some (Ok r) /\
    map waste (cutting_plans r) = map p_waste (st_cutting_plans st) /\
    Forall (fun p => p_waste p = stock - pattern_length (p_pattern p) /\
                     0 <= p_waste p /\
                     pattern_length (p_pattern p) <= stock)
           (st_cutting_plans st).
Proof.
  intros Hs Hne Hwf Hfit.
  destruct (bounded_run stock demands Hs Hne Hwf Hfit)
    as (st & r & Hp & Hfmt & Hopt & Hrun & Hfi & Hany).
  exists st, r. split; [assumption|]. split; [assumption|]. split.
  - unfold format_result, format_totals in Hfmt.
    destruct (true_div _ _); simpl in Hfmt; try discriminate.
    inversion Hfmt. simpl. rewrite map_map. reflexivity.
  - pose proof (inv_waste _ _ _ Hrun) as Hw. pose proof (fit_waste _ _ Hfi) as Hn.
    rewrite Forall_forall in *. intros p Hin.
    specialize (Hw p Hin). specialize (Hn p Hin). lia.
Qed.

(** C6. The code breaks the claim beyond [2^53]: with a stock length of
    [2^54 + 1] and two pieces of [2^53 + 1], the float quotient rounds up
    to [2.0], both pieces are cut from one unit, and the entry's waste is
    [-1]: the pattern is longer than the stock. *)
Theorem waste_negative_beyond_2_53 :
  exists st r p e,
    greedy_plan (2 ^ 54 + 1) [(2 ^ 53 + 1, 2)] = Some (Ok st) /\
    greedy_cutting_optimization (2 ^ 54 + 1) [(2 ^ 53 + 1, 2)] = Some (Ok r) /\
    st_cutting_plans st = [p] /\ cutting_plans r = [e] /\
    p_pattern p = [(2 ^ 53 + 1, 2)] /\
    p_waste p = -1 /\ waste e = -1 /\
    2 ^ 54 + 1 < pattern_length (p_pattern p).
Proof.
  eexists _, _, _, _. vm_compute. repeat split; reflexivity.
Qed.

(** ** The utilization fields (lines 105-121) *)

Lemma greedy_plan_util stock demands st :
  greedy_plan stock demands = Some (Ok st) -> util_inv stock st.
Proof.
  unfold greedy_plan. destruct (first_oversized stock demands); [discriminate|].
  intros Hp.
  destruct (greedy_loop_invariant (util_inv stock) stock) with (3 := Hp) as [Hu _].
  - intros s s' Hs _ Hc. eapply util_inv_step; eassumption.
  - constructor.
  - assumption.
Qed.

(** The run's utilization field: the rendered percentage of the stock
    consumed that is not waste. *)
Lemma total_utilization_rendered stock demands r :
  greedy_cutting_optimization stock demands = Some (Ok r) ->
  exists q,
    true_div (E:=error) (total_stock_used r * stock - total_waste r)
             (total_stock_used r * stock) = Ok q /\
    total_utilization r = PyStr (format_2f (mul_int q 100) ++ "%").
Proof.
  unfold greedy_cutting_optimization. intros H.
  destruct (greedy_plan stock demands) as [[st|e|x]|]; simpl in H; try discriminate.
  inversion H as [Hfmt]. clear H. unfold format_result, format_totals in Hfmt.
  destruct (true_div (st_total_used_length st) (st_total_stock_used st * stock))
    as [q| |] eqn:Ed; simpl in Hfmt; try discriminate.
  inversion Hfmt. subst r. simpl. exists q. split; [|reflexivity].
  replace (st_total_stock_used st * stock -
           (st_total_stock_used st * stock - st_total_used_length st))
    with (st_total_used_length st) by lia.
  assumption.
Qed.

(** C4, as the code has it.  In every result the two utilization fields
    are text, not numbers: the float [100 * fraction] rendered with two
    decimals and followed by a percent sign.  The fraction is the used
    share of the stock, as the returned integers give it:
    [(stock_length - waste) / stock_length] for an entry and
    [(n * stock_length - total_waste) / (n * stock_length)], with
    [n = total_stock_used], for the run. *)
Theorem utilization_fields_are_rendered stock demands r :
  greedy_cutting_optimization stock demands = Some (Ok r) ->
  (exists q,
     true_div (E:=error) (total_stock_used r * stock - total_waste r)
              (total_stock_used r * stock) = Ok q /\
     total_utilization r = PyStr (format_2f (mul_int q 100) ++ "%")) /\
  Forall (fun e => exists q,
            true_div (E:=error) (stock - waste e) stock = Ok q /\
            utilization e = PyStr (format_2f (mul_int q 100) ++ "%"))
         (cutting_plans r).
Proof.
  intros H. split; [now apply total_utilization_rendered with (demands := demands)|].
  unfold greedy_cutting_optimization in H.
  destruct (greedy_plan stock demands) as [[st|e|x]|] eqn:Ep; simpl in H; try discriminate.
  inversion H as [Hfmt]. clear H. apply greedy_plan_util in Ep.
  unfold format_result, format_totals in Hfmt.
  destruct (true_div (st_total_used_length st) (st_total_stock_used st * stock))
    as [q| |]; simpl in Hfmt; try discriminate.
  inversion Hfmt. subst r. clear Hfmt. simpl.
  apply Forall_map. unfold util_inv in Ep.
  eapply Forall_impl; [|exact Ep]. simpl.
  intros p (q0 & Hq0 & Hu). exists q0. now rewrite Hu.
Qed.

Lemma utilization_fields_are_rendered_witness :
  exists r,
    greedy_cutting_optimization 3800 [(355, 10)] = Some (Ok r) /\
    (exists q,
       true_div (E:=error) (total_stock_used r * 3800 - total_waste r)
                (total_stock_used r * 3800) = Ok q /\
       total_utilization r = PyStr (format_2f (mul_int q 100) ++ "%")) /\
    Forall (fun e => exists q,
              true_div (E:=error) (3800 - waste e) 3800 = Ok q /\
              utilization e = PyStr (format_2f (mul_int q 100) ++ "%"))
           (cutting_plans r).
Proof.
  eexists. split; [vm_compute; reflexivity|].
  apply (utilization_fields_are_rendered 3800 [(355, 10)]).
  vm_compute. reflexivity.
Defined.

(** C4 as stated fails: for a stock of 3800 and ten pieces of 355 the
    optimizer returns the text ["93.42%"] in both utilization fields,
    where the percentage itself is [100 * 3550 / 3800 = 93.421...]. *)
Lemma utilization_fields_not_numeric :
  exists r e,
    greedy_cutting_optimization 3800 [(355, 10)] = Some (Ok r) /\
    cutting_plans r = [e] /\
    total_utilization r = PyStr "93.42%" /\
    utilization e = PyStr "93.42%" /\
    is_number (total_utilization r) = false /\
    is_number (utilization e) = false.
Proof.
  eexists _, _. vm_compute. repeat split; reflexivity.
Qed.

(** * Properties of the search *)

(** ** Rendering and reading back a percentage *)

Section Strings.
Local Open Scope string_scope.

Lemma all_chars_app P s t : all_chars P (s ++ t) = all_chars P s && all_chars P t.
Proof. induction s as [|a s IH]; simpl; [reflexivity | now rewrite IH, andb_assoc]. Qed.

Lemma all_chars_impl (P Q : ascii -> bool) s :
  (forall c, P c = true -> Q c = true) -> all_chars P s = true -> all_chars Q s = true.
Proof.
  intros H. induction s as [|a s IH]; simpl; [reflexivity|].
  intros Hs. apply andb_true_iff in Hs. destruct Hs as [Ha Hs].
  now rewrite (H _ Ha), IH.
Qed.

Lemma uint_digits d : all_chars is_digit (NilEmpty.string_of_uint d) = true.
Proof. induction d; simpl; auto. Qed.

(** [str(n)] for [n >= 0]: a non-empty string of digits that reads back
    as [n]. *)
Lemma str_int_nonneg n :
  0 <= n ->
  exists c t, str_int n = String c t /\ is_digit c = true /\
              all_chars is_digit t = true /\ digits_value (str_int n) = Some n.
Proof.
  intros Hn. unfold str_int, digits_value.
  destruct n as [|p|p]; [| |lia].
  - exists "0"%char, EmptyString. repeat split; reflexivity.
  - simpl Z.to_int. unfold NilZero.string_of_int.
    pose proof (DecimalPos.Unsigned.of_to p) as Hp.
    assert (Hs : NilZero.string_of_uint (Pos.to_uint p)
                 = NilEmpty.string_of_uint (Pos.to_uint p)).
    { destruct (Pos.to_uint p); [discriminate | reflexivity..]. }
    rewrite Hs. pose proof (uint_digits (Pos.to_uint p)) as Hd.
    rewrite NilEmpty.usu. simpl option_map. unfold Z.of_uint. rewrite Hp.
    destruct (NilEmpty.string_of_uint (Pos.to_uint p)) as [|c t] eqn:Es.
    + exfalso. destruct (Pos.to_uint p); discriminate.
    + simpl in Hd. apply andb_true_iff in Hd. destruct Hd as [Hc Ht].
      exists c, t. repeat split; assumption.
Qed.

Lemma digit_is_digit k : 0 <= k <= 9 -> is_digit (digit k) = true.
Proof.
  intros Hk. assert (H : k = 0 \/ k = 1 \/ k = 2 \/ k = 3 \/ k = 4 \/
                          k = 5 \/ k = 6 \/ k = 7 \/ k = 8 \/ k = 9) by lia.
  repeat (destruct H as [->|H]; [reflexivity|]). subst. reflexivity.
Qed.

Lemma two_digits_value n :
  0 <= n < 100 ->
  all_chars is_digit (two_digits n) = true /\ digits_value (two_digits n) = Some n.
Proof.
  intros Hn. unfold two_digits.
  assert (Ha : 0 <= n / 10 <= 9).
  { split; [apply Z.div_pos; lia | apply Z.lt_succ_r; apply Z.div_lt_upper_bound; lia]. }
  assert (Hb : 0 <= n mod 10 <= 9) by (pose proof (Z.mod_pos_bound n 10); lia).
  pose proof (Z.div_mod n 10 ltac:(lia)) as Hdm.
  set (a := n / 10) in *. set (b := n mod 10) in *.
  assert (Hgen : forall a b, 0 <= a <= 9 -> 0 <= b <= 9 ->
            digits_value (String (digit a) (String (digit b) EmptyString)) = Some (10 * a + b)).
  { clear. intros a b Ha Hb.
    assert (H : a = 0 \/ a = 1 \/ a = 2 \/ a = 3 \/ a = 4 \/
                a = 5 \/ a = 6 \/ a = 7 \/ a = 8 \/ a = 9) by lia.
    assert (H' : b = 0 \/ b = 1 \/ b = 2 \/ b = 3 \/ b = 4 \/
                 b = 5 \/ b = 6 \/ b = 7 \/ b = 8 \/ b = 9) by lia.
    repeat (destruct H as [->|H]);
      repeat (destruct H' as [->|H']); subst; reflexivity. }
  split.
  - cbn [all_chars]. now rewrite !digit_is_digit.
  - rewrite Hgen by assumption. f_equal. lia.
Qed.

Lemma digit_not c (x : ascii) :
  is_digit c = true -> is_digit x = false -> Ascii.eqb c x = false.
Proof.
  intros Hc Hx. destruct (Ascii.eqb_spec c x) as [->|]; congruence.
Qed.

Lemma split_dot_digits s t :
  all_chars is_digit s = true -> split_dot (s ++ String "." t) = (s, Some t).
Proof.
  induction s as [|a s IH]; simpl; [reflexivity|].
  intros H. apply andb_true_iff in H. destruct H as [Ha Hs].
  rewrite (digit_not a "." Ha eq_refl). now rewrite IH.
Qed.

Lemma rstrip_app c s :
  all_chars (fun a => negb (Ascii.eqb a c)) s = true ->
  rstrip c (s ++ String c EmptyString) = s.
Proof.
  induction s as [|a s IH]; simpl.
  - now rewrite Ascii.eqb_refl.
  - intros H. apply andb_true_iff in H. destruct H as [Ha Hs].
    rewrite IH by assumption. destruct s; [|reflexivity].
    apply negb_true_iff in Ha. now rewrite Ha.
Qed.

Lemma strip_app c a s :
  all_chars (fun x => negb (Ascii.eqb x c)) (String a s) = true ->
  strip c (String a s ++ String c EmptyString) = String a s.
Proof.
  intros H. unfold strip.
  assert (Hl : lstrip c (String a s ++ String c EmptyString) = String a s ++ String c EmptyString).
  { simpl in *. apply andb_true_iff in H. destruct H as [Ha _].
    apply negb_true_iff in Ha. now rewrite Ha. }
  rewrite Hl. now apply rstrip_app.
Qed.

Lemma float_char_not_percent c :
  is_float_char c = true -> negb (Ascii.eqb c "%") = true.
Proof.
  intros H. apply negb_true_iff. destruct (Ascii.eqb_spec c "%") as [->|]; [|reflexivity].
  discriminate.
Qed.

Lemma digit_float_char c : is_digit c = true -> is_float_char c = true.
Proof. intros H. unfold is_float_char. now rewrite H. Qed.

Lemma hundredths_nonneg m e : 0 <= m -> 0 <= hundredths m e.
Proof.
  intros Hm. unfold hundredths, scaled.
  destruct (0 <=? - e)%Z eqn:E.
  - apply Z.leb_le in E.
    assert (0 < 2 ^ (- e)) by (apply Z.pow_pos_nonneg; lia).
    pose proof (rne_div_floor_le (m * 100) (1 * 2 ^ (- e)) ltac:(lia)).
    assert (0 <= m * 100 / (1 * 2 ^ (- e))) by (apply Z.div_pos; lia). lia.
  - apply Z.leb_gt in E.
    assert (0 < 2 ^ (- - e)) by (apply Z.pow_pos_nonneg; lia).
    pose proof (rne_div_floor_le (m * 100 * 2 ^ (- - e)) 1 ltac:(lia)).
    assert (0 <= m * 100 * 2 ^ (- - e) / 1) by (apply Z.div_pos; nia). lia.
Qed.

(** The shape of a rendered float. *)
Lemma format_2f_shape x :
  float_wf x ->
  exists c t, format_2f x = String c t /\ all_chars is_float_char (String c t) = true.
Proof.
  destruct x as [s m e|s]; simpl; intros Hwf.
  - unfold format_2f. cbv zeta.
    pose proof (hundredths_nonneg m e Hwf) as Hh. set (h := hundredths m e) in *.
    clearbody h.
    destruct (str_int_nonneg (h / 100)) as (c & t & Hs & Hc & Ht & _);
      [apply Z.div_pos; lia|].
    destruct (two_digits_value (h mod 100)) as [Htd _];
      [apply Z.mod_pos_bound; lia|].
    assert (Hall : all_chars is_float_char (str_int (h / 100) ++ "." ++ two_digits (h mod 100))
                   = true).
    { rewrite !all_chars_app. rewrite Hs. cbn [all_chars append].
      rewrite (digit_float_char _ Hc).
      rewrite (all_chars_impl _ _ _ digit_float_char Ht).
      rewrite (all_chars_impl _ _ _ digit_float_char Htd).
      reflexivity. }
    destruct s.
    + eexists _, _. split; [reflexivity|].
      cbn [all_chars]. rewrite Hall. reflexivity.
    + rewrite Hs in *. eexists _, _. split; [reflexivity|]. exact Hall.
  - destruct s; eexists _, _; (split; [reflexivity|]); reflexivity.
Qed.

(** Stripping the percent sign gives back the rendered number. *)
Lemma strip_format_2f x : float_wf x -> strip "%" (format_2f x ++ "%") = format_2f x.
Proof.
  intros Hwf. destruct (format_2f_shape x Hwf) as (c & t & -> & Hall).
  apply strip_app. eapply all_chars_impl; [|exact Hall]. apply float_char_not_percent.
Qed.

Lemma py_float_format_2f (E : Type) x :
  float_wf x -> py_float (E:=E) (format_2f x) = Ok (reread x).
Proof.
  destruct x as [s m e|s]; simpl; intros Hwf.
  - unfold format_2f. cbv zeta.
    pose proof (hundredths_nonneg m e Hwf) as Hh. set (h := hundredths m e) in *.
    clearbody h.
    destruct (str_int_nonneg (h / 100)) as (c & t & Hs & Hc & Ht & Hv);
      [apply Z.div_pos; lia|].
    destruct (two_digits_value (h mod 100)) as [Htd Htv];
      [apply Z.mod_pos_bound; lia|].
    set (D := str_int (h / 100)) in *. set (T := two_digits (h mod 100)) in *.
    assert (HT : String.length T = 2%nat) by reflexivity.
    clearbody D T.
    change ("." ++ T) with (String "." T).
    assert (HD : all_chars is_digit D = true).
    { rewrite Hs. cbn [all_chars]. now rewrite Hc, Ht. }
    assert (Hinf : String.eqb (D ++ String "." T) "inf" = false).
    { rewrite Hs. cbn [append String.eqb]. now rewrite (digit_not c "i" Hc eq_refl). }
    assert (Hlen : (String.length D + String.length T =? 0)%nat = false).
    { rewrite HT. apply Nat.eqb_neq. lia. }
    assert (Hbody : forall sg,
      (if String.eqb (D ++ String "." T) "inf" then Ok (Inf sg)
       else
         let '(ip, fp) := split_dot (D ++ String "." T) in
         let fp' := match fp with Some f => f | None => EmptyString end in
         if (String.length ip + String.length fp' =? 0)%nat then Raise ValueError
         else match digits_value ip, digits_value fp' with
              | Some i, Some f =>
                  let den := 10 ^ Z.of_nat (String.length fp') in
                  match round64 sg (i * den + f) den with
                  | Some x => Ok x
                  | None => Ok (Inf sg)
                  end
              | _, _ => Raise ValueError
              end) = Ok (E:=E) (match round64 sg h 100 with Some y => y | None => Inf sg end)).
    { intros sg. rewrite Hinf, (split_dot_digits D T HD). cbv beta iota zeta.
      rewrite Hlen, Hv, Htv, HT.
      replace (10 ^ Z.of_nat 2) with 100 by reflexivity.
      replace (h / 100 * 100 + h mod 100) with h
        by (pose proof (Z.div_mod h 100 ltac:(lia)); lia).
      destruct (round64 sg h 100); reflexivity. }
    set (B := D ++ String "." T) in *.
    assert (Hsg : match B with
                  | String a t0 => if Ascii.eqb a "-" then (true, t0) else (false, B)
                  | EmptyString => (false, B)
                  end = (false, B)).
    { unfold B. rewrite Hs. cbn [append]. now rewrite (digit_not c "-" Hc eq_refl). }
    unfold py_float. destruct s.
    + cbn [append]. fold B. rewrite Ascii.eqb_refl. apply Hbody.
    + cbn [append]. fold B. rewrite Hsg. apply Hbody.
  - destruct s; reflexivity.
Qed.

End Strings.

(** ** Well-formed floats *)

Lemma round64_wf s n d f : 0 <= n -> 0 < d -> round64 s n d = Some f -> float_wf f.
Proof.
  intros Hn Hd. unfold round64. destruct (n =? 0).
  { intros H. inversion H. simpl. lia. }
  set (k := Z.max (ilog2 n d - 52) (-1074)).
  assert (Hs : 0 <= fst (scaled n d k) /\ 0 < snd (scaled n d k)).
  { unfold scaled. destruct (0 <=? k) eqn:E; simpl.
    - apply Z.leb_le in E. assert (0 < 2 ^ k) by (apply Z.pow_pos_nonneg; lia). nia.
    - apply Z.leb_gt in E. assert (0 < 2 ^ (- k)) by (apply Z.pow_pos_nonneg; lia). nia. }
  destruct (scaled n d k) as [n' d']. simpl in Hs.
  destruct (_ && _); [discriminate|]. intros H. inversion H. simpl.
  pose proof (rne_div_floor_le n' d' ltac:(lia)).
  assert (0 <= n' / d') by (apply Z.div_pos; lia). lia.
Qed.

Lemma true_div_wf (E : Type) a b f : true_div (E:=E) a b = Ok f -> float_wf f.
Proof.
  unfold true_div. destruct (b =? 0) eqn:Eb; [discriminate|]. apply Z.eqb_neq in Eb.
  destruct (round64 _ _ _) as [f'|] eqn:Er; [|discriminate].
  intros H. inversion H. subst. eapply round64_wf; [| |eassumption]; lia.
Qed.

Lemma mul_int_wf x n : float_wf x -> 0 <= n -> float_wf (mul_int x n).
Proof.
  destruct x as [s m e|s]; simpl; intros Hm Hn; [|exact I].
  unfold mul_int.
  assert (Hs : 0 <= fst (scaled (m * n) 1 (- e)) /\ 0 < snd (scaled (m * n) 1 (- e))).
  { assert (0 <= m * n) by nia.
    unfold scaled. destruct (0 <=? - e) eqn:E; cbn [fst snd].
    - apply Z.leb_le in E. assert (0 < 2 ^ (- e)) by (apply Z.pow_pos_nonneg; lia). nia.
    - apply Z.leb_gt in E. assert (0 < 2 ^ (- - e)) by (apply Z.pow_pos_nonneg; lia). nia. }
  destruct (scaled (m * n) 1 (- e)) as [num den]. simpl in Hs.
  destruct (round64 s num den) as [f|] eqn:Er; [|exact I].
  eapply round64_wf; [| |eassumption]; lia.
Qed.

(** ** The order on floats and on sort keys *)

Lemma fval_negb s m e : (fval (negb s) m e == - fval s m e)%Q.
Proof.
  unfold fval. destruct s; simpl; [|reflexivity].
  now rewrite Qopp_involutive.
Qed.

Lemma leb_total x y : PyFloat.leb x y = true \/ PyFloat.leb y x = true.
Proof.
  destruct x as [s1 m1 e1|[|]], y as [s2 m2 e2|[|]]; simpl; auto.
  destruct (Qlt_le_dec (fval s1 m1 e1) (fval s2 m2 e2)) as [H|H].
  - left. apply Qle_bool_iff. now apply Qlt_le_weak.
  - right. now apply Qle_bool_iff.
Qed.

Lemma leb_trans x y z :
  PyFloat.leb x y = true -> PyFloat.leb y z = true -> PyFloat.leb x z = true.
Proof.
  destruct x as [s1 m1 e1|[|]], y as [s2 m2 e2|[|]], z as [s3 m3 e3|[|]];
    simpl; try congruence.
  rewrite !Qle_bool_iff. apply Qle_trans.
Qed.

Lemma leb_neg x y : PyFloat.leb (PyFloat.neg x) (PyFloat.neg y) = PyFloat.leb y x.
Proof.
  destruct x as [s1 m1 e1|[|]], y as [s2 m2 e2|[|]]; simpl; try reflexivity.
  apply eq_true_iff_eq. rewrite !Qle_bool_iff, !fval_negb. split.
  - intros H. apply Qopp_le_compat in H. now rewrite !Qopp_involutive in H.
  - apply Qopp_le_compat.
Qed.

Lemma key_le_spec a b :
  key_le a b <->
  PyFloat.leb (fst a) (fst b) = true /\
  (PyFloat.leb (fst b) (fst a) = true -> snd a <= snd b).
Proof.
  unfold key_le, key_ltb, PyFloat.eqb, PyFloat.ltb.
  destruct (PyFloat.leb (fst b) (fst a)) eqn:Eba, (PyFloat.leb (fst a) (fst b)) eqn:Eab;
    simpl; rewrite ?Z.ltb_ge; intuition (try congruence).
Qed.

Lemma key_le_total a b : key_le a b \/ key_le b a.
Proof.
  rewrite !key_le_spec.
  pose proof (leb_total (fst a) (fst b)) as Ht.
  destruct (PyFloat.leb (fst a) (fst b)) eqn:Eab, (PyFloat.leb (fst b) (fst a)) eqn:Eba.
  - destruct (Z_le_gt_dec (snd a) (snd b)) as [Hz|Hz].
    + left. split; [reflexivity | intros _; exact Hz].
    + right. split; [reflexivity | intros _; lia].
  - left. split; [reflexivity | discriminate].
  - right. split; [reflexivity | discriminate].
  - destruct Ht; discriminate.
Qed.

Lemma key_le_trans a b c : key_le a b -> key_le b c -> key_le a c.
Proof.
  rewrite !key_le_spec. intros [Hab Hab'] [Hbc Hbc']. split.
  - eapply leb_trans; eassumption.
  - intros Hca.
    assert (PyFloat.leb (fst b) (fst a) = true) by (eapply leb_trans; eassumption).
    assert (PyFloat.leb (fst c) (fst b) = true) by (eapply leb_trans; eassumption).
    specialize (Hab' ltac:(assumption)). specialize (Hbc' ltac:(assumption)). lia.
Qed.

(** ** Sortedness of the stable sort *)

Section SortSorted.
Context {A K : Type} (lt : K -> K -> bool) (key : A -> K).
Let le (a b : K) : Prop := lt b a = false.
Hypothesis le_total : forall a b, le a b \/ le b a.
Hypothesis le_trans : forall a b c, le a b -> le b c -> le a c.
Let R (x y : A) : Prop := le (key x) (key y).

Lemma insert_by_sorted x l :
  StronglySorted R l -> StronglySorted R (insert_by lt key x l).
Proof.
  induction 1 as [|y l Hl IH Hy]; simpl.
  - constructor; constructor.
  - destruct (lt (key y) (key x)) eqn:E.
    + constructor; [assumption|].
      eapply Permutation_Forall; [symmetry; apply insert_by_perm|].
      constructor; [|assumption].
      destruct (le_total (key x) (key y)) as [H|H]; [unfold le in H; congruence | exact H].
    + constructor; [constructor; assumption|].
      constructor; [exact E|].
      eapply Forall_impl; [|exact Hy]. intros z Hz. eapply le_trans; [exact E | exact Hz].
Qed.

Lemma sort_by_sorted l : StronglySorted R (sort_by lt key l).
Proof.
  induction l as [|x l IH]; simpl; [constructor | now apply insert_by_sorted].
Qed.
End SortSorted.

Lemma StronglySorted_map {A B} (R : A -> A -> Prop) (R' : B -> B -> Prop)
      (Q : A -> Prop) (f : A -> B) l :
  (forall x y, Q x -> Q y -> R x y -> R' (f x) (f y)) ->
  Forall Q l -> StronglySorted R l -> StronglySorted R' (map f l).
Proof.
  intros H HQ Hs. induction Hs as [|x l Hl IH Hx]; simpl; [constructor|].
  inversion HQ as [|? ? Qx Ql]; subst. constructor; [auto|].
  apply Forall_map. rewrite Forall_forall in *. intros y Hy. apply H; auto.
Qed.

(** ** The search (lines 124-138) *)

(** The collected results are the feasible candidates, in range order. *)
Lemma collect_results_spec demands : forall lengths results,
  collect_results demands lengths = Some (Ok results) ->
  forall x, In x results <->
            In (stock_length x) lengths /\
            greedy_cutting_optimization (stock_length x) demands = Some (Ok (sr_result x)).
Proof.
  induction lengths as [|l ls IH]; intros results H x; simpl in H.
  - inversion H. simpl. tauto.
  - destruct (greedy_cutting_optimization l demands) as [[r|e|ex]|] eqn:Eo; try discriminate.
    + destruct (collect_results demands ls) as [[rs|e|ex]|] eqn:Ec; try discriminate.
      inversion H. subst results. simpl. rewrite (IH rs eq_refl x). split.
      * intros [<-|[Hin Hopt]]; simpl; auto.
      * intros [[Heq|Hin] Hopt]; [|auto]. left. destruct x as [sl sr]. simpl in *.
        subst sl. rewrite Eo in Hopt. inversion Hopt. reflexivity.
    + rewrite (IH results H x). simpl. split; [tauto|].
      intros [[Heq|Hin] Hopt]; [rewrite <- Heq in Hopt; congruence | auto].
Qed.

(** The key of a result that the optimizer returned always exists: the
    rendered text reads back as a float. *)
Lemma rendered_utilization_ok stock demands r :
  greedy_cutting_optimization stock demands = Some (Ok r) ->
  exists u, rendered_utilization r = Ok u.
Proof.
  intros H. destruct (total_utilization_rendered _ _ _ H) as (q & Hq & Hu).
  unfold rendered_utilization. rewrite Hu.
  assert (Hwf : float_wf (mul_int q 100)).
  { apply mul_int_wf; [eapply true_div_wf; eassumption | lia]. }
  rewrite strip_format_2f by assumption.
  rewrite py_float_format_2f by assumption. eauto.
Qed.

Lemma decorate_spec l : forall kl,
  decorate l = Ok kl ->
  map snd kl = l /\ Forall (fun kx => sort_key (snd kx) = Ok (fst kx)) kl.
Proof.
  induction l as [|x l IH]; intros kl H; simpl in H.
  - inversion H. simpl. auto.
  - destruct (sort_key x) as [k| |] eqn:Ek; simpl in H; try discriminate.
    destruct (decorate l) as [kl'| |] eqn:Ed; simpl in H; try discriminate.
    inversion H. subst kl. destruct (IH kl' eq_refl) as [Hm Hf].
    simpl. split; [now rewrite Hm | constructor; assumption].
Qed.

Lemma decorate_ok l :
  Forall (fun x => exists u, rendered_utilization (sr_result x) = Ok u) l ->
  exists kl, decorate l = Ok kl.
Proof.
  induction 1 as [|x l [u Hu] Hl [kl IH]]; simpl; [eauto|].
  unfold sort_key. rewrite Hu. simpl. rewrite IH. simpl. eauto.
Qed.

Lemma sort_key_ranked a b ka kb :
  sort_key a = Ok ka -> sort_key b = Ok kb -> key_le ka kb -> ranked_before a b.
Proof.
  unfold sort_key. intros Ha Hb Hle.
  destruct (rendered_utilization (sr_result a)) as [ua| |] eqn:Ea; simpl in Ha; try discriminate.
  destruct (rendered_utilization (sr_result b)) as [ub| |] eqn:Eb; simpl in Hb; try discriminate.
  inversion Ha. inversion Hb. subst ka kb.
  apply key_le_spec in Hle. simpl in Hle. rewrite !leb_neg in Hle.
  exists ua, ub. tauto.
Qed.

(** C5, as the code has it.  When no candidate raises and at least one is
    feasible, the search returns the feasible results, each once, ranked
    on the utilization that was rendered to two decimals and read back
    from the text: every result has a rendered utilization at least that
    of every later one and, where the two are equal, at most as many
    stock units.  In particular the first result has the greatest
    rendered utilization and, among those that equal it, the fewest
    stock units. *)
Theorem search_ranks_by_rendered_utilization
        demands min_length max_length step_length lengths results :
  py_range min_length (max_length + 1) step_length = Ok lengths ->
  collect_results demands lengths = Some (Ok results) ->
  results <> [] ->
  exists ranked,
    find_optimal_stock_length demands min_length max_length step_length
    = Some (Ok ranked) /\
    Permutation ranked results /\
    (forall x, In x ranked <->
               In (stock_length x) lengths /\
               greedy_cutting_optimization (stock_length x) demands
               = Some (Ok (sr_result x))) /\
    StronglySorted ranked_before ranked /\
    (forall first rest, ranked = first :: rest -> Forall (ranked_before first) rest).
Proof.
  intros Hr Hc Hne.
  pose proof (collect_results_spec _ _ _ Hc) as Hspec.
  assert (Hkeys : Forall (fun x => exists u, rendered_utilization (sr_result x) = Ok u) results).
  { apply Forall_forall. intros x Hx. apply Hspec in Hx. destruct Hx as [_ Hopt].
    eapply rendered_utilization_ok; eassumption. }
  destruct (decorate_ok _ Hkeys) as [kl Hd].
  destruct (decorate_spec _ _ Hd) as [Hm Hf].
  set (ranked := map snd (sort_by key_ltb fst kl)).
  assert (Hfind : find_optimal_stock_length demands min_length max_length step_length
                  = Some (Ok ranked)).
  { unfold find_optimal_stock_length. rewrite Hr, Hc.
    destruct results as [|x xs]; [congruence|].
    unfold sort_results. rewrite Hd. reflexivity. }
  assert (Hperm : Permutation ranked results).
  { unfold ranked. rewrite <- Hm. apply Permutation_map. apply sort_by_perm. }
  assert (Hsorted : StronglySorted ranked_before ranked).
  { unfold ranked.
    apply StronglySorted_map
      with (R := fun x y => key_le (fst x) (fst y))
           (Q := fun kx => sort_key (snd kx) = Ok (fst kx)).
    - intros x y Hx Hy Hle. eapply sort_key_ranked; eassumption.
    - eapply Permutation_Forall; [symmetry; apply sort_by_perm | exact Hf].
    - apply (sort_by_sorted key_ltb fst key_le_total key_le_trans). }
  exists ranked. split; [assumption|]. split; [assumption|]. split; [|split].
  - intros x. rewrite <- Hspec. split; apply Permutation_in; [assumption | now symmetry].
  - assumption.
  - intros first rest Heq. rewrite Heq in Hsorted. now inversion Hsorted.
Qed.

Lemma search_ranks_by_rendered_utilization_witness :
  exists lengths results ranked,
    py_range 1000 (1200 + 1) 100 = Ok lengths /\
    collect_results [(355, 10)] lengths = Some (Ok results) /\
    results <> [] /\
    find_optimal_stock_length [(355, 10)] 1000 1200 100 = Some (Ok ranked) /\
    Permutation ranked results /\
    StronglySorted ranked_before ranked.
Proof.
  pose (results := match collect_results [(355, 10)] [1000; 1100; 1200] with
                   | Some (Ok rs) => rs
                   | _ => []
                   end).
  assert (Hr : py_range 1000 (1200 + 1) 100 = Ok [1000; 1100; 1200])
    by (vm_compute; reflexivity).
  assert (Hc : collect_results [(355, 10)] [1000; 1100; 1200] = Some (Ok results))
    by (vm_compute; reflexivity).
  assert (Hne : results <> []) by (vm_compute; discriminate).
  destruct (search_ranks_by_rendered_utilization
              [(355, 10)] 1000 1200 100 [1000; 1100; 1200] results Hr Hc Hne)
    as (ranked & Hfind & Hperm & _ & Hsorted & _).
  exists [1000; 1100; 1200], results, ranked. auto 10.
Defined.

(** C5 as stated fails.  For twenty pieces of 300 and the candidates 2799
    and 4199, both results render as ["71.45%"], so the tie-break puts
    4199 (two stock units) before 2799 (three units), although the
    numeric percentage of 4199, [100 * 6000 / 8398], is strictly below
    that of 2799, [100 * 6000 / 8397]: the first result does not have the
    greatest numeric utilization. *)
Lemma search_ranking_not_numeric :
  exists a b ua ub,
    find_optimal_stock_length [(300, 20)] 2799 4199 1400 = Some (Ok [a; b]) /\
    stock_length a = 4199 /\ stock_length b = 2799 /\
    total_utilization (sr_result a) = PyStr "71.45%" /\
    total_utilization (sr_result b) = PyStr "71.45%" /\
    total_stock_used (sr_result a) = 2 /\ total_stock_used (sr_result b) = 3 /\
    numeric_utilization a = Ok ua /\ numeric_utilization b = Ok ub /\
    PyFloat.ltb ua ub = true /\
    ~ ranked_before_numeric a b.
Proof.
  eexists _, _, _, _.
  split; [vm_compute; reflexivity|].
  split; [reflexivity|]. split; [reflexivity|].
  split; [reflexivity|]. split; [reflexivity|].
  split; [reflexivity|]. split; [reflexivity|].
  split; [vm_compute; reflexivity|]. split; [vm_compute; reflexivity|].
  split; [vm_compute; reflexivity|].
  intros (ua' & ub' & Ha & Hb & Hle & _).
  vm_compute in Ha. vm_compute in Hb. inversion Ha. inversion Hb. subst ua' ub'.
  vm_compute in Hle. discriminate.
Qed.

(** * Properties of the store model *)

(** ** Reads, writes and allocations *)

Lemma frame_refl n h : frame n h h.
Proof. split; auto. Qed.

Lemma frame_trans n h1 h2 h3 : frame n h1 h2 -> frame n h2 h3 -> frame n h1 h3.
Proof.
  intros [L1 R1] [L2 R2]. split; [lia|]. intros l Hl. rewrite R2, R1; auto.
Qed.

Lemma write_length h : forall l o, List.length (Store.write h l o) = List.length h.
Proof.
  induction h as [|x h IH]; intros [|l] o; simpl; auto.
Qed.

Lemma read_write_other h : forall l l' o,
  l <> l' -> Store.read (Store.write h l o) l' = Store.read h l'.
Proof.
  unfold Store.read.
  induction h as [|x h IH]; intros [|l] [|l'] o Hne; simpl; auto; try congruence.
Qed.

Lemma read_write_same h : forall l o o',
  Store.read h l = Some o' -> Store.read (Store.write h l o) l = Some o.
Proof.
  unfold Store.read.
  induction h as [|x h IH]; intros [|l] o o'; simpl; auto; try discriminate.
  apply IH.
Qed.

Lemma frame_write n h l o : (n <= l)%nat -> frame n h (Store.write h l o).
Proof.
  intros Hl. split; [rewrite write_length; lia|].
  intros l' Hl'. apply read_write_other. lia.
Qed.

Lemma frame_alloc n h o :
  (n <= List.length h)%nat -> frame n h (fst (Store.alloc h o)).
Proof.
  intros Hn. simpl. split; [rewrite length_app; simpl; lia|].
  intros l Hl. unfold Store.read. apply nth_error_app1. lia.
Qed.

Lemma read_alloc h o : Store.read (fst (Store.alloc h o)) (snd (Store.alloc h o)) = Some o.
Proof.
  simpl. unfold Store.read. rewrite nth_error_app2 by lia.
  now rewrite Nat.sub_diag.
Qed.

(** ** The frame of the optimizer and of the search *)

Lemma store_fill_unit_frame n locs : forall rl pat h,
  Forall (fun l => (n <= l)%nat) locs ->
  frame n h (fst (Store.fill_unit locs rl pat h)).
Proof.
  induction locs as [|l locs IH]; intros rl pat h Hall; simpl.
  - apply frame_refl.
  - inversion Hall as [|? ? Hl Hls]; subst.
    destruct (Store.read h l) as [[d|d]|]; simpl; try apply frame_refl.
    destruct (cut_demand d rl pat) as [[[d' rl'] pat']| |]; simpl; try apply frame_refl.
    eapply frame_trans; [apply frame_write; eassumption | now apply IH].
Qed.

Lemma store_cut_one_stock_frame n stock locs lc h :
  Forall (fun l => (n <= l)%nat) locs ->
  frame n h (fst (Store.cut_one_stock stock locs lc h)).
Proof.
  intros Hall. unfold Store.cut_one_stock.
  pose proof (store_fill_unit_frame n locs stock [] h Hall) as Hf.
  destruct (Store.fill_unit locs stock [] h) as [h' r]. exact Hf.
Qed.

Lemma store_greedy_loop_frame n stock locs : forall fuel lc h,
  Forall (fun l => (n <= l)%nat) locs ->
  frame n h (fst (Store.greedy_loop fuel stock locs lc h)).
Proof.
  induction fuel as [|fuel IH]; intros lc h Hall; simpl.
  - destruct (Store.any_remaining h locs); apply frame_refl.
  - destruct (Store.any_remaining h locs); [|apply frame_refl].
    pose proof (store_cut_one_stock_frame n stock locs lc h Hall) as Hc.
    destruct (Store.cut_one_stock stock locs lc h) as [h' [lc'|e|x]]; simpl in *; try exact Hc.
    eapply frame_trans; [exact Hc | now apply IH].
Qed.

(** The new records live at the locations from the old end of the heap on. *)
Lemma new_records_spec items : forall h,
  fst (Store.new_records items h)
  = h ++ map (fun kv => Store.ORecord (mkDemand (fst kv) (snd kv))) items /\
  snd (Store.new_records items h) = seq (List.length h) (List.length items).
Proof.
  induction items as [|kv items IH]; intros h; simpl.
  - now rewrite app_nil_r.
  - destruct (IH (h ++ [Store.ORecord (mkDemand (fst kv) (snd kv))])) as [H1 H2].
    destruct (Store.new_records items _) as [h2 rs]. simpl in *.
    rewrite H1, H2. rewrite <- app_assoc. simpl. rewrite length_app. simpl.
    now replace (List.length h + 1)%nat with (S (List.length h)) by lia.
Qed.

Lemma new_records_frame n items h :
  (n <= List.length h)%nat ->
  frame n h (fst (Store.new_records items h)) /\
  Forall (fun l => (n <= l)%nat) (snd (Store.new_records items h)).
Proof.
  intros Hn. destruct (new_records_spec items h) as [-> ->]. split.
  - split; [rewrite length_app; lia|].
    intros l Hl. unfold Store.read. apply nth_error_app1. lia.
  - apply Forall_forall. intros l Hl. apply in_seq in Hl. lia.
Qed.

(** The optimizer leaves every object that existed before the call as
    it was. *)
Lemma store_optimizer_frame n stock demands h :
  (n <= List.length h)%nat ->
  frame n h (fst (Store.greedy_cutting_optimization stock demands h)).
Proof.
  intros Hn. unfold Store.greedy_cutting_optimization.
  destruct (Store.read h demands) as [[d|d]|]; simpl; try apply frame_refl.
  destruct (first_oversized stock d); simpl; [apply frame_refl|].
  destruct (new_records_frame n d h Hn) as [Hf Hlocs].
  destruct (Store.new_records d h) as [h1 locs]. simpl in *.
  assert (Hsorted : Forall (fun l => (n <= l)%nat)
                           (sort_by Z.ltb (Store.length_key h1) locs)).
  { eapply Permutation_Forall; [symmetry; apply sort_by_perm | exact Hlocs]. }
  pose proof (store_greedy_loop_frame n stock _
                (Z.to_nat (Store.open_quantity h1 (sort_by Z.ltb (Store.length_key h1) locs)))
                (Store.mkLocals [] 0 0) h1 Hsorted) as Hl.
  destruct (Store.greedy_loop _ stock _ _ h1) as [h2 o]. simpl in *.
  eapply frame_trans; eassumption.
Qed.

Lemma store_collect_frame demands lengths : forall n h,
  (n <= List.length h)%nat ->
  frame n h (fst (Store.collect_results demands lengths h)).
Proof.
  induction lengths as [|len lengths IH]; intros n h Hn; simpl.
  - apply frame_refl.
  - destruct (Store.read h demands) as [[d|d]|]; simpl; try apply frame_refl.
    pose proof (frame_alloc n h (Store.ODict d) Hn) as Ha. simpl in Ha.
    assert (Hn1 : (n <= List.length (h ++ [Store.ODict d]))%nat)
      by (rewrite length_app; lia).
    pose proof (store_optimizer_frame n len (List.length h) _ Hn1) as Ho.
    destruct (Store.greedy_cutting_optimization len (List.length h) (h ++ [Store.ODict d]))
      as [h2 o]. simpl in Ho.
    assert (H02 : frame n h h2) by (eapply frame_trans; eassumption).
    assert (Hn2 : (n <= List.length h2)%nat) by (destruct H02; lia).
    pose proof (IH n h2 Hn2) as Hrec.
    destruct o as [[r|e|x]|]; simpl; try exact H02.
    + destruct (Store.collect_results demands lengths h2) as [h3 o']. simpl in *.
      eapply frame_trans; eassumption.
    + eapply frame_trans; eassumption.
Qed.

Lemma store_search_frame n demands min_length max_length step_length h :
  (n <= List.length h)%nat ->
  frame n h (fst (Store.find_optimal_stock_length demands min_length max_length
                                                  step_length h)).
Proof.
  intros Hn. unfold Store.find_optimal_stock_length.
  destruct (py_range min_length (max_length + 1) step_length) as [lengths| |];
    simpl; try apply frame_refl.
  pose proof (store_collect_frame demands lengths n h Hn) as Hc.
  destruct (Store.collect_results demands lengths h) as [h' o]. exact Hc.
Qed.

(** ** The store model computes what the value model computes *)

Lemma snapshot_frame h h' locs :
  (forall l, In l locs -> Store.read h' l = Store.read h l) ->
  Store.snapshot h' locs = Store.snapshot h locs.
Proof.
  induction locs as [|l locs IH]; intros H; simpl; [reflexivity|].
  rewrite H by (now left). rewrite IH; [reflexivity|]. intros; apply H; now right.
Qed.

Lemma store_fill_unit_other locs : forall rl pat h l,
  ~ In l locs -> Store.read (fst (Store.fill_unit locs rl pat h)) l = Store.read h l.
Proof.
  induction locs as [|l0 locs IH]; intros rl pat h l Hnot; simpl; [reflexivity|].
  destruct (Store.read h l0) as [[d|d]|]; simpl; try reflexivity.
  destruct (cut_demand d rl pat) as [[[d' rl'] pat']| |]; simpl; try reflexivity.
  rewrite IH by (simpl in Hnot; tauto).
  apply read_write_other. simpl in Hnot. tauto.
Qed.

(** The [for] loop on the heap does to the records what [fill_unit] does
    to the list of their values. *)
Lemma store_fill_unit_refines locs : forall ds rl pat h,
  NoDup locs -> Store.snapshot h locs = Some ds ->
  match fill_unit ds rl pat with
  | Ok (ds', rl', pat') =>
      snd (Store.fill_unit locs rl pat h) = Ok (rl', pat') /\
      Store.snapshot (fst (Store.fill_unit locs rl pat h)) locs = Some ds'
  | Err e => snd (Store.fill_unit locs rl pat h) = Err e
  | Raise x => snd (Store.fill_unit locs rl pat h) = Raise x
  end.
Proof.
  induction locs as [|l locs IH]; intros ds rl pat h Hnd Hsnap; simpl in Hsnap.
  - inversion Hsnap. subst. simpl. auto.
  - destruct (Store.read h l) as [[d|d]|] eqn:Er; try discriminate.
    destruct (Store.snapshot h locs) as [ds0|] eqn:Es; [|discriminate].
    inversion Hsnap. subst ds. clear Hsnap.
    inversion Hnd as [|? ? Hnot Hnd']; subst.
    simpl. rewrite Er.
    destruct (cut_demand d rl pat) as [[[d1 rl1] pat1]| |] eqn:Ec; simpl; auto.
    set (h1 := Store.write h l (Store.ORecord d1)).
    assert (Hs1 : Store.snapshot h1 locs = Some ds0).
    { rewrite <- Es. apply snapshot_frame. intros l' Hin.
      apply read_write_other. intros ->. contradiction. }
    specialize (IH ds0 rl1 pat1 h1 Hnd' Hs1).
    destruct (fill_unit ds0 rl1 pat1) as [[[ds' rl'] pat']| |]; simpl; auto.
    destruct IH as [Ho Hs]. split; [assumption|].
    rewrite store_fill_unit_other by assumption.
    unfold h1 at 1. rewrite (read_write_same _ _ _ _ Er), Hs. reflexivity.
Qed.

Lemma store_any_remaining h locs ds :
  Store.snapshot h locs = Some ds -> Store.any_remaining h locs = any_remaining ds.
Proof.
  revert ds. induction locs as [|l locs IH]; intros ds H; simpl in H.
  - inversion H. reflexivity.
  - destruct (Store.read h l) as [[d|d]|] eqn:Er; try discriminate.
    destruct (Store.snapshot h locs) as [ds0|]; [|discriminate].
    inversion H. subst. simpl. rewrite Er. now rewrite (IH ds0).
Qed.

Lemma store_open_quantity h locs ds :
  Store.snapshot h locs = Some ds -> Store.open_quantity h locs = open_quantity ds.
Proof.
  revert ds. induction locs as [|l locs IH]; intros ds H; simpl in H.
  - inversion H. reflexivity.
  - destruct (Store.read h l) as [[d|d]|] eqn:Er; try discriminate.
    destruct (Store.snapshot h locs) as [ds0|]; [|discriminate].
    inversion H. subst. simpl. rewrite Er. now rewrite (IH ds0).
Qed.

Lemma store_cut_one_stock_refines stock locs st h :
  NoDup locs -> Store.snapshot h locs = Some (st_demand_list st) ->
  snd (Store.cut_one_stock stock locs (locals_of st) h)
  = map_outcome locals_of (cut_one_stock stock st) /\
  forall st', cut_one_stock stock st = Ok st' ->
              Store.snapshot (fst (Store.cut_one_stock stock locs (locals_of st) h)) locs
              = Some (st_demand_list st').
Proof.
  intros Hnd Hs. unfold Store.cut_one_stock, cut_one_stock.
  pose proof (store_fill_unit_refines locs _ stock [] h Hnd Hs) as Hf.
  destruct (Store.fill_unit locs stock [] h) as [h' r]. simpl in Hf.
  destruct (fill_unit (st_demand_list st) stock []) as [[[ds rl] pat]| |]; simpl.
  - destruct Hf as [-> Hs']. simpl. destruct pat as [|kv pat]; [split; [reflexivity|discriminate]|].
    destruct (true_div (stock - rl) stock) as [q| |]; simpl;
      (split; [reflexivity|]); try discriminate.
    intros st' H. inversion H. simpl. assumption.
  - subst r. split; [reflexivity | discriminate].
  - subst r. split; [reflexivity | discriminate].
Qed.

Lemma store_greedy_loop_refines stock locs : forall fuel st h,
  NoDup locs -> Store.snapshot h locs = Some (st_demand_list st) ->
  snd (Store.greedy_loop fuel stock locs (locals_of st) h)
  = option_map (map_outcome locals_of) (greedy_loop fuel stock st).
Proof.
  induction fuel as [|fuel IH]; intros st h Hnd Hs; simpl;
    rewrite (store_any_remaining _ _ _ Hs).
  - destruct (any_remaining (st_demand_list st)); reflexivity.
  - destruct (any_remaining (st_demand_list st)); [|reflexivity].
    destruct (store_cut_one_stock_refines stock locs st h Hnd Hs) as [Ho Hsnap].
    destruct (Store.cut_one_stock stock locs (locals_of st) h) as [h' o]. simpl in *.
    destruct (cut_one_stock stock st) as [st'| |]; simpl in Ho; subst o; try reflexivity.
    apply IH; auto.
Qed.

(** Sorting the references by the length behind them sorts the records. *)
Lemma snapshot_insert h x d locs ds :
  Store.read h x = Some (Store.ORecord d) ->
  Store.snapshot h locs = Some ds ->
  Store.snapshot h (insert_by Z.ltb (Store.length_key h) x locs)
  = Some (insert_by Z.ltb (fun d => - d_length d) d ds).
Proof.
  intros Hx. revert ds. induction locs as [|y locs IH]; intros ds Hs; simpl in Hs.
  - inversion Hs. simpl. now rewrite Hx.
  - destruct (Store.read h y) as [[dy|dy]|] eqn:Ey; try discriminate.
    destruct (Store.snapshot h locs) as [ds0|] eqn:Es; [|discriminate].
    inversion Hs. subst ds. simpl.
    unfold Store.length_key at 1 2. rewrite Ey, Hx.
    destruct (- d_length dy <? - d_length d); simpl.
    + rewrite Ey. now rewrite (IH ds0 eq_refl).
    + now rewrite Hx, Ey, Es.
Qed.

Lemma snapshot_sort h locs : forall ds,
  Store.snapshot h locs = Some ds ->
  Store.snapshot h (sort_by Z.ltb (Store.length_key h) locs)
  = Some (sort_by Z.ltb (fun d => - d_length d) ds).
Proof.
  induction locs as [|x locs IH]; intros ds Hs; simpl in Hs.
  - inversion Hs. reflexivity.
  - destruct (Store.read h x) as [[d|d]|] eqn:Ex; try discriminate.
    destruct (Store.snapshot h locs) as [ds0|] eqn:Es; [|discriminate].
    inversion Hs. subst ds. simpl.
    apply snapshot_insert; [assumption | now apply IH].
Qed.

Lemma new_records_snapshot items h :
  Store.snapshot (fst (Store.new_records items h)) (snd (Store.new_records items h))
  = Some (map (fun kv => mkDemand (fst kv) (snd kv)) items).
Proof.
  revert h. induction items as [|kv items IH]; intros h; simpl; [reflexivity|].
  specialize (IH (h ++ [Store.ORecord (mkDemand (fst kv) (snd kv))])).
  pose proof (new_records_frame (S (List.length h)) items
                (h ++ [Store.ORecord (mkDemand (fst kv) (snd kv))])) as [Hf _].
  { rewrite length_app. simpl. lia. }
  destruct (Store.new_records items _) as [h2 rs]. simpl in *.
  destruct Hf as [_ Hread]. rewrite (Hread (List.length h)) by lia.
  unfold Store.read at 1. rewrite nth_error_app2 by lia. rewrite Nat.sub_diag. simpl.
  now rewrite IH.
Qed.

(** Called on a heap whose location [demands] holds the dict [d], the
    optimizer over the store returns what the optimizer over values
    returns for [d]. *)
Lemma store_optimizer_refines stock demands d h :
  Store.read h demands = Some (Store.ODict d) ->
  snd (Store.greedy_cutting_optimization stock demands h)
  = greedy_cutting_optimization stock d.
Proof.
  intros Hr. unfold Store.greedy_cutting_optimization, greedy_cutting_optimization, greedy_plan.
  rewrite Hr. destruct (first_oversized stock d); [reflexivity|].
  pose proof (new_records_snapshot d h) as Hs.
  destruct (new_records_spec d h) as [_ Hlocs].
  destruct (Store.new_records d h) as [h1 locs]. simpl in *.
  apply snapshot_sort in Hs. fold (make_demand_list d) in Hs.
  assert (Hnd : NoDup (sort_by Z.ltb (Store.length_key h1) locs)).
  { eapply Permutation_NoDup; [symmetry; apply sort_by_perm|]. subst locs. apply seq_NoDup. }
  rewrite (store_open_quantity _ _ _ Hs).
  pose proof (store_greedy_loop_refines stock _
                (Z.to_nat (open_quantity (make_demand_list d)))
                (mkState (make_demand_list d) [] 0 0) h1 Hnd Hs) as Hl.
  change (locals_of (mkState (make_demand_list d) [] 0 0)) with (Store.mkLocals [] 0 0) in Hl.
  destruct (Store.greedy_loop _ stock _ _ h1) as [h2 o]. simpl in *. subst o.
  destruct (greedy_loop _ stock _) as [[st|e|x]|]; reflexivity.
Qed.

Lemma store_collect_refines demands d lengths : forall h,
  Store.read h demands = Some (Store.ODict d) ->
  snd (Store.collect_results demands lengths h) = collect_results d lengths.
Proof.
  induction lengths as [|len lengths IH]; intros h Hr; simpl; [reflexivity|].
  rewrite Hr.
  assert (Hcopy : Store.read (h ++ [Store.ODict d]) (List.length h) = Some (Store.ODict d))
    by apply (read_alloc h (Store.ODict d)).
  pose proof (store_optimizer_refines len (List.length h) d _ Hcopy) as Ho.
  assert (Hlt : (demands < List.length h)%nat).
  { apply nth_error_Some. unfold Store.read in Hr. congruence. }
  pose proof (frame_alloc (List.length h) h (Store.ODict d) (le_n _)) as Ha. simpl in Ha.
  pose proof (store_optimizer_frame (List.length h) len (List.length h)
                (h ++ [Store.ODict d])) as Hf.
  specialize (Hf ltac:(rewrite length_app; lia)).
  destruct (Store.greedy_cutting_optimization len (List.length h) (h ++ [Store.ODict d]))
    as [h2 o]. simpl in *. subst o.
  assert (Hr2 : Store.read h2 demands = Some (Store.ODict d)).
  { destruct Hf as [_ Hf]. destruct Ha as [_ Ha]. rewrite Hf, Ha by lia. assumption. }
  specialize (IH h2 Hr2).
  destruct (greedy_cutting_optimization len d) as [[r|e|x]|]; simpl; try reflexivity.
  - destruct (Store.collect_results demands lengths h2) as [h3 o']. simpl in *. subst o'.
    destruct (collect_results d lengths) as [[rs|e|x]|]; reflexivity.
  - assumption.
Qed.

Lemma store_search_refines demands d min_length max_length step_length h :
  Store.read h demands = Some (Store.ODict d) ->
  snd (Store.find_optimal_stock_length demands min_length max_length step_length h)
  = find_optimal_stock_length d min_length max_length step_length.
Proof.
  intros Hr. unfold Store.find_optimal_stock_length, find_optimal_stock_length.
  destruct (py_range min_length (max_length + 1) step_length) as [lengths| |];
    try reflexivity.
  pose proof (store_collect_refines demands d lengths h Hr) as Hc.
  destruct (Store.collect_results demands lengths h) as [h' o]. simpl in *. subst o.
  destruct (collect_results d lengths) as [[[|r rs]|e|x]|]; reflexivity.
Qed.

(** ** The caller's demand set *)

(** C8. Whatever the heap, the stock length and the outcome, after a call
    of the optimizer or of the search with a reference to the caller's
    demand dict, that dict holds the mapping it held before, and so does
    every other object that existed before the call: the records that
    the loop mutates, and the copies that the search makes, are new
    objects.  The outcomes are those of the functions on values. *)
Theorem caller_demands_unchanged h demands d :
  Store.read h demands = Some (Store.ODict d) ->
  (forall stock,
     let '(h', o) := Store.greedy_cutting_optimization stock demands h in
     Store.read h' demands = Some (Store.ODict d) /\
     (forall l, (l < List.length h)%nat -> Store.read h' l = Store.read h l) /\
     o = greedy_cutting_optimization stock d) /\
  (forall min_length max_length step_length,
     let '(h', o) := Store.find_optimal_stock_length demands min_length max_length
                                                     step_length h in
     Store.read h' demands = Some (Store.ODict d) /\
     (forall l, (l < List.length h)%nat -> Store.read h' l = Store.read h l) /\
     o = find_optimal_stock_length d min_length max_length step_length).
Proof.
  intros Hr.
  assert (Hlt : (demands < List.length h)%nat).
  { apply nth_error_Some. unfold Store.read in Hr. congruence. }
  split.
  - intros stock.
    pose proof (store_optimizer_frame (List.length h) stock demands h (le_n _)) as [_ Hf].
    pose proof (store_optimizer_refines stock demands d h Hr) as Ho.
    destruct (Store.greedy_cutting_optimization stock demands h) as [h' o]. simpl in *.
    split; [rewrite Hf by assumption; exact Hr|]. split; assumption.
  - intros min_length max_length step_length.
    pose proof (store_search_frame (List.length h) demands min_length max_length
                  step_length h (le_n _)) as [_ Hf].
    pose proof (store_search_refines demands d min_length max_length step_length h Hr) as Ho.
    destruct (Store.find_optimal_stock_length _ _ _ _ h) as [h' o]. simpl in *.
    split; [rewrite Hf by assumption; exact Hr|]. split; assumption.
Qed.

Lemma caller_demands_unchanged_witness :
  let h := [Store.ODict [(400, 1); (600, 1)]] in
  let '(h', o) := Store.greedy_cutting_optimization 1000 0%nat h in
  Store.read h' 0%nat = Some (Store.ODict [(400, 1); (600, 1)]) /\
  (forall l, (l < List.length h)%nat -> Store.read h' l = Store.read h l) /\
  o = greedy_cutting_optimization 1000 [(400, 1); (600, 1)].
Proof.
  exact (proj1 (caller_demands_unchanged
                  [Store.ODict [(400, 1); (600, 1)]] 0%nat [(400, 1); (600, 1)] eq_refl)
               1000).
Defined.

(** * Further properties of the optimizer *)

(** ** Sums *)

Lemma sum_of_app {A} (f : A -> Z) a b : sum_of f (a ++ b) = sum_of f a + sum_of f b.
Proof. induction a as [|x a IH]; simpl; [reflexivity | rewrite IH; lia]. Qed.

Lemma sum_of_perm {A} (f : A -> Z) l l' : Permutation l l' -> sum_of f l = sum_of f l'.
Proof. induction 1; simpl; lia. Qed.

Lemma sum_of_map {A B} (f : B -> Z) (g : A -> B) l :
  sum_of f (map g l) = sum_of (fun x => f (g x)) l.
Proof. induction l as [|x l IH]; simpl; [reflexivity | now rewrite IH]. Qed.

Lemma sum_of_zero {A} (f : A -> Z) l : Forall (fun x => f x = 0) l -> sum_of f l = 0.
Proof. induction 1 as [|x l Hx Hl IH]; simpl; lia. Qed.

Lemma open_length_demanded demands :
  open_length (make_demand_list demands) = demanded_length demands.
Proof.
  unfold open_length, demanded_length.
  rewrite (sum_of_perm _ _ _ (make_demand_list_perm demands)).
  now rewrite sum_of_map.
Qed.

Lemma open_quantity_demanded demands :
  open_quantity (make_demand_list demands) = demanded_pieces demands.
Proof.
  unfold demanded_pieces.
  change (open_quantity (make_demand_list demands))
    with (sum_of (fun d => Z.max 0 (d_quantity d)) (make_demand_list demands)).
  rewrite (sum_of_perm _ _ _ (make_demand_list_perm demands)).
  now rewrite sum_of_map.
Qed.

(** ** What a successful call returns *)

(** A result comes from a final state of the loop. *)
Lemma optimizer_returns stock demands r :
  greedy_cutting_optimization stock demands = Some (Ok r) ->
  exists st,
    greedy_plan stock demands = Some (Ok st) /\
    first_oversized stock demands = None /\
    reachable stock (make_demand_list demands) st /\
    any_remaining (st_demand_list st) = false /\
    cutting_plans r = map format_plan (st_cutting_plans st) /\
    total_stock_used r = st_total_stock_used st /\
    total_waste r = st_total_stock_used st * stock - st_total_used_length st.
Proof.
  unfold greedy_cutting_optimization. intros H.
  destruct (greedy_plan stock demands) as [[st|e|x]|] eqn:Ep; simpl in H; try discriminate.
  inversion H as [Hfmt]. clear H. exists st. split; [reflexivity|].
  unfold greedy_plan in Ep.
  destruct (first_oversized stock demands); [discriminate|]. split; [reflexivity|].
  apply (greedy_loop_reachable stock (make_demand_list demands)) in Ep; [|constructor].
  destruct Ep as [Hr Hany]. split; [assumption|]. split; [assumption|].
  unfold format_result, format_totals in Hfmt.
  destruct (true_div _ _) as [q| |]; simpl in Hfmt; try discriminate.
  inversion Hfmt. simpl. auto.
Qed.

(** ** The length that a unit takes (lines 67-77) *)

Lemma fill_unit_open_length ds : forall rl pat ds' rl' pat',
  fill_unit ds rl pat = Ok (ds', rl', pat') ->
  rl + open_length ds' = rl' + open_length ds.
Proof.
  induction ds as [|d ds IH]; intros rl pat ds' rl' pat' H.
  - simpl in H. inversion H. reflexivity.
  - fill_cons H. specialize (IH _ _ _ _ _ Hfill).
    unfold open_length in *. inversion Hcut; subst d1 rl1 pat1; simpl; lia.
Qed.

Lemma reachable_used_length stock ds0 st :
  reachable stock ds0 st ->
  st_total_used_length st + open_length (st_demand_list st) = open_length ds0.
Proof.
  revert st.
  apply (reachable_inv
           (fun st => st_total_used_length st + open_length (st_demand_list st)
                      = open_length ds0)); [simpl; lia|].
  intros s s' Hs _ Hc. apply cut_one_stock_inv in Hc.
  destruct Hc as (ds & rl & pat & q & Hf & _ & _ & ->). simpl.
  apply fill_unit_open_length in Hf. lia.
Qed.

Lemma nonneg_quantities demands :
  (forall l q, In (l, q) demands -> 0 <= q) ->
  Forall (fun d => 0 <= d_quantity d) (make_demand_list demands).
Proof. intros H. apply (make_demand_list_Forall (fun _ q => 0 <= q)). exact H. Qed.

(** X1. Whenever the optimizer returns a plan, the total waste is the
    stock consumed minus the length that the demand set asks for. *)
Theorem total_waste_is_stock_minus_demand stock demands r :
  (forall l q, In (l, q) demands -> 0 <= q) ->
  greedy_cutting_optimization stock demands = Some (Ok r) ->
  total_waste r = total_stock_used r * stock - demanded_length demands.
Proof.
  intros Hnn H. apply optimizer_returns in H.
  destruct H as (st & _ & _ & Hr & Hany & _ & Hu & Hw).
  pose proof (reachable_used_length _ _ _ Hr) as Hlen.
  pose proof (reachable_nonneg _ _ _ (nonneg_quantities _ Hnn) Hr) as Hq.
  pose proof (none_remaining_zero _ Hq Hany) as Hz.
  assert (H0 : open_length (st_demand_list st) = 0).
  { apply sum_of_zero. eapply Forall_impl; [|exact Hz]. simpl. intros d ->. lia. }
  rewrite open_length_demanded in Hlen. rewrite Hw, Hu. lia.
Qed.

Lemma total_waste_is_stock_minus_demand_witness :
  exists r,
    greedy_cutting_optimization 3800 [(355, 10); (200, 5)] = Some (Ok r) /\
    total_waste r = total_stock_used r * 3800 - demanded_length [(355, 10); (200, 5)].
Proof.
  eexists. split; [vm_compute; reflexivity|].
  apply (total_waste_is_stock_minus_demand 3800 [(355, 10); (200, 5)]).
  - intros l q [H|[H|[]]]; inversion H; lia.
  - vm_compute. reflexivity.
Defined.

(** ** Dictionaries, continued *)

Lemma dict_In_get d k v : dict_wf d -> In (k, v) d -> dict_get d k = Some v.
Proof.
  unfold dict_wf. induction d as [|[k' v'] d IH]; simpl; [tauto|].
  intros Hnd [Heq|Hin].
  - inversion Heq. subst. now rewrite Z.eqb_refl.
  - inversion Hnd as [|? ? Hnot Hnd']; subst.
    destruct (k' =? k) eqn:E; [|auto].
    apply Z.eqb_eq in E. subst k'. exfalso. apply Hnot.
    change k with (fst (k, v)). now apply in_map.
Qed.

Lemma dict_wf_NoDup d : dict_wf d -> NoDup d.
Proof. unfold dict_wf. apply NoDup_map_inv. Qed.

(** Equal dicts hold the same items. *)
Lemma dict_eqb_perm a b :
  dict_wf a -> dict_wf b -> dict_eqb a b = true -> Permutation a b.
Proof.
  intros Ha Hb He. pose proof (dict_eqb_get a b Ha Hb He) as Hget.
  apply NoDup_Permutation; [now apply dict_wf_NoDup | now apply dict_wf_NoDup |].
  intros [k v]. split; intros Hin.
  - apply dict_get_In. rewrite <- Hget. now apply dict_In_get.
  - apply dict_get_In. rewrite Hget. now apply dict_In_get.
Qed.

Lemma pattern_length_perm a b : Permutation a b -> pattern_length a = pattern_length b.
Proof. induction 1; simpl; lia. Qed.

Lemma dict_set_In pat k v a b :
  In (a, b) (dict_set pat k v) -> (a, b) = (k, v) \/ In (a, b) pat.
Proof.
  induction pat as [|[k' v'] pat IH]; simpl.
  - intros [H|[]]. now left.
  - destruct (k' =? k) eqn:E; simpl.
    + apply Z.eqb_eq in E. subst k'. intros [H|H]; [now left | right; now right].
    + intros [H|H]; [right; now left|]. apply IH in H. tauto.
Qed.

Lemma sorted_keys_wf pat : StronglySorted Z.gt (map fst pat) -> dict_wf pat.
Proof.
  unfold dict_wf. induction (map fst pat) as [|k ks IH]; intros H; [constructor|].
  inversion H as [|? ? Hs Hall]; subst. constructor; [|auto].
  intros Hin. rewrite Forall_forall in Hall. specialize (Hall _ Hin). lia.
Qed.

(** ** Recording a pattern, continued *)

Lemma bump_existing_some plans pat : forall plans',
  bump_existing plans pat = Some plans' ->
  exists a p b,
    plans = a ++ p :: b /\
    plans' = a ++ mkPlan (p_pattern p) (p_count p + 1) (p_utilization p) (p_waste p) :: b /\
    dict_eqb (p_pattern p) pat = true.
Proof.
  induction plans as [|p ps IH]; intros plans' H; simpl in H; [discriminate|].
  destruct (dict_eqb (p_pattern p) pat) eqn:E.
  - inversion H. exists [], p, ps. auto.
  - destruct (bump_existing ps pat) as [ps'|]; [|discriminate].
    inversion H. destruct (IH ps' eq_refl) as (a & p0 & b & -> & -> & He).
    exists (p :: a), p0, b. auto.
Qed.

Lemma bump_existing_none plans pat :
  bump_existing plans pat = None ->
  Forall (fun p => dict_eqb (p_pattern p) pat = false) plans.
Proof.
  induction plans as [|p ps IH]; simpl; intros H; [constructor|].
  destruct (dict_eqb (p_pattern p) pat) eqn:E; [discriminate|].
  destruct (bump_existing ps pat); [discriminate|]. constructor; auto.
Qed.

Lemma record_pattern_units plans pat u w :
  sum_of p_count (record_pattern plans pat u w) = sum_of p_count plans + 1.
Proof.
  unfold record_pattern. destruct (bump_existing plans pat) as [plans'|] eqn:Eb.
  - apply bump_existing_some in Eb. destruct Eb as (a & p & b & -> & -> & _).
    rewrite !sum_of_app. simpl. lia.
  - rewrite sum_of_app. simpl. lia.
Qed.

Lemma record_pattern_wasted plans pat u w :
  Forall (fun p => dict_eqb (p_pattern p) pat = true -> p_waste p = w) plans ->
  sum_of (fun p => p_count p * p_waste p) (record_pattern plans pat u w)
  = sum_of (fun p => p_count p * p_waste p) plans + w.
Proof.
  intros Hall. unfold record_pattern.
  destruct (bump_existing plans pat) as [plans'|] eqn:Eb.
  - apply bump_existing_some in Eb. destruct Eb as (a & p & b & -> & -> & He).
    apply Forall_app in Hall. destruct Hall as [_ Hall].
    inversion Hall as [|? ? Hp _]; subst. specialize (Hp He).
    rewrite !sum_of_app. unfold sum_of. cbn [fold_right p_count p_waste]. lia.
  - rewrite sum_of_app. unfold sum_of. cbn [fold_right p_count p_waste]. lia.
Qed.

Lemma record_pattern_patterns plans pat u w :
  (map p_pattern (record_pattern plans pat u w) = map p_pattern plans) \/
  (map p_pattern (record_pattern plans pat u w) = map p_pattern plans ++ [pat] /\
   Forall (fun a => dict_eqb a pat = false) (map p_pattern plans)).
Proof.
  unfold record_pattern. destruct (bump_existing plans pat) as [plans'|] eqn:Eb.
  - left. apply bump_existing_some in Eb. destruct Eb as (a & p & b & -> & -> & _).
    rewrite !map_app. reflexivity.
  - right. split; [now rewrite map_app|].
    apply Forall_map. now apply bump_existing_none.
Qed.

Lemma ForallOrdPairs_snoc {A} (R : A -> A -> Prop) l x :
  ForallOrdPairs R l -> Forall (fun a => R a x) l -> ForallOrdPairs R (l ++ [x]).
Proof.
  induction 1 as [|a l Ha Hl IH]; intros Hx; simpl.
  - constructor; constructor.
  - inversion Hx as [|? ? Hax Hlx]; subst. constructor; [|auto].
    apply Forall_app. split; [assumption | constructor; [assumption | constructor]].
Qed.

(** ** The order of the working list (line 57) *)

Lemma sorted_demand_list demands :
  StronglySorted (fun a b : demand => (- d_length b <? - d_length a) = false)
                 (make_demand_list demands).
Proof.
  unfold make_demand_list.
  apply (sort_by_sorted Z.ltb (fun d : demand => - d_length d)).
  - intros a b. destruct (a <? b) eqn:E; [left | now right].
    apply Z.ltb_lt in E. apply Z.ltb_ge. lia.
  - intros a b c. rewrite !Z.ltb_ge. lia.
Qed.

Lemma StronglySorted_weaken {A} (R R' : A -> A -> Prop) l :
  (forall x y, In x l -> In y l -> R x y -> R' x y) ->
  StronglySorted R l -> StronglySorted R' l.
Proof.
  intros H Hs. induction Hs as [|x l Hl IH Hx]; [constructor|].
  constructor.
  - apply IH. intros a b Ha Hb. apply H; now right.
  - rewrite Forall_forall in *. intros y Hy. apply H; [now left | now right | auto].
Qed.

Lemma StronglySorted_map_inv {A B} (R : B -> B -> Prop) (f : A -> B) l :
  StronglySorted R (map f l) -> StronglySorted (fun x y => R (f x) (f y)) l.
Proof.
  induction l as [|x l IH]; simpl; intros H; [constructor|].
  inversion H as [|? ? Hs Hall]; subst. constructor; [auto|].
  rewrite Forall_forall in *. intros y Hy. apply Hall. now apply in_map.
Qed.

(** With distinct keys the working list descends strictly. *)
Lemma demand_list_descends demands :
  dict_wf demands -> StronglySorted Z.gt (map d_length (make_demand_list demands)).
Proof.
  intros Hwf. pose proof (make_demand_list_nodup demands Hwf) as Hnd.
  pose proof (sorted_demand_list demands) as Hs.
  induction Hs as [|d ds Hds IH Hd]; simpl; [constructor|].
  simpl in Hnd. inversion Hnd as [|? ? Hnot Hnd']; subst.
  constructor; [auto|].
  apply Forall_map. rewrite Forall_forall in *. intros x Hx.
  specialize (Hd x Hx). apply Z.ltb_ge in Hd.
  assert (d_length x <> d_length d); [|lia].
  intros Heq. apply Hnot. rewrite <- Heq. now apply in_map.
Qed.

Lemma StronglySorted_remove {A} (R : A -> A -> Prop) a x b :
  StronglySorted R (a ++ x :: b) -> StronglySorted R (a ++ b).
Proof.
  induction a as [|y a IH]; simpl; intros H; inversion H as [|? ? Hs Hall]; subst.
  - assumption.
  - constructor; [auto|].
    apply Forall_app in Hall. destruct Hall as [Ha Hb].
    inversion Hb; subst. apply Forall_app. auto.
Qed.

(** The keys of a pattern come from the working list, in its order. *)
Lemma fill_unit_sorted ds : forall rl pat ds' rl' pat',
  fill_unit ds rl pat = Ok (ds', rl', pat') ->
  StronglySorted Z.gt (map fst pat ++ map d_length ds) ->
  Forall (fun kv => 0 < snd kv) pat ->
  StronglySorted Z.gt (map fst pat') /\
  Forall (fun kv => 0 < snd kv) pat' /\
  incl (map fst pat') (map fst pat ++ map d_length ds).
Proof.
  induction ds as [|d ds IH]; intros rl pat ds' rl' pat' H Hs Hpos.
  - simpl in H. inversion H. subst. rewrite app_nil_r in *.
    split; [assumption|]. split; [assumption | apply incl_refl].
  - fill_cons H. simpl in Hs.
    inversion Hcut as [Hskip|f mp Hq Hl Hdiv Hfl Hc]; subst d1 rl1 pat1.
    + destruct (IH _ _ _ _ _ Hfill (StronglySorted_remove _ _ _ _ Hs) Hpos)
        as (H1 & H2 & H3).
      split; [assumption|]. split; [assumption|].
      intros x Hx. apply H3 in Hx. apply in_app_iff in Hx. apply in_app_iff.
      simpl. tauto.
    + assert (Hfresh : dict_get pat (d_length d) = None).
      { apply dict_get_None_keys. intros Hin.
        clear - Hs Hin. induction (map fst pat) as [|k ks IHk]; [contradiction|].
        simpl in Hs. inversion Hs as [|? ? Hs' Hall]; subst.
        destruct Hin as [->|Hin]; [|auto].
        apply Forall_app in Hall. destruct Hall as [_ Hall].
        inversion Hall; subst. lia. }
      rewrite (dict_set_fresh _ _ _ Hfresh) in Hfill.
      destruct (IH _ _ _ _ _ Hfill) as (H1 & H2 & H3).
      * rewrite map_app. simpl. rewrite <- app_assoc. exact Hs.
      * apply Forall_app. split; [assumption | constructor; [simpl; lia | constructor]].
      * split; [assumption|]. split; [assumption|].
        intros x Hx. apply H3 in Hx. rewrite map_app in Hx. simpl in Hx.
        rewrite <- app_assoc in Hx. exact Hx.
Qed.

(** ** The invariant of the plan *)

Lemma plan_inv_init stock ds0 : plan_inv stock (mkState ds0 [] 0 0).
Proof. constructor; simpl; try constructor; lia. Qed.

Lemma plan_inv_step stock st st' :
  StronglySorted Z.gt (map d_length (st_demand_list st)) ->
  plan_inv stock st -> cut_one_stock stock st = Ok st' -> plan_inv stock st'.
Proof.
  intros Hdesc [Hso Hne Hpc Hct Hdi Hwa Hun Hwd] Hc.
  apply cut_one_stock_inv in Hc. destruct Hc as (ds & rl & pat & q & Hf & Hpat & Hq & ->).
  destruct (fill_unit_sorted _ _ _ _ _ _ Hf Hdesc (Forall_nil _)) as (Hps & Hpp & _).
  assert (Hnd : NoDup (map d_length (st_demand_list st))).
  { clear - Hdesc. induction Hdesc as [|k ks Hs IH Hall]; constructor; [|assumption].
    intros Hin. rewrite Forall_forall in Hall. specialize (Hall _ Hin). lia. }
  destruct (fill_unit_conserve _ _ _ _ _ _ Hf Hnd (fun _ _ => eq_refl) (NoDup_nil _))
    as (Hpw & Hrl & _ & _).
  simpl in Hrl.
  constructor; simpl.
  - apply record_pattern_Forall; auto.
  - apply record_pattern_Forall; auto.
  - apply record_pattern_Forall; auto.
  - apply record_pattern_Forall; simpl; auto. intros; lia. lia.
  - destruct (record_pattern_patterns (st_cutting_plans st) pat (mul_int q 100) rl)
      as [->|[-> Hnew]]; [assumption|].
    now apply ForallOrdPairs_snoc.
  - apply record_pattern_Forall; auto. simpl. lia.
  - rewrite record_pattern_units. lia.
  - rewrite record_pattern_wasted; [lia|].
    rewrite Forall_forall in *. intros p Hin He.
    rewrite (Hwa p Hin).
    rewrite (pattern_length_perm _ _
               (dict_eqb_perm _ _ (sorted_keys_wf _ (Hso p Hin)) Hpw He)).
    lia.
Qed.

Lemma reachable_plan_inv stock demands st :
  dict_wf demands ->
  reachable stock (make_demand_list demands) st -> plan_inv stock st.
Proof.
  intros Hwf Hr.
  assert (H : plan_inv stock st /\
              map d_length (st_demand_list st) = map d_length (make_demand_list demands)).
  { split; [|eapply reachable_lengths; eassumption].
    induction Hr as [|s s' Hr IH Hany Hc]; [apply plan_inv_init|].
    eapply plan_inv_step; [|exact IH|exact Hc].
    rewrite (reachable_lengths _ _ _ Hr). now apply demand_list_descends. }
  apply H.
Qed.

Lemma greedy_plan_reachable stock demands st :
  greedy_plan stock demands = Some (Ok st) ->
  first_oversized stock demands = None /\
  reachable stock (make_demand_list demands) st /\
  any_remaining (st_demand_list st) = false.
Proof.
  unfold greedy_plan. destruct (first_oversized stock demands); [discriminate|].
  intros H. split; [reflexivity|].
  apply (greedy_loop_reachable stock (make_demand_list demands)) in H; [assumption|constructor].
Qed.

(** X2. The two totals of a result are the sums over its entries: the
    stock units are the sum of the counts, and the total waste is the sum
    of count times waste. *)
Theorem totals_are_sums_over_entries stock demands r :
  dict_wf demands ->
  greedy_cutting_optimization stock demands = Some (Ok r) ->
  total_stock_used r = sum_of count (cutting_plans r) /\
  total_waste r = sum_of (fun e => count e * waste e) (cutting_plans r).
Proof.
  intros Hwf H. apply optimizer_returns in H.
  destruct H as (st & _ & _ & Hr & _ & Hcp & Hu & Hw).
  pose proof (reachable_plan_inv _ _ _ Hwf Hr) as Hinv.
  rewrite Hcp, Hu, Hw, !sum_of_map. simpl. split.
  - apply (pi_units _ _ Hinv).
  - apply (pi_wasted _ _ Hinv).
Qed.

Lemma totals_are_sums_over_entries_witness :
  exists r,
    greedy_cutting_optimization 1000 [(400, 3); (300, 4)] = Some (Ok r) /\
    List.length (cutting_plans r) = 3%nat /\
    total_stock_used r = sum_of count (cutting_plans r) /\
    total_waste r = sum_of (fun e => count e * waste e) (cutting_plans r).
Proof.
  eexists. split; [vm_compute; reflexivity|]. split; [reflexivity|].
  apply (totals_are_sums_over_entries 1000 [(400, 3); (300, 4)]).
  - repeat constructor; simpl; intuition lia.
  - vm_compute. reflexivity.
Defined.

(** X3. In the plan that the loop builds no pattern is listed twice and
    every entry stands for at least one stock unit. *)
Theorem plan_entries_are_distinct stock demands st :
  dict_wf demands ->
  greedy_plan stock demands = Some (Ok st) ->
  ForallOrdPairs (fun a b => dict_eqb a b = false) (map p_pattern (st_cutting_plans st)) /\
  Forall (fun p => 1 <= p_count p) (st_cutting_plans st).
Proof.
  intros Hwf H. apply greedy_plan_reachable in H. destruct H as (_ & Hr & _).
  pose proof (reachable_plan_inv _ _ _ Hwf Hr) as Hinv. split.
  - apply (pi_distinct _ _ Hinv).
  - apply (pi_counts _ _ Hinv).
Qed.

Lemma plan_entries_are_distinct_witness :
  exists st,
    greedy_plan 1000 [(400, 3); (300, 4)] = Some (Ok st) /\
    map p_count (st_cutting_plans st) = [1; 1; 1] /\
    ForallOrdPairs (fun a b => dict_eqb a b = false) (map p_pattern (st_cutting_plans st)) /\
    Forall (fun p => 1 <= p_count p) (st_cutting_plans st).
Proof.
  eexists. split; [vm_compute; reflexivity|]. split; [reflexivity|].
  apply (plan_entries_are_distinct 1000 [(400, 3); (300, 4)]).
  - repeat constructor; simpl; intuition lia.
  - vm_compute. reflexivity.
Defined.

Lemma reachable_pattern_keys stock demands st :
  dict_wf demands ->
  reachable stock (make_demand_list demands) st ->
  Forall (fun p => incl (map fst (p_pattern p)) (map fst demands)) (st_cutting_plans st).
Proof.
  intros Hwf Hr. induction Hr as [|s s' Hr IH Hany Hc]; [constructor|].
  apply cut_one_stock_inv in Hc. destruct Hc as (ds & rl & pat & q & Hf & _ & _ & ->).
  simpl. apply record_pattern_Forall; auto. simpl.
  assert (Hdesc : StronglySorted Z.gt (map d_length (st_demand_list s))).
  { rewrite (reachable_lengths _ _ _ Hr). now apply demand_list_descends. }
  destruct (fill_unit_sorted _ _ _ _ _ _ Hf Hdesc (Forall_nil _)) as (_ & _ & Hincl).
  simpl in Hincl. rewrite (reachable_lengths _ _ _ Hr) in Hincl.
  intros x Hx. apply Hincl in Hx.
  eapply Permutation_in; [apply make_demand_list_lengths | exact Hx].
Qed.

(** X4. Every pattern of the plan is a non-empty set of demanded lengths,
    listed from the longest to the shortest, each with a positive number
    of pieces. *)
Theorem patterns_list_lengths_descending stock demands st :
  dict_wf demands ->
  greedy_plan stock demands = Some (Ok st) ->
  Forall (fun p => p_pattern p <> [] /\
                   StronglySorted Z.gt (map fst (p_pattern p)) /\
                   Forall (fun kv => In (fst kv) (map fst demands) /\ 0 < snd kv)
                          (p_pattern p))
         (st_cutting_plans st).
Proof.
  intros Hwf H. apply greedy_plan_reachable in H. destruct H as (_ & Hr & _).
  pose proof (reachable_plan_inv _ _ _ Hwf Hr) as Hinv.
  pose proof (reachable_pattern_keys _ _ _ Hwf Hr) as Hkeys.
  pose proof (pi_sorted _ _ Hinv) as Hs. pose proof (pi_nonempty _ _ Hinv) as Hn.
  pose proof (pi_pieces _ _ Hinv) as Hp.
  rewrite Forall_forall in *. intros p Hin.
  split; [auto|]. split; [auto|].
  specialize (Hp p Hin). specialize (Hkeys p Hin).
  rewrite Forall_forall in *. intros kv Hkv. split; [|auto].
  apply Hkeys. now apply in_map.
Qed.

Lemma patterns_list_lengths_descending_witness :
  exists st,
    greedy_plan 1000 [(300, 4); (400, 3)] = Some (Ok st) /\
    map p_pattern (st_cutting_plans st)
    = [[(400, 2)]; [(400, 1); (300, 2)]; [(300, 2)]] /\
    Forall (fun p => p_pattern p <> [] /\
                     StronglySorted Z.gt (map fst (p_pattern p)) /\
                     Forall (fun kv => In (fst kv) (map fst [(300, 4); (400, 3)]) /\
                                       0 < snd kv)
                            (p_pattern p))
           (st_cutting_plans st).
Proof.
  eexists. split; [vm_compute; reflexivity|]. split; [reflexivity|].
  apply (patterns_list_lengths_descending 1000 [(300, 4); (400, 3)]).
  - repeat constructor; simpl; intuition lia.
  - vm_compute. reflexivity.
Defined.

(** ** The greedy choice (lines 67-77) *)

(** Below [2^53] a unit takes as many pieces of every length as fit and
    are open: what is left is shorter than every length still open. *)
Lemma fill_unit_maximal ds : forall rl pat ds' rl' pat',
  Forall (fun d => 0 < d_length d) ds -> 0 <= rl < 2 ^ 53 ->
  fill_unit ds rl pat = Ok (ds', rl', pat') ->
  0 <= rl' <= rl /\ Forall (fun d => 0 < d_quantity d -> rl' < d_length d) ds'.
Proof.
  induction ds as [|d ds IH]; intros rl pat ds' rl' pat' Hall Hrl H.
  - simpl in H. inversion H. subst. split; [lia | constructor].
  - inversion Hall as [|? ? Hd Hds]; subst. fill_cons H.
    inversion Hcut as [Hskip|f mp Hq Hl Hdiv Hfl Hc]; subst d1 rl1 pat1.
    + destruct (IH _ _ _ _ _ Hds Hrl Hfill) as [Hb Hrest].
      split; [assumption|]. constructor; [|assumption]. intros Hq.
      destruct Hskip as [Hq0|[Hlt|(f & mp & Hdiv & Hfl & Hc)]]; [lia|lia|].
      destruct (Z_lt_ge_dec rl (d_length d)) as [Hlt|Hge]; [lia|].
      pose proof (floor_div_ge_one error rl (d_length d) f mp ltac:(lia) Hdiv Hfl). lia.
    + destruct (floor_div_exact error rl (d_length d) ltac:(lia) ltac:(lia))
        as (f0 & Hdiv0 & Hfl0).
      rewrite Hdiv in Hdiv0. inversion Hdiv0. subst f0.
      rewrite Hfl in Hfl0. inversion Hfl0. subst mp.
      pose proof (Z.mul_div_le rl (d_length d) Hd) as Hle.
      pose proof (Z.mod_pos_bound rl (d_length d) Hd) as Hmod.
      pose proof (Z.div_mod rl (d_length d) ltac:(lia)) as Hdm.
      set (c := Z.min (rl / d_length d) (d_quantity d)) in *.
      assert (Hcl : c * d_length d <= rl / d_length d * d_length d).
      { apply Z.mul_le_mono_nonneg_r; lia. }
      assert (Hrl1 : 0 <= rl - c * d_length d < 2 ^ 53) by lia.
      destruct (IH _ _ _ _ _ Hds Hrl1 Hfill) as [Hb Hrest].
      split; [lia|]. constructor; [|assumption]. simpl. intros Hopen.
      assert (Hc' : c = rl / d_length d) by lia. rewrite Hc' in Hb. lia.
Qed.

(** X5. Below [2^53] every unit is filled greedily: after the inner loop
    the rest of the unit is not negative and is shorter than every
    length of which pieces are still open. *)
Theorem units_are_filled_greedily stock demands st ds rl pat :
  0 < stock < 2 ^ 53 ->
  (forall l q, In (l, q) demands -> 0 < l) ->
  reachable stock (make_demand_list demands) st ->
  fill_unit (st_demand_list st) stock [] = Ok (ds, rl, pat) ->
  0 <= rl <= stock /\ Forall (fun d => 0 < d_quantity d -> rl < d_length d) ds.
Proof.
  intros Hs Hpos Hr Hf.
  eapply fill_unit_maximal; [| |exact Hf]; [|lia].
  apply (lengths_Forall (fun l => 0 < l) _ (make_demand_list demands)).
  - eapply reachable_lengths; eassumption.
  - apply (make_demand_list_Forall (fun l _ => 0 < l)). exact Hpos.
Qed.

Lemma units_are_filled_greedily_witness :
  exists ds rl pat,
    fill_unit (make_demand_list [(300, 4); (400, 3)]) 1000 [] = Ok (ds, rl, pat) /\
    rl = 200 /\
    0 <= rl <= 1000 /\ Forall (fun d => 0 < d_quantity d -> rl < d_length d) ds.
Proof.
  eexists _, _, _. split; [vm_compute; reflexivity|]. split; [reflexivity|].
  apply (units_are_filled_greedily 1000 [(300, 4); (400, 3)]
           (mkState (make_demand_list [(300, 4); (400, 3)]) [] 0 0) _ _ [(400, 2)]).
  - split; [lia | reflexivity].
  - intros l q [H|[H|[]]]; inversion H; lia.
  - constructor.
  - vm_compute. reflexivity.
Defined.

(** ** The number of stock units *)

Lemma reachable_units_pieces stock ds0 st :
  reachable stock ds0 st ->
  st_total_stock_used st + open_quantity (st_demand_list st) <= open_quantity ds0.
Proof.
  induction 1 as [|s s' Hr IH Hany Hc]; [simpl; lia|].
  pose proof (cut_one_stock_decreases _ _ _ Hc) as Hdec.
  apply cut_one_stock_inv in Hc. destruct Hc as (ds & rl & pat & q & _ & _ & _ & ->).
  simpl in *. lia.
Qed.

(** X6. A plan never uses more stock units than there are pieces to cut. *)
Theorem units_at_most_pieces stock demands r :
  greedy_cutting_optimization stock demands = Some (Ok r) ->
  0 <= total_stock_used r <= demanded_pieces demands.
Proof.
  intros H. apply optimizer_returns in H.
  destruct H as (st & _ & _ & Hr & _ & _ & Hu & _).
  pose proof (reachable_units_pieces _ _ _ Hr) as Hb.
  pose proof (open_quantity_nonneg (st_demand_list st)).
  rewrite open_quantity_demanded in Hb. rewrite Hu. split; [|lia].
  clear - Hr. induction Hr as [|s s' Hr IH Hany Hc]; [simpl; lia|].
  apply cut_one_stock_inv in Hc. destruct Hc as (ds & rl & pat & q & _ & _ & _ & ->).
  simpl. lia.
Qed.

Lemma units_at_most_pieces_witness :
  exists r,
    greedy_cutting_optimization 1000 [(400, 3); (300, 4)] = Some (Ok r) /\
    total_stock_used r = 3 /\
    0 <= total_stock_used r <= demanded_pieces [(400, 3); (300, 4)].
Proof.
  eexists. split; [vm_compute; reflexivity|]. split; [reflexivity|].
  apply (units_at_most_pieces 1000 [(400, 3); (300, 4)]).
  vm_compute. reflexivity.
Defined.

(** X7. Below [2^53] the plan exists and uses at least one stock unit and
    at least as much stock as the demand set asks for. *)
Theorem stock_covers_demand stock demands :
  0 < stock < 2 ^ 53 ->
  demands <> [] ->
  dict_wf demands ->
  (forall l q, In (l, q) demands -> 0 < l <= stock /\ 0 < q) ->
  exists r,
    greedy_cutting_optimization stock demands = Some (Ok r) /\
    1 <= total_stock_used r /\
    demanded_length demands <= total_stock_used r * stock /\
    0 <= total_waste r.
Proof.
  intros Hs Hne Hwf Hfit.
  destruct (bounded_run stock demands Hs Hne Hwf Hfit)
    as (st & r & Hp & Hfmt & Hopt & Hrun & Hfi & Hany).
  exists r. split; [assumption|].
  destruct (optimizer_returns _ _ _ Hopt) as (st' & Hp' & _ & Hr & _ & _ & Hu & Hw).
  rewrite Hp in Hp'. inversion Hp'. subst st'.
  pose proof (reachable_used_length _ _ _ Hr) as Hlen.
  rewrite open_length_demanded in Hlen.
  assert (H0 : open_length (st_demand_list st) = 0).
  { apply sum_of_zero.
    pose proof (none_remaining_zero _ (inv_nonneg _ _ _ Hrun) Hany) as Hz.
    eapply Forall_impl; [|exact Hz]. simpl. intros d ->. lia. }
  destruct (fit_used _ _ Hfi) as [Hu0 Hu1].
  assert (Hone : 1 <= st_total_stock_used st).
  { destruct (inv_used _ _ _ Hrun) as [Hn0 Hz].
    destruct (Z.eq_dec (st_total_stock_used st) 0) as [He|]; [|lia].
    rewrite (Hz He) in Hany.
    rewrite (demand_list_remaining stock demands Hne Hfit) in Hany. discriminate. }
  rewrite Hu, Hw. lia.
Qed.

Lemma stock_covers_demand_witness :
  exists r,
    greedy_cutting_optimization 1000 [(400, 3); (300, 4)] = Some (Ok r) /\
    1 <= total_stock_used r /\
    demanded_length [(400, 3); (300, 4)] <= total_stock_used r * 1000 /\
    0 <= total_waste r.
Proof.
  apply (stock_covers_demand 1000 [(400, 3); (300, 4)]).
  - split; [lia | reflexivity].
  - discriminate.
  - repeat constructor; simpl; intuition lia.
  - intros l q [H|[H|[]]]; inversion H; lia.
Defined.

(** ** Lengths and quantities that are not positive *)

Lemma greedy_loop_first_raise stock st x :
  any_remaining (st_demand_list st) = true ->
  cut_one_stock stock st = Raise x ->
  greedy_loop (Z.to_nat (open_quantity (st_demand_list st))) stock st = Some (Raise x).
Proof.
  intros Hany Hc.
  destruct (greedy_loop_total stock (Z.to_nat (open_quantity (st_demand_list st))) st)
    as [o Ho]; [lia|].
  destruct (Z.to_nat (open_quantity (st_demand_list st))) as [|fuel];
    simpl in *; rewrite Hany in *; [discriminate|].
  now rewrite Hc.
Qed.

Lemma greedy_loop_first_err stock st e :
  any_remaining (st_demand_list st) = true ->
  cut_one_stock stock st = Err e ->
  greedy_loop (Z.to_nat (open_quantity (st_demand_list st))) stock st = Some (Err e).
Proof.
  intros Hany Hc.
  destruct (greedy_loop_total stock (Z.to_nat (open_quantity (st_demand_list st))) st)
    as [o Ho]; [lia|].
  destruct (Z.to_nat (open_quantity (st_demand_list st))) as [|fuel];
    simpl in *; rewrite Hany in *; [discriminate|].
  now rewrite Hc.
Qed.

Lemma any_remaining_demands demands :
  (exists l q, In (l, q) demands /\ 0 < q) ->
  any_remaining (make_demand_list demands) = true.
Proof.
  intros (l & q & Hin & Hq). unfold any_remaining. apply existsb_exists.
  exists (mkDemand l q). split; [|simpl; now apply Z.ltb_lt].
  eapply Permutation_in; [symmetry; apply make_demand_list_perm|].
  apply in_map_iff. exists (l, q). auto.
Qed.

(** A record of length zero with an open quantity divides by zero. *)
Lemma fill_unit_zero_length ds : forall rl pat,
  StronglySorted (fun a b => d_length b <= d_length a) ds ->
  Exists (fun d => d_length d = 0 /\ 0 < d_quantity d) ds ->
  0 <= rl < 2 ^ 53 ->
  fill_unit ds rl pat = Raise ZeroDivisionError.
Proof.
  induction ds as [|d ds IH]; intros rl pat Hs Hex Hrl; [inversion Hex|].
  inversion Hs as [|? ? Hs' Hall]; subst.
  destruct (Z.eq_dec (d_length d) 0) as [Hz|Hnz].
  - destruct (Z_lt_ge_dec 0 (d_quantity d)) as [Hq|Hq].
    + simpl. unfold cut_demand. rewrite Hz.
      replace (d_quantity d <=? 0) with false by (symmetry; apply Z.leb_gt; lia).
      replace (rl <? 0) with false by (symmetry; apply Z.ltb_ge; lia).
      reflexivity.
    + inversion Hex as [? ? [_ Hq']|? ? Hex']; subst; [lia|].
      simpl. unfold cut_demand.
      replace (d_quantity d <=? 0) with true by (symmetry; apply Z.leb_le; lia).
      simpl. rewrite (IH rl pat Hs' Hex' Hrl). reflexivity.
  - inversion Hex as [? ? [Hz _]|? ? Hex']; subst; [contradiction|].
    assert (Hpos : 0 < d_length d).
    { apply Exists_exists in Hex'. destruct Hex' as (z & Hin & Hz & _).
      rewrite Forall_forall in Hall. specialize (Hall z Hin). lia. }
    destruct (cut_demand_bounded d rl pat Hpos Hrl) as (d1 & rl1 & pat1 & Hc & Hb).
    simpl. rewrite Hc. simpl.
    rewrite (IH rl1 pat1 Hs' Hex' ltac:(lia)). reflexivity.
Qed.

(** X8. A demand of length zero with a positive quantity makes the
    optimizer raise [ZeroDivisionError] (line 71), for every stock length
    from zero to [2^53] that the other lengths do not exceed. *)
Theorem zero_length_demand_raises stock demands q :
  0 <= stock < 2 ^ 53 ->
  (forall l q, In (l, q) demands -> l <= stock) ->
  In (0, q) demands -> 0 < q ->
  greedy_cutting_optimization stock demands = Some (Raise ZeroDivisionError).
Proof.
  intros Hs Hfit Hin Hq.
  unfold greedy_cutting_optimization, greedy_plan.
  rewrite (first_oversized_none _ _ Hfit).
  assert (Hany : any_remaining (make_demand_list demands) = true)
    by (apply any_remaining_demands; eauto).
  assert (Hc : cut_one_stock stock (mkState (make_demand_list demands) [] 0 0)
               = Raise ZeroDivisionError).
  { unfold cut_one_stock. simpl. rewrite fill_unit_zero_length; [reflexivity | | | exact Hs].
    - eapply StronglySorted_weaken; [|apply sorted_demand_list].
      intros a b _ _ H. apply Z.ltb_ge in H. lia.
    - apply Exists_exists. exists (mkDemand 0 q). split; [|simpl; lia].
      eapply Permutation_in; [symmetry; apply make_demand_list_perm|].
      apply in_map_iff. exists (0, q). auto. }
  pose proof (greedy_loop_first_raise stock (mkState (make_demand_list demands) [] 0 0)
                ZeroDivisionError Hany Hc) as Hl.
  cbn [st_demand_list] in Hl. rewrite Hl. reflexivity.
Qed.

Lemma zero_length_demand_raises_witness :
  greedy_cutting_optimization 1000 [(0, 2); (400, 3)] = Some (Raise ZeroDivisionError).
Proof.
  apply (zero_length_demand_raises 1000 [(0, 2); (400, 3)] 2).
  - split; [lia | reflexivity].
  - intros l q [H|[H|[]]]; inversion H; lia.
  - now left.
  - lia.
Defined.

(** X9. A demand set in which no quantity is positive (the empty set
    among them) never enters the loop, and line 102 divides by zero. *)
Theorem no_open_quantity_raises stock demands :
  (forall l q, In (l, q) demands -> l <= stock /\ q <= 0) ->
  greedy_cutting_optimization stock demands = Some (Raise ZeroDivisionError).
Proof.
  intros H. unfold greedy_cutting_optimization, greedy_plan.
  rewrite first_oversized_none by (intros l q Hin; now apply H in Hin).
  assert (Hany : any_remaining (make_demand_list demands) = false).
  { unfold any_remaining. destruct (existsb _ _) eqn:E; [|reflexivity].
    apply existsb_exists in E. destruct E as (d & Hin & Hq). apply Z.ltb_lt in Hq.
    pose proof (make_demand_list_Forall (fun _ q => q <= 0) demands
                  ltac:(intros l q Hlq; now apply H in Hlq)) as Hall.
    rewrite Forall_forall in Hall. specialize (Hall d Hin). simpl in Hall. lia. }
  destruct (Z.to_nat (open_quantity (make_demand_list demands))); simpl; rewrite Hany;
    reflexivity.
Qed.

Lemma no_open_quantity_raises_witness :
  greedy_cutting_optimization 1000 [(400, 0); (300, -2)] = Some (Raise ZeroDivisionError).
Proof.
  apply (no_open_quantity_raises 1000 [(400, 0); (300, -2)]).
  intros l q [H|[H|[]]]; inversion H; lia.
Defined.

(** The floor of a quotient of opposite signs is not positive. *)
Lemma floor_div_negative a b :
  0 <= a -> b < 0 -> a < - b * overflow_threshold ->
  exists f v, true_div (E:=error) a b = Ok f /\ math_floor (E:=error) f = Ok v /\ v <= 0.
Proof.
  intros Ha Hb Hlt. unfold true_div.
  replace (b =? 0) with false by (symmetry; apply Z.eqb_neq; lia).
  replace (a <? 0) with false by (symmetry; apply Z.ltb_ge; lia).
  replace (b <? 0) with true by (symmetry; apply Z.ltb_lt; lia).
  rewrite Z.abs_eq by lia. rewrite Z.abs_neq by lia. simpl xorb.
  destruct (round64_below_threshold true a (- b) Ha ltac:(lia) Hlt) as [f Hf].
  rewrite Hf. pose proof (round64_wf true a (- b) f Ha ltac:(lia) Hf) as Hwf.
  destruct (round64_finite _ _ _ _ Hf) as (m & e & ->). simpl in Hwf.
  eexists _, _. split; [reflexivity|]. split; [reflexivity|].
  destruct (0 <=? e) eqn:Ee.
  - assert (0 <= 2 ^ e) by (apply Z.pow_nonneg; lia). nia.
  - apply Z.leb_gt in Ee. assert (0 < 2 ^ (- e)) by (apply Z.pow_pos_nonneg; lia).
    apply Z.div_le_upper_bound; [assumption|]. lia.
Qed.

Lemma fill_unit_negative_lengths ds : forall rl pat,
  Forall (fun d => d_length d < 0) ds ->
  0 <= rl < overflow_threshold ->
  fill_unit ds rl pat = Ok (ds, rl, pat).
Proof.
  induction ds as [|d ds IH]; intros rl pat Hall Hrl; [reflexivity|].
  inversion Hall as [|? ? Hd Hds]; subst. simpl.
  assert (Hc : cut_demand d rl pat = Ok (d, rl, pat)).
  { unfold cut_demand. destruct (_ || _); [reflexivity|].
    destruct (floor_div_negative rl (d_length d)) as (f & v & Hdiv & Hfl & Hv);
      [lia | lia | nia |].
    rewrite Hdiv. simpl. rewrite Hfl. simpl.
    replace (0 <? Z.min v (d_quantity d)) with false by (symmetry; apply Z.ltb_ge; lia).
    reflexivity. }
  rewrite Hc. simpl. rewrite IH by assumption. reflexivity.
Qed.

(** X10. When every demanded length is negative and some quantity is
    positive, no piece is ever cut and the optimizer reports the
    infeasible-demand error (line 80). *)
Theorem negative_lengths_are_infeasible stock demands :
  0 <= stock < overflow_threshold ->
  (forall l q, In (l, q) demands -> l < 0) ->
  (exists l q, In (l, q) demands /\ 0 < q) ->
  greedy_cutting_optimization stock demands = Some (Err InfeasibleDemand).
Proof.
  intros Hs Hneg Hex.
  unfold greedy_cutting_optimization, greedy_plan.
  rewrite first_oversized_none by (intros l q Hin; apply Hneg in Hin; lia).
  pose proof (any_remaining_demands demands Hex) as Hany.
  assert (Hc : cut_one_stock stock (mkState (make_demand_list demands) [] 0 0)
               = Err InfeasibleDemand).
  { unfold cut_one_stock. simpl. rewrite fill_unit_negative_lengths; [reflexivity | | exact Hs].
    apply (make_demand_list_Forall (fun l _ => l < 0)). exact Hneg. }
  pose proof (greedy_loop_first_err stock (mkState (make_demand_list demands) [] 0 0)
                InfeasibleDemand Hany Hc) as Hl.
  cbn [st_demand_list] in Hl. rewrite Hl. reflexivity.
Qed.

Lemma negative_lengths_are_infeasible_witness :
  greedy_cutting_optimization 1000 [(-5, 1)] = Some (Err InfeasibleDemand).
Proof.
  apply (negative_lengths_are_infeasible 1000 [(-5, 1)]).
  - split; [lia | vm_compute; reflexivity].
  - intros l q [H|[]]; inversion H; lia.
  - exists (-5), 1. split; [now left | lia].
Defined.

(** ** Witnesses of the positive results on conservation and waste *)

Lemma demand_conservation_below_overflow_witness :
  exists st r,
    greedy_plan 3800 [(355, 10); (200, 5)] = Some (Ok st) /\
    greedy_cutting_optimization 3800 [(355, 10); (200, 5)] = Some (Ok r) /\
    map count (cutting_plans r) = map p_count (st_cutting_plans st) /\
    forall l q, In (l, q) [(355, 10); (200, 5)] -> pieces_cut (st_cutting_plans st) l = q.
Proof.
  apply (demand_conservation_below_overflow 3800 [(355, 10); (200, 5)]).
  - split; [lia | vm_compute; reflexivity].
  - discriminate.
  - repeat constructor; simpl; intuition lia.
  - intros l q [H|[H|[]]]; inversion H; lia.
Defined.

Lemma waste_arithmetic_below_2_53_witness :
  exists st r,
    greedy_plan 3800 [(355, 10); (200, 5)] = Some (Ok st) /\
    greedy_cutting_optimization 3800 [(355, 10); (200, 5)] = Some (Ok r) /\
    map waste (cutting_plans r) = map p_waste (st_cutting_plans st) /\
    Forall (fun p => p_waste p = 3800 - pattern_length (p_pattern p) /\
                     0 <= p_waste p /\
                     pattern_length (p_pattern p) <= 3800)
           (st_cutting_plans st).
Proof.
  apply (waste_arithmetic_below_2_53 3800 [(355, 10); (200, 5)]).
  - split; [lia | reflexivity].
  - discriminate.
  - repeat constructor; simpl; intuition lia.
  - intros l q [H|[H|[]]]; inversion H; lia.
Defined.

(** ** A single demanded length *)

Lemma single_length_reachable stock l q st :
  0 < l <= stock -> stock < 2 ^ 53 -> 0 < q ->
  reachable stock [mkDemand l q] st ->
  exists q',
    st_demand_list st = [mkDemand l q'] /\ 0 <= q' /\ 0 <= st_total_stock_used st /\
    (q' = q - st_total_stock_used st * (stock / l) \/
     (q' = 0 /\
      (st_total_stock_used st - 1) * (stock / l) < q <= st_total_stock_used st * (stock / l))).
Proof.
  intros Hl Hs Hq Hr.
  assert (Hper : 1 <= stock / l) by (apply Z.div_le_lower_bound; lia).
  induction Hr as [|s s' Hr (q' & Hds & Hq' & Hu & Hform) Hany Hc].
  - exists q. simpl. split; [reflexivity|]. split; [lia|]. split; [lia|]. left. lia.
  - apply cut_one_stock_inv in Hc. destruct Hc as (ds & rl & pat & f & Hf & _ & _ & ->).
    rewrite Hds in Hf, Hany. simpl in Hany. rewrite orb_false_r in Hany.
    apply Z.ltb_lt in Hany. simpl in Hany.
    destruct Hform as [Hform|[Hz _]]; [|lia].
    fill_cons Hf. simpl in Hfill. inversion Hfill. subst ds1 rl pat. clear Hfill.
    inversion Hcut as [Hskip|f0 mp Hq0 Hl0 Hdiv Hfl Hc0]; subst d1 rl1 pat1;
      simpl in *.
    + exfalso. destruct Hskip as [H|[H|(f0 & mp & Hdiv & Hfl & Hc0)]]; [lia|lia|].
      pose proof (floor_div_ge_one error stock l f0 mp ltac:(lia) Hdiv Hfl). lia.
    + destruct (floor_div_exact error stock l ltac:(lia) Hs) as (f1 & Hdiv1 & Hfl1).
      rewrite Hdiv in Hdiv1. inversion Hdiv1. subst f1.
      rewrite Hfl in Hfl1. inversion Hfl1. subst mp.
      eexists. split; [reflexivity|]. split; [lia|]. split; [lia|].
      destruct (Z_le_gt_dec (stock / l) q') as [Hge|Hlt].
      * left. rewrite Z.min_l by lia. lia.
      * right. rewrite Z.min_r by lia. split; [lia|]. nia.
Qed.

(** X27. For a single demanded length that fits a stock below [2^53], the
    optimizer returns a plan with [ceil(q / floor(stock / l))] stock
    units, and its total waste is what these units hold beyond the
    [q] pieces. *)
Theorem single_length_units stock l q :
  0 < l <= stock -> stock < 2 ^ 53 -> 0 < q ->
  exists r,
    greedy_cutting_optimization stock [(l, q)] = Some (Ok r) /\
    total_stock_used r = (q + stock / l - 1) / (stock / l) /\
    total_waste r = total_stock_used r * stock - l * q.
Proof.
  intros Hl Hs Hq.
  assert (Hper : 1 <= stock / l) by (apply Z.div_le_lower_bound; lia).
  destruct (bounded_run stock [(l, q)]) as (st & r & Hp & Hfmt & Hopt & Hrun & Hfi & Hany).
  - lia.
  - discriminate.
  - repeat constructor. simpl. tauto.
  - intros l0 q0 [H|[]]. inversion H. subst. lia.
  - exists r. split; [assumption|].
    destruct (optimizer_returns _ _ _ Hopt) as (st' & Hp' & _ & Hr & Hany' & _ & Hu & Hw).
    rewrite Hp in Hp'. inversion Hp'. subst st'.
    change (make_demand_list [(l, q)]) with [mkDemand l q] in Hr.
    destruct (single_length_reachable _ _ _ _ Hl Hs Hq Hr) as (q' & Hds & Hq' & Hn & Hform).
    pose proof (reachable_used_length _ _ _ Hr) as Hlen.
    rewrite Hds in Hany, Hlen. simpl in Hany. rewrite orb_false_r in Hany.
    apply Z.ltb_ge in Hany. simpl in Hany.
    assert (q' = 0) by lia. subst q'.
    unfold open_length, sum_of in Hlen. simpl in Hlen.
    rewrite Hu, Hw. split; [|lia].
    apply Z.div_unique with (r := q + stock / l - 1 - st_total_stock_used st * (stock / l));
      [|lia].
    left. destruct Hform as [Hform|[_ Hform]]; nia.
Qed.

Lemma single_length_units_witness :
  exists r,
    greedy_cutting_optimization 3800 [(355, 25)] = Some (Ok r) /\
    total_stock_used r = (25 + 3800 / 355 - 1) / (3800 / 355) /\
    total_waste r = total_stock_used r * 3800 - 355 * 25.
Proof.
  apply (single_length_units 3800 355 25); [lia | reflexivity | lia].
Defined.

(** ** The order in which the demands were entered *)

(** Two lists with the same elements, both sorted by an asymmetric
    relation, are equal. *)
Lemma sorted_perm_eq {A} (R : A -> A -> Prop) (l1 : list A) :
  (forall x y, R x y -> R y x -> False) ->
  forall l2,
    StronglySorted R l1 -> StronglySorted R l2 -> Permutation l1 l2 -> l1 = l2.
Proof.
  intros Hasym. induction l1 as [|x l1 IH]; intros l2 Hs1 Hs2 Hp.
  - apply Permutation_nil in Hp. now subst.
  - destruct l2 as [|y l2]; [apply Permutation_sym, Permutation_nil in Hp; discriminate|].
    inversion Hs1 as [|? ? Hs1' Hx]; subst. inversion Hs2 as [|? ? Hs2' Hy]; subst.
    assert (Hxy : x = y).
    { assert (Hin1 : In x (y :: l2)) by (apply (Permutation_in _ Hp); now left).
      assert (Hin2 : In y (x :: l1))
        by (apply (Permutation_in _ (Permutation_sym Hp)); now left).
      destruct Hin1 as [->|Hin1]; [reflexivity|].
      destruct Hin2 as [->|Hin2]; [reflexivity|].
      rewrite Forall_forall in Hx, Hy. exfalso.
      apply (Hasym x y); [apply Hx | apply Hy]; assumption. }
    subst y. f_equal. apply IH; try assumption.
    eapply Permutation_cons_inv; eassumption.
Qed.

Lemma make_demand_list_order d1 d2 :
  dict_wf d1 -> Permutation d1 d2 -> make_demand_list d1 = make_demand_list d2.
Proof.
  intros Hwf Hp.
  assert (Hwf2 : dict_wf d2).
  { unfold dict_wf in *. eapply Permutation_NoDup; [|exact Hwf]. now apply Permutation_map. }
  apply (sorted_perm_eq (fun a b => d_length a > d_length b)).
  - intros x y. lia.
  - apply StronglySorted_map_inv with (R := Z.gt). now apply demand_list_descends.
  - apply StronglySorted_map_inv with (R := Z.gt). now apply demand_list_descends.
  - rewrite (make_demand_list_perm d1), (make_demand_list_perm d2).
    now apply Permutation_map.
Qed.

(** X30. The plan does not depend on the order in which the demands were
    entered: two demand sets with the same items, none of which exceeds
    the stock length, have the same outcome. *)
Theorem plan_ignores_entry_order stock d1 d2 :
  dict_wf d1 -> Permutation d1 d2 ->
  (forall l q, In (l, q) d1 -> l <= stock) ->
  greedy_cutting_optimization stock d1 = greedy_cutting_optimization stock d2.
Proof.
  intros Hwf Hp Hfit.
  unfold greedy_cutting_optimization, greedy_plan.
  rewrite (first_oversized_none stock d1 Hfit).
  rewrite (first_oversized_none stock d2).
  - now rewrite (make_demand_list_order d1 d2 Hwf Hp).
  - intros l q Hin. apply (Hfit l q).
    apply (Permutation_in _ (Permutation_sym Hp)). exact Hin.
Qed.

Lemma plan_ignores_entry_order_witness :
  greedy_cutting_optimization 1000 [(300, 4); (400, 3)]
  = greedy_cutting_optimization 1000 [(400, 3); (300, 4)].
Proof.
  apply (plan_ignores_entry_order 1000 [(300, 4); (400, 3)] [(400, 3); (300, 4)]).
  - repeat constructor; simpl; intuition lia.
  - apply perm_swap.
  - intros l q [H|[H|[]]]; inversion H; lia.
Defined.

(** * Further properties of the search *)

(** ** The candidates (line 128) *)

Lemma py_range_ascending start stop step lengths :
  0 < step ->
  py_range start stop step = Ok lengths ->
  StronglySorted Z.lt lengths /\
  Forall (fun l => start <= l < stop /\ (l - start) mod step = 0) lengths.
Proof.
  intros Hstep. unfold py_range.
  replace (step =? 0) with false by (symmetry; apply Z.eqb_neq; lia).
  replace (0 <? step) with true by (symmetry; apply Z.ltb_lt; lia).
  intros H. inversion H as [Hl]. clear H Hl.
  set (n := Z.to_nat ((stop - start + step - 1) / step)).
  assert (Hn : forall i, (i < n)%nat -> start + Z.of_nat i * step < stop).
  { intros i Hi. unfold n in Hi.
    assert (Hq : Z.of_nat i < (stop - start + step - 1) / step) by lia.
    assert (Hq' : Z.of_nat i + 1 <= (stop - start + step - 1) / step) by lia.
    pose proof (Z.mul_div_le (stop - start + step - 1) step Hstep) as Hm.
    assert (step * (Z.of_nat i + 1) <= step * ((stop - start + step - 1) / step))
      by (apply Z.mul_le_mono_nonneg_l; lia).
    lia. }
  clearbody n. split.
  - assert (Hgen : forall k m, StronglySorted Z.lt
                     (map (fun i => start + Z.of_nat i * step) (seq k m))).
    { intros k m. revert k. induction m as [|m IH]; intros k; simpl; constructor.
      - apply IH.
      - apply Forall_map. apply Forall_forall. intros i Hi. apply in_seq in Hi. nia. }
    apply Hgen.
  - apply Forall_map. apply Forall_forall. intros i Hi. apply in_seq in Hi.
    split; [split; [nia | apply Hn; lia]|].
    replace (start + Z.of_nat i * step - start) with (Z.of_nat i * step) by lia.
    apply Z.mod_mul. lia.
Qed.

Lemma first_oversized_fits stock demands :
  first_oversized stock demands = None ->
  forall l q, In (l, q) demands -> l <= stock.
Proof.
  unfold first_oversized. intros H l q Hin.
  destruct (find _ demands) eqn:Ef; [discriminate|].
  pose proof (find_none _ _ Ef _ Hin) as Hn. simpl in Hn. now apply Z.ltb_ge in Hn.
Qed.

Lemma first_oversized_some stock demands l q :
  In (l, q) demands -> stock < l -> exists l', first_oversized stock demands = Some l'.
Proof.
  intros Hin Hlt. unfold first_oversized.
  destruct (find _ demands) as [[l' q']|] eqn:Ef; [simpl; eauto|].
  pose proof (find_none _ _ Ef _ Hin) as Hn. simpl in Hn. apply Z.ltb_ge in Hn. lia.
Qed.

(** ** The results before and after the sort (lines 129-137) *)

(** The results are collected in the order of the range. *)
Lemma collect_results_order (R : Z -> Z -> Prop) demands : forall lengths results,
  StronglySorted R lengths ->
  collect_results demands lengths = Some (Ok results) ->
  StronglySorted (fun a b => R (stock_length a) (stock_length b)) results.
Proof.
  induction lengths as [|l ls IH]; intros results Hs H; simpl in H.
  - inversion H. constructor.
  - inversion Hs as [|? ? Hs' Hall]; subst.
    destruct (greedy_cutting_optimization l demands) as [[r|e|ex]|] eqn:Eo; try discriminate.
    + destruct (collect_results demands ls) as [[rs|e|ex]|] eqn:Ec; try discriminate.
      inversion H. subst results. constructor; [now apply IH|].
      apply Forall_forall. intros x Hx. simpl.
      apply (collect_results_spec _ _ _ Ec) in Hx. destruct Hx as [Hin _].
      rewrite Forall_forall in Hall. now apply Hall.
    + now apply IH.
Qed.

(** A successful search has sorted a non-empty list of collected results. *)
Lemma search_returns demands min_length max_length step_length ranked :
  find_optimal_stock_length demands min_length max_length step_length = Some (Ok ranked) ->
  exists lengths results kl,
    py_range min_length (max_length + 1) step_length = Ok lengths /\
    collect_results demands lengths = Some (Ok results) /\
    results <> [] /\
    decorate results = Ok kl /\
    ranked = map snd (sort_by key_ltb fst kl).
Proof.
  unfold find_optimal_stock_length. intros H.
  destruct (py_range min_length (max_length + 1) step_length) as [lengths| |] eqn:Er;
    try discriminate.
  destruct (collect_results demands lengths) as [[results|e|x]|] eqn:Ec; try discriminate.
  destruct results as [|x0 xs]; [discriminate|].
  inversion H as [Hsort]. unfold sort_results in Hsort.
  destruct (decorate (x0 :: xs)) as [kl| |] eqn:Ed; simpl in Hsort; try discriminate.
  inversion Hsort. exists lengths, (x0 :: xs), kl.
  repeat split; try reflexivity; try assumption. discriminate.
Qed.

Lemma search_returns_perm demands min_length max_length step_length ranked :
  find_optimal_stock_length demands min_length max_length step_length = Some (Ok ranked) ->
  exists lengths results,
    py_range min_length (max_length + 1) step_length = Ok lengths /\
    collect_results demands lengths = Some (Ok results) /\
    results <> [] /\ Permutation ranked results.
Proof.
  intros H. apply search_returns in H.
  destruct H as (lengths & results & kl & Hr & Hc & Hne & Hd & ->).
  exists lengths, results. repeat split; try assumption.
  destruct (decorate_spec _ _ Hd) as [Hm _]. rewrite <- Hm.
  apply Permutation_map. apply sort_by_perm.
Qed.

(** X13. Every result of a successful search is a candidate of the range:
    its stock length lies between the bounds, on the grid of the step,
    is at least every demanded length, and carries the plan that the
    optimizer returns for it; the list is not empty and no stock length
    occurs twice. *)
Theorem search_results_are_candidates demands min_length max_length step_length ranked :
  0 < step_length ->
  find_optimal_stock_length demands min_length max_length step_length = Some (Ok ranked) ->
  ranked <> [] /\
  NoDup (map stock_length ranked) /\
  Forall (fun x =>
            min_length <= stock_length x <= max_length /\
            (stock_length x - min_length) mod step_length = 0 /\
            (forall l q, In (l, q) demands -> l <= stock_length x) /\
            greedy_cutting_optimization (stock_length x) demands = Some (Ok (sr_result x)))
         ranked.
Proof.
  intros Hstep H. apply search_returns_perm in H.
  destruct H as (lengths & results & Hr & Hc & Hne & Hperm).
  destruct (py_range_ascending _ _ _ _ Hstep Hr) as [Hasc Hin].
  split; [|split].
  - intros ->. apply Permutation_nil in Hperm. contradiction.
  - apply (Permutation_NoDup (l := map stock_length results));
      [apply Permutation_map; now symmetry|].
    pose proof (collect_results_order Z.lt _ _ _ Hasc Hc) as Hs.
    clear - Hs. induction Hs as [|x l Hl IH Hx]; simpl; constructor; [|assumption].
    intros Hi. apply in_map_iff in Hi. destruct Hi as (y & Hy & Hyl).
    rewrite Forall_forall in Hx. specialize (Hx y Hyl). lia.
  - apply Forall_forall. intros x Hx.
    apply (Permutation_in _ Hperm) in Hx.
    apply (collect_results_spec _ _ _ Hc) in Hx. destruct Hx as [Hl Hopt].
    rewrite Forall_forall in Hin. destruct (Hin _ Hl) as [Hb Hm].
    split; [lia|]. split; [assumption|]. split; [|assumption].
    destruct (optimizer_returns _ _ _ Hopt) as (st & _ & Hfo & _).
    now apply first_oversized_fits.
Qed.

Lemma search_results_are_candidates_witness :
  exists ranked,
    find_optimal_stock_length [(355, 10); (200, 5)] 1000 1200 100 = Some (Ok ranked) /\
    map stock_length ranked = [1000; 1100; 1200] /\
    ranked <> [] /\
    NoDup (map stock_length ranked) /\
    Forall (fun x =>
              1000 <= stock_length x <= 1200 /\
              (stock_length x - 1000) mod 100 = 0 /\
              (forall l q, In (l, q) [(355, 10); (200, 5)] -> l <= stock_length x) /\
              greedy_cutting_optimization (stock_length x) [(355, 10); (200, 5)]
              = Some (Ok (sr_result x)))
           ranked.
Proof.
  eexists. split; [vm_compute; reflexivity|]. split; [reflexivity|].
  apply (search_results_are_candidates [(355, 10); (200, 5)] 1000 1200 100).
  - lia.
  - vm_compute. reflexivity.
Defined.

(** ** Stability of the sort (line 137) *)

Section SortStable.
Context {A K : Type} (lt : K -> K -> bool) (key : A -> K).
Let le (a b : K) : Prop := lt b a = false.
Hypothesis le_total : forall a b, le a b \/ le b a.
Hypothesis le_trans : forall a b c, le a b -> le b c -> le a c.
Variable before : A -> A -> Prop.
Let T (x y : A) : Prop := le (key x) (key y) /\ (le (key y) (key x) -> before x y).

Lemma insert_by_stable x l :
  StronglySorted T l -> Forall (before x) l -> StronglySorted T (insert_by lt key x l).
Proof.
  induction 1 as [|y l Hl IH Hy]; intros Hx; simpl.
  - constructor; constructor.
  - inversion Hx as [|? ? Hxy Hxl]; subst.
    destruct (lt (key y) (key x)) eqn:E.
    + constructor; [auto|].
      eapply Permutation_Forall; [symmetry; apply insert_by_perm|].
      constructor; [|assumption]. split.
      * destruct (le_total (key y) (key x)) as [H|H]; [exact H | unfold le in H; congruence].
      * unfold le. congruence.
    + constructor; [constructor; assumption|].
      constructor; [split; [exact E | auto]|].
      rewrite Forall_forall in *. intros z Hz. split; [|auto].
      eapply le_trans; [exact E | apply (Hy z Hz)].
Qed.

Lemma sort_by_stable l : StronglySorted before l -> StronglySorted T (sort_by lt key l).
Proof.
  induction 1 as [|x l Hl IH Hx]; simpl; [constructor|].
  apply insert_by_stable; [assumption|].
  eapply Permutation_Forall; [symmetry; apply sort_by_perm | exact Hx].
Qed.
End SortStable.

Lemma ranked_sort_key a b ka kb :
  sort_key a = Ok ka -> sort_key b = Ok kb -> ranked_before a b -> key_le ka kb.
Proof.
  unfold sort_key. intros Ha Hb (ua & ub & Hua & Hub & Hle & Htie).
  rewrite Hua in Ha. rewrite Hub in Hb. simpl in Ha, Hb.
  inversion Ha. inversion Hb. subst ka kb.
  apply key_le_spec. simpl. rewrite !leb_neg. tauto.
Qed.

(** X14. The sort of line 137 is stable: of two results that the order
    does not separate, the one with the shorter stock length, which the
    range visited first, stands first. *)
Theorem search_ties_keep_range_order demands min_length max_length step_length ranked :
  0 < step_length ->
  find_optimal_stock_length demands min_length max_length step_length = Some (Ok ranked) ->
  StronglySorted (fun a b => ranked_before b a -> visited_before a b) ranked.
Proof.
  intros Hstep H. apply search_returns in H.
  destruct H as (lengths & results & kl & Hr & Hc & Hne & Hd & ->).
  destruct (py_range_ascending _ _ _ _ Hstep Hr) as [Hasc _].
  pose proof (collect_results_order Z.lt _ _ _ Hasc Hc) as Hs.
  destruct (decorate_spec _ _ Hd) as [Hm Hf].
  rewrite <- Hm in Hs. apply StronglySorted_map_inv in Hs.
  pose proof (sort_by_stable key_ltb fst key_le_total key_le_trans
                (fun x y => visited_before (snd x) (snd y)) kl Hs) as Hst.
  apply StronglySorted_map
    with (R := fun x y => key_le (fst x) (fst y) /\
                          (key_le (fst y) (fst x) -> visited_before (snd x) (snd y)))
         (Q := fun kx => sort_key (snd kx) = Ok (fst kx)).
  - intros x y Hx Hy [_ Htie] Hrb. apply Htie. eapply ranked_sort_key; eassumption.
  - eapply Permutation_Forall; [symmetry; apply sort_by_perm | exact Hf].
  - exact Hst.
Qed.

Lemma search_ties_keep_range_order_witness :
  exists a b,
    find_optimal_stock_length [(500000, 1)] 1000000 1000001 1 = Some (Ok [a; b]) /\
    total_utilization (sr_result a) = total_utilization (sr_result b) /\
    total_stock_used (sr_result a) = total_stock_used (sr_result b) /\
    stock_length a = 1000000 /\ stock_length b = 1000001 /\
    StronglySorted (fun a b => ranked_before b a -> visited_before a b) [a; b].
Proof.
  eexists _, _. split; [vm_compute; reflexivity|].
  split; [reflexivity|]. split; [reflexivity|]. split; [reflexivity|].
  split; [reflexivity|].
  apply (search_ties_keep_range_order [(500000, 1)] 1000000 1000001 1).
  - lia.
  - vm_compute. reflexivity.
Defined.

(** ** A range below the longest demand *)

Lemma collect_results_none_feasible demands : forall lengths,
  Forall (fun c => exists e, greedy_cutting_optimization c demands = Some (Err e)) lengths ->
  collect_results demands lengths = Some (Ok []).
Proof.
  induction 1 as [|c cs [e He] Hcs IH]; simpl; [reflexivity|].
  rewrite He. exact IH.
Qed.

(** X15. When some demanded length exceeds the upper bound of the range,
    every candidate is rejected as too short and the search reports that
    no length is feasible. *)
Theorem range_below_longest_demand demands min_length max_length step_length l q :
  0 < step_length ->
  In (l, q) demands -> max_length < l ->
  find_optimal_stock_length demands min_length max_length step_length
  = Some (Err NoFeasibleLength).
Proof.
  intros Hstep Hin Hlt. unfold find_optimal_stock_length.
  destruct (py_range min_length (max_length + 1) step_length) as [lengths| |] eqn:Er.
  - destruct (py_range_ascending _ _ _ _ Hstep Er) as [_ Hall].
    rewrite collect_results_none_feasible; [reflexivity|].
    eapply Forall_impl; [|exact Hall]. simpl. intros c [Hc _].
    destruct (first_oversized_some c demands l q Hin ltac:(lia)) as [l' Hl'].
    exists (OversizedDemand l' c).
    unfold greedy_cutting_optimization, greedy_plan. now rewrite Hl'.
  - unfold py_range in Er. destruct (step_length =? 0); discriminate.
  - unfold py_range in Er. replace (step_length =? 0) with false in Er; [discriminate|].
    symmetry. apply Z.eqb_neq. lia.
Qed.

Lemma range_below_longest_demand_witness :
  find_optimal_stock_length [(355, 10); (1500, 1)] 1000 1200 100
  = Some (Err NoFeasibleLength).
Proof.
  apply (range_below_longest_demand [(355, 10); (1500, 1)] 1000 1200 100 1500 1).
  - lia.
  - right. now left.
  - lia.
Defined.

(** ** Reading a rendered utilization back (line 137) *)

(** X16. The text of a result's total utilization always reads back as a
    float: the percentage rounded to hundredths, as rendered, and then to
    the nearest float.  This is the value that the search ranks by. *)
Theorem rendered_utilization_reads_back stock demands r :
  greedy_cutting_optimization stock demands = Some (Ok r) ->
  exists q,
    true_div (E:=error) (total_stock_used r * stock - total_waste r)
             (total_stock_used r * stock) = Ok q /\
    rendered_utilization r = Ok (reread (mul_int q 100)).
Proof.
  intros H. destruct (total_utilization_rendered _ _ _ H) as (q & Hq & Hu).
  exists q. split; [assumption|].
  unfold rendered_utilization. rewrite Hu.
  assert (Hwf : float_wf (mul_int q 100)).
  { apply mul_int_wf; [eapply true_div_wf; eassumption | lia]. }
  rewrite strip_format_2f by assumption.
  now rewrite py_float_format_2f.
Qed.

Lemma rendered_utilization_reads_back_witness :
  exists r q,
    greedy_cutting_optimization 3800 [(355, 10)] = Some (Ok r) /\
    total_utilization r = PyStr "93.42%" /\
    true_div (E:=error) (total_stock_used r * 3800 - total_waste r)
             (total_stock_used r * 3800) = Ok q /\
    rendered_utilization r = Ok (reread (mul_int q 100)).
Proof.
  pose (r := match greedy_cutting_optimization 3800 [(355, 10)] with
             | Some (Ok r) => r
             | _ => mkResult [] 0 (PyStr EmptyString) 0
             end).
  assert (Hr : greedy_cutting_optimization 3800 [(355, 10)] = Some (Ok r))
    by (vm_compute; reflexivity).
  destruct (rendered_utilization_reads_back 3800 [(355, 10)] r Hr) as (q & Hq & Hread).
  exists r, q. split; [exact Hr|]. split; [vm_compute; reflexivity|].
  split; assumption.
Defined.

(** * Properties of the Excel reader *)

(** ** Merging entries (lines 35-38 and 209-212) *)

Lemma add_demand_get demands l q k :
  dict_get (add_demand demands l q) k =
  if l =? k
  then Some (match dict_get demands l with Some q0 => q0 + q | None => q end)
  else dict_get demands k.
Proof.
  unfold add_demand. destruct (dict_get demands l); rewrite dict_get_set; reflexivity.
Qed.

Lemma add_demand_wf demands l q : dict_wf demands -> dict_wf (add_demand demands l q).
Proof. unfold add_demand. destruct (dict_get demands l); apply dict_set_wf. Qed.

Lemma add_demand_nonempty demands l q : add_demand demands l q <> [].
Proof. unfold add_demand. destruct (dict_get demands l); apply dict_set_nonempty. Qed.

Lemma add_demand_positive demands l q :
  0 < l -> 0 < q ->
  (forall a b, In (a, b) demands -> 0 < a /\ 0 < b) ->
  forall a b, In (a, b) (add_demand demands l q) -> 0 < a /\ 0 < b.
Proof.
  intros Hl Hq Hall a b. unfold add_demand.
  destruct (dict_get demands l) as [q0|] eqn:Eg; intros Hin;
    apply dict_set_In in Hin; destruct Hin as [Heq|Hin]; auto; inversion Heq; subst.
  - apply dict_get_In in Eg. apply Hall in Eg. lia.
  - lia.
Qed.

Lemma merge_entries_get entries : forall demands k,
  dict_get (merge_entries demands entries) k =
  match dict_get demands k with
  | Some q0 => Some (q0 + quantity_of entries k)
  | None => if mentions entries k then Some (quantity_of entries k) else None
  end.
Proof.
  induction entries as [|[l q] entries IH]; intros demands k; simpl.
  - destruct (dict_get demands k); [f_equal; unfold quantity_of; simpl; lia | reflexivity].
  - unfold merge_entries in *. simpl. rewrite IH, add_demand_get.
    unfold quantity_of, mentions. simpl.
    destruct (l =? k) eqn:E.
    + apply Z.eqb_eq in E. subst l. simpl.
      destruct (dict_get demands k); f_equal; lia.
    + simpl. destruct (dict_get demands k); [f_equal; lia | reflexivity].
Qed.

Lemma merge_entries_valid entries :
  Forall (fun p => 0 < fst p /\ 0 < snd p) entries ->
  forall demands,
  dict_wf demands ->
  (forall a b, In (a, b) demands -> 0 < a /\ 0 < b) ->
  dict_wf (merge_entries demands entries) /\
  (forall a b, In (a, b) (merge_entries demands entries) -> 0 < a /\ 0 < b) /\
  (entries <> [] -> merge_entries demands entries <> []).
Proof.
  induction 1 as [|[l q] entries [Hl Hq] Hall IH]; intros demands Hwf Hpos.
  - simpl. split; [assumption|]. split; [assumption | congruence].
  - unfold merge_entries in *. simpl in *.
    destruct (IH _ (add_demand_wf _ l q Hwf) (add_demand_positive _ l q Hl Hq Hpos))
      as (H1 & H2 & H3).
    split; [assumption|]. split; [assumption|]. intros _.
    destruct entries as [|p entries']; [apply add_demand_nonempty | apply H3; discriminate].
Qed.

(** ** The loop over the rows (lines 25-38) *)

(** The loop completes exactly on rows that all convert to positive
    integers, and merges them. *)
Lemma read_rows_done cols : forall rows index demands demands',
  read_rows cols rows index demands = Done demands' ->
  exists entries,
    Forall2 (row_reads cols) rows entries /\
    demands' = merge_entries demands entries.
Proof.
  induction rows as [|row rows IH]; intros index demands demands' H; simpl in H.
  - inversion H. exists []. split; [constructor | reflexivity].
  - destruct (row_ints cols row) as [[l q]|e|x] eqn:Er; try discriminate.
    + destruct ((l <=? 0) || (q <=? 0)) eqn:Eb; [discriminate|].
      apply orb_false_iff in Eb. destruct Eb as [El Eq].
      apply Z.leb_gt in El. apply Z.leb_gt in Eq.
      destruct (IH _ _ _ H) as (entries & Hf & ->).
      exists ((l, q) :: entries). split; [|reflexivity].
      constructor; [|assumption]. unfold row_reads. simpl. auto.
    + destruct (is_conversion_error x); discriminate.
Qed.

Lemma read_rows_good cols rows entries :
  Forall2 (row_reads cols) rows entries ->
  forall index demands,
  read_rows cols rows index demands = Done (merge_entries demands entries).
Proof.
  induction 1 as [|row [l q] rows entries (Hr & Hl & Hq) Hf IH]; intros.
  - reflexivity.
  - simpl in *. rewrite Hr.
    replace (l <=? 0) with false by (symmetry; apply Z.leb_gt; lia).
    replace (q <=? 0) with false by (symmetry; apply Z.leb_gt; lia).
    simpl. apply IH.
Qed.

Lemma read_rows_app cols good entries rest :
  Forall2 (row_reads cols) good entries ->
  forall index demands,
  read_rows cols (good ++ rest) index demands =
  read_rows cols rest (index + Z.of_nat (List.length good)) (merge_entries demands entries).
Proof.
  induction 1 as [|row [l q] rows entries (Hr & Hl & Hq) Hf IH]; intros.
  - simpl. f_equal. lia.
  - simpl in *. rewrite Hr.
    replace (l <=? 0) with false by (symmetry; apply Z.leb_gt; lia).
    replace (q <=? 0) with false by (symmetry; apply Z.leb_gt; lia).
    cbn [orb]. rewrite IH. f_equal. lia.
Qed.

(** A successful import has read an accepted header and accepted rows. *)
Lemma import_returns read_excel file_content demands :
  read_demands_from_excel read_excel file_content = inl demands ->
  exists df entries,
    read_excel file_content = Some df /\
    header_accepted df /\
    Forall2 (row_reads (df_columns df)) (df_rows df) entries /\
    entries <> [] /\
    demands = merge_entries [] entries.
Proof.
  unfold read_demands_from_excel. intros H.
  destruct (read_excel file_content) as [df|]; [|discriminate].
  unfold read_frame in H.
  destruct (stripped_columns (df_columns df)) as [actual|e|x] eqn:Es; try discriminate.
  destruct (has_required_columns actual) eqn:Eh; [|discriminate]. simpl in H.
  destruct (read_rows (df_columns df) (df_rows df) 0 []) as [d|e|x] eqn:Er;
    try discriminate.
  - destruct d as [|kv d]; [discriminate|]. inversion H. subst demands.
    destruct (read_rows_done _ _ _ _ _ Er) as (entries & Hf & Hd).
    exists df, entries. split; [reflexivity|]. split; [exists actual; auto|].
    split; [assumption|]. split; [|assumption].
    intros ->. discriminate.
Qed.

(** ** What an import returns *)

Lemma import_valid read_excel file_content demands :
  read_demands_from_excel read_excel file_content = inl demands -> demands_valid demands.
Proof.
  intros H. apply import_returns in H.
  destruct H as (df & entries & _ & _ & Hf & Hne & ->).
  assert (Hpos : Forall (fun p => 0 < fst p /\ 0 < snd p) entries).
  { clear Hne. induction Hf as [|row p rows entries (_ & Hl & Hq) Hf IH]; constructor; auto. }
  destruct (merge_entries_valid entries Hpos [] (NoDup_nil _)) as (H1 & H2 & H3).
  - intros a b [].
  - split; [auto | split; assumption].
Qed.

(** X17. A demand set that the reader returns is never empty, has no
    length twice, and holds only positive lengths and quantities. *)
Theorem imported_demands_are_valid read_excel file_content demands :
  read_demands_from_excel read_excel file_content = inl demands ->
  demands <> [] /\ dict_wf demands /\
  forall l q, In (l, q) demands -> 0 < l /\ 0 < q.
Proof.
  intros H. destruct (import_valid _ _ _ H) as (Hnonempty & Hwf & Hpos).
  split; [exact Hnonempty|]. split; [exact Hwf|].
  intros l q Hin. exact (Hpos l q Hin).
Qed.

Lemma imported_demands_are_valid_witness :
  read_demands_from_excel
    (fun _ => Some (mkFrame [Text length_column; Text quantity_column]
                            [[IntLike 355; IntLike 10]; [IntLike 200; IntLike 5];
                             [IntLike 355; IntLike 2]]))
    "book.xlsx"
  = inl [(355, 12); (200, 5)] /\
  [(355, 12); (200, 5)] <> [] /\ dict_wf [(355, 12); (200, 5)] /\
  forall l q, In (l, q) [(355, 12); (200, 5)] -> 0 < l /\ 0 < q.
Proof.
  split; [vm_compute; reflexivity|].
  apply (imported_demands_are_valid
           (fun _ => Some (mkFrame [Text length_column; Text quantity_column]
                                   [[IntLike 355; IntLike 10]; [IntLike 200; IntLike 5];
                                    [IntLike 355; IntLike 2]]))
           "book.xlsx").
  vm_compute. reflexivity.
Defined.

(** X18. The reader merges rows of equal length: under every length the
    returned demand set holds the sum of the quantities of the rows with
    that length, and it holds no length that no row has. *)
Theorem imported_quantities_are_row_sums read_excel file_content demands :
  read_demands_from_excel read_excel file_content = inl demands ->
  exists df entries,
    read_excel file_content = Some df /\
    Forall2 (row_reads (df_columns df)) (df_rows df) entries /\
    forall l, dict_get demands l =
              if mentions entries l then Some (quantity_of entries l) else None.
Proof.
  intros H. apply import_returns in H.
  destruct H as (df & entries & Hx & _ & Hf & _ & ->).
  exists df, entries. split; [assumption|]. split; [assumption|].
  intros l. now rewrite merge_entries_get.
Qed.

Lemma imported_quantities_are_row_sums_witness :
  exists df entries,
    Some (mkFrame [Text length_column; Text quantity_column]
                  [[IntLike 355; IntLike 10]; [IntLike 200; IntLike 5];
                   [IntLike 355; IntLike 2]])
    = Some df /\
    Forall2 (row_reads (df_columns df)) (df_rows df) entries /\
    forall l, dict_get [(355, 12); (200, 5)] l =
              if mentions entries l then Some (quantity_of entries l) else None.
Proof.
  apply (imported_quantities_are_row_sums
           (fun _ => Some (mkFrame [Text length_column; Text quantity_column]
                                   [[IntLike 355; IntLike 10]; [IntLike 200; IntLike 5];
                                    [IntLike 355; IntLike 2]]))
           "book.xlsx").
  vm_compute. reflexivity.
Defined.

(** ** Rows that are not accepted (lines 29-33) *)

Lemma read_frame_rows df :
  header_accepted df ->
  read_frame df =
  match read_rows (df_columns df) (df_rows df) 0 [] with
  | Done [] => Return NoValidData
  | other => other
  end.
Proof.
  intros (actual & Hs & Hh). unfold read_frame. now rewrite Hs, Hh.
Qed.

(** X19. The first row that is not accepted decides the outcome, whatever
    follows it, and is reported under its row number in the sheet (its
    position among the data rows plus two): as not positive when both
    cells convert, as not an integer when a conversion raises
    [ValueError] or [TypeError], and as a failed read when anything else
    is raised. *)
Theorem first_bad_row_is_reported read_excel file_content df good entries bad rest :
  read_excel file_content = Some df ->
  header_accepted df ->
  df_rows df = good ++ bad :: rest ->
  Forall2 (row_reads (df_columns df)) good entries ->
  (forall l q, row_ints (df_columns df) bad = Done (l, q) -> l <= 0 \/ q <= 0 ->
     read_demands_from_excel read_excel file_content
     = inr (RowNotPositive (Z.of_nat (List.length good) + 2))) /\
  (forall x, row_ints (df_columns df) bad = Throw x -> is_conversion_error x = true ->
     read_demands_from_excel read_excel file_content
     = inr (RowNotInteger (Z.of_nat (List.length good) + 2))) /\
  (forall x, row_ints (df_columns df) bad = Throw x -> is_conversion_error x = false ->
     read_demands_from_excel read_excel file_content = inr (ReadFailed x)).
Proof.
  intros Hx Hh Hrows Hgood.
  assert (Hread : read_demands_from_excel read_excel file_content =
                  match read_rows (df_columns df) (bad :: rest)
                                  (Z.of_nat (List.length good))
                                  (merge_entries [] entries) with
                  | Done [] => inr NoValidData
                  | Done demands => inl demands
                  | Return e => inr e
                  | Throw x => inr (ReadFailed x)
                  end).
  { unfold read_demands_from_excel. rewrite Hx, (read_frame_rows df Hh), Hrows.
    rewrite (read_rows_app _ _ _ _ Hgood). simpl Z.add.
    destruct (read_rows _ _ _ _) as [[|kv d]|e|x]; reflexivity. }
  rewrite Hread. simpl. split; [|split].
  - intros l q Hr Hbad. rewrite Hr.
    replace ((l <=? 0) || (q <=? 0)) with true; [reflexivity|].
    symmetry. apply orb_true_iff. rewrite !Z.leb_le. exact Hbad.
  - intros x Hr Hc. now rewrite Hr, Hc.
  - intros x Hr Hc. now rewrite Hr, Hc.
Qed.

Lemma first_bad_row_is_reported_witness :
  read_demands_from_excel
    (fun _ => Some (mkFrame [Text length_column; Text quantity_column]
                            [[IntLike 355; IntLike 10]; [IntLike 200; NotIntLike ValueError];
                             [IntLike 0; IntLike 2]]))
    "book.xlsx"
  = inr (RowNotInteger 3).
Proof.
  destruct (first_bad_row_is_reported
              (fun _ => Some (mkFrame [Text length_column; Text quantity_column]
                                      [[IntLike 355; IntLike 10];
                                       [IntLike 200; NotIntLike ValueError];
                                       [IntLike 0; IntLike 2]]))
              "book.xlsx"
              (mkFrame [Text length_column; Text quantity_column]
                       [[IntLike 355; IntLike 10]; [IntLike 200; NotIntLike ValueError];
                        [IntLike 0; IntLike 2]])
              [[IntLike 355; IntLike 10]] [(355, 10)]
              [IntLike 200; NotIntLike ValueError] [[IntLike 0; IntLike 2]])
    as (_ & H & _).
  - reflexivity.
  - eexists. split; [vm_compute; reflexivity | reflexivity].
  - reflexivity.
  - constructor; [|constructor]. split; [vm_compute; reflexivity | simpl; lia].
  - apply (H (Builtin ValueError)); reflexivity.
Defined.

(** ** Labels with surrounding whitespace (lines 20-28) *)

Lemma text_eqb_eq s : forall t, text_eqb s t = true <-> s = t.
Proof.
  induction s as [|a s IH]; intros [|b t]; simpl; split; try congruence.
  - intros H. apply andb_true_iff in H. destruct H as [Hab Hst].
    apply N.eqb_eq in Hab. apply IH in Hst. congruence.
  - intros H. inversion H. subst. rewrite N.eqb_refl. simpl. now apply IH.
Qed.

Lemma series_get_label cols : forall row key v,
  series_get cols row key = Some v -> In (Text key) cols.
Proof.
  induction cols as [|[s|] cols IH]; intros [|c row] key v H; simpl in H; try discriminate.
  - destruct (text_eqb s key) eqn:E.
    + apply text_eqb_eq in E. subst. now left.
    + right. eapply IH; eassumption.
  - right. eapply IH; eassumption.
Qed.

(** X20. The header check strips the labels but the rows are read under
    the labels as they are: when the length column passes the check only
    because of the stripping, the first row cannot be read and the
    import fails with the [KeyError] of the label. *)
Theorem padded_header_is_not_found read_excel file_content df row rows :
  read_excel file_content = Some df ->
  header_accepted df ->
  ~ In (Text length_column) (df_columns df) ->
  df_rows df = row :: rows ->
  read_demands_from_excel read_excel file_content
  = inr (ReadFailed (KeyError length_column)).
Proof.
  intros Hx Hh Hnot Hrows.
  unfold read_demands_from_excel. rewrite Hx, (read_frame_rows df Hh), Hrows. simpl.
  unfold row_ints, int_cell.
  destruct (series_get (df_columns df) row length_column) as [v|] eqn:Eg.
  - apply series_get_label in Eg. contradiction.
  - reflexivity.
Qed.

Lemma padded_header_is_not_found_witness :
  read_demands_from_excel
    (fun _ => Some (mkFrame [Text (code_points " 长度(mm)"); Text quantity_column]
                            [[IntLike 355; IntLike 10]]))
    "book.xlsx"
  = inr (ReadFailed (KeyError length_column)).
Proof.
  apply (padded_header_is_not_found
           (fun _ => Some (mkFrame [Text (code_points " 长度(mm)"); Text quantity_column]
                                   [[IntLike 355; IntLike 10]]))
           "book.xlsx"
           (mkFrame [Text (code_points " 长度(mm)"); Text quantity_column]
                    [[IntLike 355; IntLike 10]])
           [IntLike 355; IntLike 10] []).
  - reflexivity.
  - eexists. split; [vm_compute; reflexivity | reflexivity].
  - intros [H|[H|[]]]; vm_compute in H; discriminate.
  - reflexivity.
Defined.

(** ** The header check and the accepted sheets (lines 19-22, 40-43) *)

Lemma stripped_columns_text texts :
  stripped_columns (map Text texts) = Done (map text_strip texts).
Proof.
  induction texts as [|s texts IH]; simpl; [reflexivity | now rewrite IH].
Qed.

Lemma existsb_text_eqb key texts : existsb (text_eqb key) texts = true <-> In key texts.
Proof.
  rewrite existsb_exists. split.
  - intros (t & Hin & He). apply text_eqb_eq in He. now subst.
  - intros Hin. exists key. split; [assumption | now apply text_eqb_eq].
Qed.

Lemma has_required_columns_iff actual :
  has_required_columns actual = true <->
  In length_column actual /\ In quantity_column actual.
Proof.
  unfold has_required_columns, required_columns. cbn [forallb].
  rewrite andb_true_r, andb_true_iff, !existsb_text_eqb. reflexivity.
Qed.

Lemma row_ints_returns cols row e : row_ints cols row <> Return e.
Proof.
  unfold row_ints, int_cell.
  destruct (series_get cols row length_column) as [[z|x]|]; try discriminate.
  destruct (series_get cols row quantity_column) as [[z'|x]|]; discriminate.
Qed.

Lemma read_rows_returns cols : forall rows index demands e,
  read_rows cols rows index demands = Return e ->
  exists n, e = RowNotPositive n \/ e = RowNotInteger n.
Proof.
  induction rows as [|row rows IH]; intros index demands e H; simpl in H; [discriminate|].
  destruct (row_ints cols row) as [[l q]|e0|x] eqn:Er.
  - destruct ((l <=? 0) || (q <=? 0)); [inversion H; eauto | eapply IH; eassumption].
  - now apply row_ints_returns in Er.
  - destruct (is_conversion_error x); [inversion H; eauto | discriminate].
Qed.

(** X28. On a sheet whose labels are all text, the reader reports missing
    columns exactly when one of the two required names is not among the
    labels after stripping their surrounding whitespace. *)
Theorem missing_columns_iff read_excel file_content df texts :
  read_excel file_content = Some df ->
  df_columns df = map Text texts ->
  (read_demands_from_excel read_excel file_content = inr MissingColumns <->
   ~ (In length_column (map text_strip texts) /\
      In quantity_column (map text_strip texts))).
Proof.
  intros Hx Hcols. unfold read_demands_from_excel, read_frame.
  rewrite Hx, Hcols, stripped_columns_text.
  destruct (has_required_columns (map text_strip texts)) eqn:Eh; simpl.
  - split.
    + intros H. exfalso.
      destruct (read_rows (map Text texts) (df_rows df) 0 []) as [[|kv d]|e|x] eqn:Er;
        try discriminate.
      inversion H. subst e. apply read_rows_returns in Er.
      destruct Er as [n [Hn|Hn]]; discriminate.
    + intros Hn. exfalso. apply Hn. now apply has_required_columns_iff.
  - split; [|reflexivity]. intros _ Hin.
    apply has_required_columns_iff in Hin. congruence.
Qed.

Lemma missing_columns_iff_witness :
  read_demands_from_excel
    (fun _ => Some (mkFrame [Text (code_points "长度"); Text (code_points " 数量(根) ")]
                            [[IntLike 355; IntLike 10]]))
    "book.xlsx"
  = inr MissingColumns <->
  ~ (In length_column
        (map text_strip [code_points "长度"; code_points " 数量(根) "]) /\
     In quantity_column
        (map text_strip [code_points "长度"; code_points " 数量(根) "])).
Proof.
  apply (missing_columns_iff
           (fun _ => Some (mkFrame [Text (code_points "长度");
                                    Text (code_points " 数量(根) ")]
                                   [[IntLike 355; IntLike 10]]))
           "book.xlsx"
           (mkFrame [Text (code_points "长度"); Text (code_points " 数量(根) ")]
                    [[IntLike 355; IntLike 10]])
           [code_points "长度"; code_points " 数量(根) "]);
    reflexivity.
Defined.

(** X29. A sheet with an accepted header and at least one row, all of whose
    rows convert to positive integers, is imported: the reader returns
    its rows merged in order. *)
Theorem accepted_sheet_is_imported read_excel file_content df entries :
  read_excel file_content = Some df ->
  header_accepted df ->
  Forall2 (row_reads (df_columns df)) (df_rows df) entries ->
  entries <> [] ->
  read_demands_from_excel read_excel file_content = inl (merge_entries [] entries) /\
  merge_entries [] entries <> [].
Proof.
  intros Hx Hh Hf Hne.
  assert (Hpos : Forall (fun p => 0 < fst p /\ 0 < snd p) entries).
  { clear Hne. induction Hf as [|row p rows entries (_ & Hl & Hq) Hf IH]; constructor; auto. }
  destruct (merge_entries_valid entries Hpos [] (NoDup_nil _)) as (_ & _ & H3);
    [intros a b []|].
  specialize (H3 Hne). split; [|assumption].
  unfold read_demands_from_excel. rewrite Hx, (read_frame_rows df Hh).
  rewrite (read_rows_good _ _ _ Hf).
  destruct (merge_entries [] entries); [congruence | reflexivity].
Qed.

Lemma accepted_sheet_is_imported_witness :
  read_demands_from_excel
    (fun _ => Some (mkFrame [Text (code_points " 数量(根)"); Text (code_points "备注");
                             Text quantity_column; Text length_column]
                            [[IntLike 1; IntLike 2; IntLike 10; IntLike 355];
                             [IntLike 1; IntLike 2; IntLike 5; IntLike 355]]))
    "book.xlsx"
  = inl (merge_entries [] [(355, 10); (355, 5)]) /\
  merge_entries [] [(355, 10); (355, 5)] <> [].
Proof.
  apply (accepted_sheet_is_imported
           (fun _ => Some (mkFrame [Text (code_points " 数量(根)"); Text (code_points "备注");
                                    Text quantity_column; Text length_column]
                                   [[IntLike 1; IntLike 2; IntLike 10; IntLike 355];
                                    [IntLike 1; IntLike 2; IntLike 5; IntLike 355]]))
           "book.xlsx"
           (mkFrame [Text (code_points " 数量(根)"); Text (code_points "备注");
                     Text quantity_column; Text length_column]
                    [[IntLike 1; IntLike 2; IntLike 10; IntLike 355];
                     [IntLike 1; IntLike 2; IntLike 5; IntLike 355]])
           [(355, 10); (355, 5)]).
  - reflexivity.
  - eexists. split; [vm_compute; reflexivity | reflexivity].
  - repeat constructor; simpl; lia.
  - discriminate.
Defined.

(** * Properties of the interface *)

(** ** The manual entries (lines 191-212) *)

Lemma manual_demands_merge ui :
  manual_demands ui = merge_entries [] (manual_entries ui).
Proof.
  unfold manual_demands, merge_entries, manual_entries.
  generalize (@nil (Z * Z)) as d. generalize (seq 0 (Z.to_nat (in_demand_count ui))) as l.
  induction l as [|i l IH]; intros d; simpl; [reflexivity | apply IH].
Qed.

Lemma manual_demands_valid ui : widgets_valid ui -> demands_valid (manual_demands ui).
Proof.
  intros Hv. rewrite manual_demands_merge.
  assert (Hpos : Forall (fun p => 0 < fst p /\ 0 < snd p) (manual_entries ui)).
  { unfold manual_entries. apply Forall_map. apply Forall_forall. intros i Hi. simpl.
    apply in_seq in Hi.
    assert (Hb : Z.of_nat i < in_demand_count ui) by lia.
    pose proof (wv_length ui Hv i Hb). pose proof (wv_quantity ui Hv i Hb). lia. }
  destruct (merge_entries_valid _ Hpos [] (NoDup_nil _)) as (H1 & H2 & H3);
    [intros a b [] |].
  split; [|split; assumption].
  apply H3. unfold manual_entries. pose proof (wv_demand_count ui Hv) as Hc.
  destruct (Z.to_nat (in_demand_count ui)) eqn:E; [lia | discriminate].
Qed.

(** X21. With the widgets' minimum values in force, the manual entries
    always give a demand set that is not empty, has no length twice and
    holds only positive lengths and quantities; under every length it
    holds the sum of the quantities entered for that length. *)
Theorem manual_demands_are_valid ui :
  widgets_valid ui ->
  manual_demands ui <> [] /\ dict_wf (manual_demands ui) /\
  (forall l q, In (l, q) (manual_demands ui) -> 0 < l /\ 0 < q) /\
  (forall l, dict_get (manual_demands ui) l =
             if mentions (manual_entries ui) l
             then Some (quantity_of (manual_entries ui) l) else None).
Proof.
  intros Hv. destruct (manual_demands_valid ui Hv) as (H1 & H2 & H3).
  split; [assumption|]. split; [assumption|]. split; [assumption|].
  intros l. rewrite manual_demands_merge. now rewrite merge_entries_get.
Qed.

Lemma default_inputs_valid n m start : 1 <= n -> widgets_valid (default_inputs n m start).
Proof.
  intros Hn. constructor; simpl; try lia; intros i _; destruct (i =? 0)%nat; lia.
Qed.

Lemma manual_demands_are_valid_witness :
  manual_demands (default_inputs 3 GivenLength true) = [(355, 10); (200, 10)] /\
  manual_demands (default_inputs 3 GivenLength true) <> [] /\
  dict_wf (manual_demands (default_inputs 3 GivenLength true)) /\
  (forall l q, In (l, q) (manual_demands (default_inputs 3 GivenLength true)) ->
               0 < l /\ 0 < q) /\
  (forall l, dict_get (manual_demands (default_inputs 3 GivenLength true)) l =
             if mentions (manual_entries (default_inputs 3 GivenLength true)) l
             then Some (quantity_of (manual_entries (default_inputs 3 GivenLength true)) l)
             else None).
Proof.
  split; [reflexivity|].
  apply (manual_demands_are_valid (default_inputs 3 GivenLength true)).
  apply default_inputs_valid. lia.
Defined.

(** ** The outcomes of the core on a valid demand set *)






(** ** The demand set that reaches the calculation (lines 163-227) *)


(** ** The core below [2^53] *)



(** ** The report on the search (lines 251-289) *)


(** ** What escapes [main] *)





(** ** The two checks of the search mode (lines 238-243) *)

(** X22. When a run in search mode gets past the two checks of the bounds
    and the step, the range has at least two candidates: the minimum
    and the minimum plus the step. *)
Theorem search_checks_leave_two_candidates ui demands r :
  0 < in_step_length ui ->
  search_mode ui demands = Some r ->
  ending r <> Returned ->
  exists first second rest,
    py_range (in_min_length ui) (in_max_length ui + 1) (in_step_length ui)
    = Ok (first :: second :: rest) /\
    first = in_min_length ui /\
    second = in_min_length ui + in_step_length ui /\
    second <= in_max_length ui.
Proof.
  intros Hstep. unfold search_mode.
  destruct (in_max_length ui <=? in_min_length ui) eqn:E1.
  { intros H. inversion H. simpl. congruence. }
  destruct (in_max_length ui - in_min_length ui <=? in_step_length ui) eqn:E2.
  { intros H. inversion H. simpl. congruence. }
  intros _ _. apply Z.leb_gt in E1. apply Z.leb_gt in E2.
  set (lo := in_min_length ui) in *. set (hi := in_max_length ui) in *.
  set (step := in_step_length ui) in *.
  unfold py_range.
  replace (step =? 0) with false by (symmetry; apply Z.eqb_neq; lia).
  replace (0 <? step) with true by (symmetry; apply Z.ltb_lt; lia).
  assert (Hn : 2 <= (hi + 1 - lo + step - 1) / step).
  { apply Z.div_le_lower_bound; lia. }
  destruct (Z.to_nat ((hi + 1 - lo + step - 1) / step)) as [|[|n]] eqn:En; try lia.
  cbn [seq map]. eexists _, _, _. split; [reflexivity|]. lia.
Qed.

Lemma search_checks_leave_two_candidates_witness :
  exists r first second rest,
    search_mode (default_inputs 1 BestLength true) [(355, 10)] = Some r /\
    ending r = Continue /\
    py_range 1000 (5000 + 1) 100 = Ok (first :: second :: rest) /\
    first = 1000 /\ second = 1000 + 100 /\ second <= 5000.
Proof.
  pose (r := match search_mode (default_inputs 1 BestLength true) [(355, 10)] with
             | Some r => r
             | None => mkRun [] Returned
             end).
  assert (Hr : search_mode (default_inputs 1 BestLength true) [(355, 10)] = Some r)
    by (vm_compute; reflexivity).
  assert (He : ending r = Continue) by (vm_compute; reflexivity).
  destruct (search_checks_leave_two_candidates
              (default_inputs 1 BestLength true) [(355, 10)] r)
    as (first & second & rest & H).
  - simpl. lia.
  - exact Hr.
  - rewrite He. discriminate.
  - exists r, first, second, rest. split; [exact Hr|]. split; [exact He | exact H].
Defined.

(** ** Runs below [2^53] *)





(** ** Rendering a read-back percentage again (line 262) *)

Lemma rne_div_near n d : 0 < d -> - d <= 2 * (d * rne_div n d - n) <= d.
Proof.
  intros Hd. pose proof (Z.div_mod n d ltac:(lia)) as Hdm.
  pose proof (Z.mod_pos_bound n d Hd) as Hm. unfold rne_div.
  destruct (2 * (n mod d) <? d) eqn:E1; [apply Z.ltb_lt in E1; nia|].
  apply Z.ltb_ge in E1.
  destruct (d <? 2 * (n mod d)) eqn:E2; [apply Z.ltb_lt in E2; nia|].
  apply Z.ltb_ge in E2. destruct (Z.even (n / d)); nia.
Qed.

Lemma rne_div_unique n d h : 0 < d -> - d < 2 * (d * h - n) < d -> rne_div n d = h.
Proof.
  intros Hd Hh. pose proof (Z.div_mod n d ltac:(lia)) as Hdm.
  pose proof (Z.mod_pos_bound n d Hd) as Hm.
  assert (Hq : h = n / d \/ h = n / d + 1) by nia.
  unfold rne_div.
  destruct (2 * (n mod d) <? d) eqn:E1.
  - apply Z.ltb_lt in E1. destruct Hq as [->| ->]; [reflexivity | nia].
  - apply Z.ltb_ge in E1.
    destruct (d <? 2 * (n mod d)) eqn:E2.
    + apply Z.ltb_lt in E2. destruct Hq as [->| ->]; [nia | reflexivity].
    + apply Z.ltb_ge in E2. destruct Hq as [->| ->]; nia.
Qed.

Lemma rne_div_le_int n d c : 0 < d -> n <= c * d -> rne_div n d <= c.
Proof.
  intros Hd Hn. pose proof (Z.div_mod n d ltac:(lia)) as Hdm.
  pose proof (Z.mod_pos_bound n d Hd) as Hm.
  assert (Hq : n / d <= c) by nia.
  destruct (Z.eq_dec (n / d) c) as [He|Hne].
  - assert (Hr : n mod d = 0) by nia. unfold rne_div. rewrite Hr.
    replace (2 * 0 <? d) with true by (symmetry; apply Z.ltb_lt; lia). lia.
  - pose proof (rne_div_le_succ n d Hd). lia.
Qed.

Lemma rne_div_nonneg n d : 0 <= n -> 0 < d -> 0 <= rne_div n d.
Proof.
  intros Hn Hd. pose proof (rne_div_floor_le n d Hd).
  pose proof (Z.div_pos n d Hn Hd). lia.
Qed.

Lemma ilog2_le n d : ilog2 n d <= Z.log2 n - Z.log2 d.
Proof.
  unfold ilog2. destruct (scaled n d (Z.log2 n - Z.log2 d)) as [n' d'].
  destruct (d' <=? n'); lia.
Qed.

(** A quotient below [2^51] rounds with a negative exponent. *)
Lemma round64_negative_exponent s n d :
  0 < n -> 0 < d -> Z.log2 n - Z.log2 d <= 51 ->
  exists k, k < 0 /\ k = Z.max (ilog2 n d - 52) (-1074) /\
            round64 s n d = Some (Fin s (rne_div (n * 2 ^ (- k)) d) k).
Proof.
  intros Hn Hd Hlog. pose proof (ilog2_le n d) as He.
  exists (Z.max (ilog2 n d - 52) (-1074)). split; [lia|]. split; [reflexivity|].
  unfold round64. replace (n =? 0) with false by (symmetry; apply Z.eqb_neq; lia).
  cbv zeta. set (k := Z.max (ilog2 n d - 52) (-1074)).
  assert (Hk : (0 <=? k) = false) by (apply Z.leb_gt; unfold k; lia).
  unfold scaled. rewrite Hk. cbv beta iota. reflexivity.
Qed.

Lemma round64_at_most s n d c :
  0 <= n -> 0 < d -> 1 <= c -> Z.log2 c <= 50 -> n <= c * d ->
  exists f, round64 s n d = Some f /\ at_most f c.
Proof.
  intros Hn Hd Hc Hlc Hle.
  destruct (Z.eq_dec n 0) as [->|Hn0].
  { exists (Fin s 0 0). split; [reflexivity|]. cbn [at_most].
    replace (0 <=? 0) with true by reflexivity. lia. }
  assert (Hlog : Z.log2 n - Z.log2 d <= 51).
  { assert (Z.log2 n <= Z.log2 (c * d)) by (apply Z.log2_le_mono; lia).
    pose proof (Z.log2_mul_above c d ltac:(lia) ltac:(lia)). lia. }
  destruct (round64_negative_exponent s n d ltac:(lia) Hd Hlog) as (k & Hk & _ & Hr).
  eexists. split; [exact Hr|]. cbn [at_most].
  assert (Hp : 0 < 2 ^ (- k)) by (apply Z.pow_pos_nonneg; lia).
  split; [apply rne_div_nonneg; nia|].
  replace (0 <=? k) with false by (symmetry; apply Z.leb_gt; lia).
  apply rne_div_le_int; [assumption | nia].
Qed.

Lemma mul_int_at_most x : at_most x 1 -> at_most (mul_int x 100) 100.
Proof.
  destruct x as [s m e|s]; cbn [at_most]; [|tauto]. intros [Hm Hb].
  unfold mul_int, scaled.
  assert (Hr : exists f, round64 s (fst (if 0 <=? - e then (m * 100, 1 * 2 ^ (- e))
                                        else (m * 100 * 2 ^ (- - e), 1)))
                                  (snd (if 0 <=? - e then (m * 100, 1 * 2 ^ (- e))
                                        else (m * 100 * 2 ^ (- - e), 1))) = Some f /\
                     at_most f 100).
  { destruct (0 <=? - e) eqn:Ee; cbn [fst snd].
    - apply Z.leb_le in Ee.
      assert (Hp : 0 < 2 ^ (- e)) by (apply Z.pow_pos_nonneg; lia).
      apply round64_at_most; [lia | lia | lia | change (Z.log2 100) with 6; lia |].
      destruct (0 <=? e) eqn:E0.
      + apply Z.leb_le in E0. assert (e = 0) by lia. subst e.
        change (2 ^ (- 0)) with 1. change (2 ^ 0) with 1 in Hb. lia.
      + lia.
    - apply Z.leb_gt in Ee. replace (- - e) with e by lia.
      replace (0 <=? e) with true in Hb by (symmetry; apply Z.leb_le; lia).
      assert (Hp : 0 < 2 ^ e) by (apply Z.pow_pos_nonneg; lia).
      apply round64_at_most; [nia | lia | lia | change (Z.log2 100) with 6; lia | nia]. }
  destruct Hr as (f & Hf & Hat).
  destruct (0 <=? - e); cbn [fst snd] in Hf; rewrite Hf; exact Hat.
Qed.

Lemma hundredths_at_most s m e : at_most (Fin s m e) 100 -> 0 <= hundredths m e <= 10000.
Proof.
  cbn [at_most]. intros [Hm Hb]. unfold hundredths, scaled.
  destruct (0 <=? - e) eqn:Ee.
  - apply Z.leb_le in Ee.
    assert (Hp : 0 < 2 ^ (- e)) by (apply Z.pow_pos_nonneg; lia).
    split; [apply rne_div_nonneg; lia|].
    apply rne_div_le_int; [lia|].
    destruct (0 <=? e) eqn:E0.
    + apply Z.leb_le in E0. assert (e = 0) by lia. subst e.
      change (2 ^ (- 0)) with 1. change (2 ^ 0) with 1 in Hb. lia.
    + lia.
  - apply Z.leb_gt in Ee. replace (- - e) with e by lia.
    replace (0 <=? e) with true in Hb by (symmetry; apply Z.leb_le; lia).
    assert (Hp : 0 < 2 ^ e) by (apply Z.pow_pos_nonneg; lia).
    rewrite rne_div_exact. nia.
Qed.

(** Reading a rendered float back and rendering it again gives the same
    text, as long as its hundredths stay below [2^52]. *)
Lemma format_2f_reread s m e :
  0 <= hundredths m e < 2 ^ 52 ->
  format_2f (reread (Fin s m e)) = format_2f (Fin s m e).
Proof.
  intros Hh. unfold reread. set (h := hundredths m e) in *.
  destruct (Z.eq_dec h 0) as [Hz|Hnz].
  { rewrite Hz. change (round64 s 0 100) with (Some (Fin s 0 0)).
    unfold format_2f. cbv zeta. fold h. rewrite Hz. reflexivity. }
  assert (Hlog : Z.log2 h - Z.log2 100 <= 51).
  { assert (Z.log2 h < 52) by (apply Z.log2_lt_pow2; lia).
    change (Z.log2 100) with 6. lia. }
  destruct (round64_negative_exponent s h 100 ltac:(lia) ltac:(lia) Hlog)
    as (k & Hk & Hkdef & Hr).
  rewrite Hr.
  assert (Hk7 : k <= -7).
  { rewrite Hkdef. pose proof (ilog2_le h 100) as He.
    assert (Z.log2 h < 52) by (apply Z.log2_lt_pow2; lia).
    change (Z.log2 100) with 6 in He. lia. }
  assert (HK : 128 <= 2 ^ (- k)).
  { change 128 with (2 ^ 7). apply Z.pow_le_mono_r; lia. }
  set (m' := rne_div (h * 2 ^ (- k)) 100).
  pose proof (rne_div_near (h * 2 ^ (- k)) 100 ltac:(lia)) as Hnear. fold m' in Hnear.
  assert (Hh' : hundredths m' k = h).
  { unfold hundredths, scaled.
    replace (0 <=? - k) with true by (symmetry; apply Z.leb_le; lia).
    apply rne_div_unique; lia. }
  unfold format_2f. cbv zeta. rewrite Hh'. reflexivity.
Qed.

(** Below [2^53] the utilization of a result renders to the same text
    again after it has been read back. *)
Lemma utilization_rerenders stock demands r :
  0 < stock < 2 ^ 53 -> demands_valid demands ->
  greedy_cutting_optimization stock demands = Some (Ok r) ->
  exists u, rendered_utilization r = Ok u /\
            total_utilization r = PyStr (format_2f u ++ "%").
Proof.
  intros Hs (Hne & Hwf & Hpos) Hopt.
  destruct (optimizer_returns _ _ _ Hopt) as (st0 & _ & Hfo & _).
  pose proof (first_oversized_fits _ _ Hfo) as Hfit.
  assert (Hfit' : forall l q, In (l, q) demands -> 0 < l <= stock /\ 0 < q).
  { intros l q Hin. pose proof (Hfit _ _ Hin). apply Hpos in Hin. lia. }
  destruct (bounded_run stock demands Hs Hne Hwf Hfit')
    as (st & r' & Hp & Hfmt & Hopt' & Hrun & Hfi & Hany).
  rewrite Hopt in Hopt'. inversion Hopt'. subst r'. clear Hopt'.
  destruct (fit_used _ _ Hfi) as [Hu0 Hu1].
  assert (Hone : 1 <= st_total_stock_used st).
  { destruct (inv_used _ _ _ Hrun) as [Hn0 Hz].
    destruct (Z.eq_dec (st_total_stock_used st) 0) as [He|]; [|lia].
    rewrite (Hz He) in Hany.
    rewrite (demand_list_remaining stock demands Hne Hfit') in Hany. discriminate. }
  unfold format_result, format_totals in Hfmt.
  destruct (true_div (st_total_used_length st) (st_total_stock_used st * stock))
    as [q| |] eqn:Ed; simpl in Hfmt; try discriminate.
  inversion Hfmt. subst r. clear Hfmt.
  apply true_div_pos in Ed; [|nia|lia].
  destruct (round64_at_most false (st_total_used_length st)
              (st_total_stock_used st * stock) 1) as (f & Hf & Hat);
    [lia | nia | lia | change (Z.log2 1) with 0; lia | lia |].
  rewrite Ed in Hf. inversion Hf. subst f.
  apply mul_int_at_most in Hat.
  set (x := mul_int q 100) in *.
  assert (Hwf' : float_wf x).
  { destruct x as [s m e|s]; [|exact I]. cbn [at_most] in Hat. simpl. tauto. }
  exists (reread x). unfold rendered_utilization. cbn [total_utilization].
  rewrite strip_format_2f by assumption.
  rewrite py_float_format_2f by assumption. split; [reflexivity|].
  destruct x as [s m e|s]; [|contradiction].
  pose proof (hundredths_at_most s m e Hat) as Hh.
  rewrite format_2f_reread; [reflexivity|].
  assert (10000 < 2 ^ 52) by reflexivity. lia.
Qed.

(** X26. In the report on a search with an upper bound below [2^53], the
    indicator row "平均单根利用率", which line 262 renders from the
    utilization read back from the text, always shows the same text as
    the row "总利用率". *)
Theorem average_repeats_total_utilization ui demands r total units wasted average :
  widgets_valid ui -> in_max_length ui < 2 ^ 53 -> demands_valid demands ->
  search_mode ui demands = Some r ->
  In (BestIndicators total units wasted average) (shown r) ->
  total = PyStr average.
Proof.
  intros Hv Hmax Hd. unfold search_mode.
  pose proof (wv_min_length ui Hv) as Hmin. pose proof (wv_step_length ui Hv) as Hstep.
  destruct (in_max_length ui <=? in_min_length ui).
  { intros H. inversion H. simpl. intros [Hi|[]]. discriminate. }
  destruct (in_max_length ui - in_min_length ui <=? in_step_length ui).
  { intros H. inversion H. simpl. intros [Hi|[]]. discriminate. }
  destruct (find_optimal_stock_length demands (in_min_length ui) (in_max_length ui)
                                      (in_step_length ui)) as [[ranked|e|x]|] eqn:Ef;
    intros H; inversion H; subst r; clear H; simpl;
    try (intros [Hi|[]]; discriminate); try contradiction.
  destruct ranked as [|best rest]; simpl; [contradiction|].
  assert (Hbest : greedy_cutting_optimization (stock_length best) demands
                  = Some (Ok (sr_result best)) /\
                  0 < stock_length best < 2 ^ 53).
  { destruct (search_returns_perm _ _ _ _ _ Ef) as (lengths & results & Hr & Hc & _ & Hperm).
    assert (Hstep' : 0 < in_step_length ui) by lia.
    destruct (py_range_ascending _ _ _ _ Hstep' Hr) as [_ Hall].
    assert (Hin : In best results) by (apply (Permutation_in _ Hperm); now left).
    apply (collect_results_spec _ _ _ Hc) in Hin. destruct Hin as [Hl Hopt].
    split; [assumption|]. rewrite Forall_forall in Hall.
    destruct (Hall _ Hl) as [Hb _]. lia. }
  destruct Hbest as [Hopt Hb].
  destruct (utilization_rerenders _ _ _ Hb Hd Hopt) as (u & Hu & Htext).
  rewrite Hu. simpl.
  intros [Hi|[Hi|[Hi|[Hi|[]]]]]; try discriminate.
  inversion Hi. subst. exact Htext.
Qed.

Lemma average_repeats_total_utilization_witness :
  exists r,
    search_mode (default_inputs 1 BestLength true) [(355, 10)] = Some r /\
    In (BestIndicators (PyStr "98.61%") 1 50 "98.61%") (shown r) /\
    PyStr "98.61%" = PyStr "98.61%".
Proof.
  pose (r := match search_mode (default_inputs 1 BestLength true) [(355, 10)] with
             | Some r => r
             | None => mkRun [] Returned
             end).
  assert (Hr : search_mode (default_inputs 1 BestLength true) [(355, 10)] = Some r)
    by (vm_compute; reflexivity).
  assert (Hin : In (BestIndicators (PyStr "98.61%") 1 50 "98.61%") (shown r))
    by (vm_compute; right; left; reflexivity).
  exists r. split; [exact Hr|]. split; [exact Hin|].
  apply (average_repeats_total_utilization
           (default_inputs 1 BestLength true) [(355, 10)] r
           (PyStr "98.61%") 1 50 "98.61%").
  - apply default_inputs_valid. lia.
  - reflexivity.
  - split; [discriminate|]. split; [repeat constructor; simpl; tauto|].
    intros l q [H|[]]; inversion H; lia.
  - exact Hr.
  - exact Hin.
Defined.
